(** * Patch application (libgit2, [src/apply.c])

    A shallow embedding of the patch-application engine of [src/apply.c]
    and the properties of its line image, hunk matcher, hunk applier,
    binary applier, per-file driver and batch orchestrator: [apply_one],
    [git_apply_tree], and [git_apply] with its two ways of committing a
    postimage, [git_apply__to_index] and [git_apply__to_workdir].

    Conventions of the embedding.

    - A [size_t] is a [Z] in [0, 2^64); additions that the C code performs
      on [size_t] are written with [size_add], conversions with
      [size_wrap] and [uint_wrap].
    - A [const char *] is the list of the bytes readable from the pointer
      on; a length that travels with it says how many of them belong to
      the buffer.  [p + k] is [drop k p].
    - A pointer to a line is an [option]: [None] is [NULL].
    - A function whose C counterpart may dereference [NULL], write
      outside a vector or read behind the readable bytes returns an
      [option]; [None] is that undefined behaviour.  Error codes are the
      [int]s of the C code.
    - Allocation never fails: [git_buf_put], [git_vector_insert],
      [git_pool_mallocz] and [git__strdup] always succeed. *)

From Stdlib Require Import ZArith Lia Strings.Byte.
From stdpp Require Import base option list strings gmap.

Local Open Scope Z_scope.

#[global] Instance byte_eq_decision : EqDecision byte := Byte.byte_eq_dec.

(** ** Machine integers *)

Definition SIZE_BITS : Z := 64.

(** Conversion of an integer to [size_t]. *)
Definition size_wrap (z : Z) : Z := z mod 2 ^ SIZE_BITS.

(** Addition on [size_t]. *)
Definition size_add (a b : Z) : Z := size_wrap (a + b).

(** Conversion of an integer to [unsigned int]. *)
Definition uint_wrap (z : Z) : Z := z mod 2 ^ 32.

(** Length of a vector or of an array, as the [size_t] the code reads. *)
Definition vlen {A : Type} (v : list A) : Z := Z.of_nat (length v).

(** ** Errors *)

(** The messages [apply.c] hands to [giterr_set] through [apply_err]. *)
Inductive apply_errmsg : Type :=
| ERR_PREIMAGE_MISSING_LINE (linenum : Z)
| ERR_HUNK_DID_NOT_APPLY (new_start : Z)
| ERR_INFLATED_LENGTH
| ERR_UNKNOWN_BINARY_TYPE
| ERR_NO_BINARY_DATA
| ERR_BINARY_NOT_CLEAN
| ERR_REMOVAL_LEAVES_CONTENTS.

(** The last error set: the thread's error slot, as far as [apply.c]
    writes it. *)
Abbreviation giterr := (option apply_errmsg).

(** ** Data model *)

(** Modelled from the spec: the [origin] of a Line, "one of context,
    addition, deletion" (the enumeration [git_diff_line_t] of
    [git2/diff.h], which is not among the sources).  A line whose origin
    is none of the three has [origin = None]. *)
Inductive git_diff_line_t : Type :=
| GIT_DIFF_LINE_CONTEXT
| GIT_DIFF_LINE_ADDITION
| GIT_DIFF_LINE_DELETION.

Record git_diff_line : Type := {
  origin : option git_diff_line_t;
  content : list byte;
  content_len : Z;
  content_offset : Z
}.

(** Modelled from the spec: the [status] of a delta record (the
    enumeration [git_delta_t] of [git2/diff.h]). *)
Inductive git_delta_t : Type :=
| GIT_DELTA_UNMODIFIED
| GIT_DELTA_ADDED
| GIT_DELTA_DELETED
| GIT_DELTA_MODIFIED
| GIT_DELTA_RENAMED
| GIT_DELTA_COPIED
| GIT_DELTA_IGNORED
| GIT_DELTA_UNTRACKED
| GIT_DELTA_TYPECHANGE
| GIT_DELTA_UNREADABLE
| GIT_DELTA_CONFLICTED.

Record git_diff_file : Type := {
  path : string;
  mode : Z
}.

Record git_diff_delta : Type := {
  status : git_delta_t;
  flags : Z;
  old_file : git_diff_file;
  new_file : git_diff_file
}.

(** Modelled from the spec: the [type] of a binary file payload, "delta"
    or "literal", and the value the code rejects as unknown
    ([git_diff_binary_t] of [git2/diff.h]). *)
Inductive git_diff_binary_t : Type :=
| GIT_DIFF_BINARY_NONE
| GIT_DIFF_BINARY_LITERAL
| GIT_DIFF_BINARY_DELTA.

Record git_diff_binary_file : Type := {
  type : git_diff_binary_t;
  data : list byte;
  datalen : Z;
  inflatedlen : Z
}.

Record git_diff_binary : Type := {
  contains_data : bool;
  binary_old_file : git_diff_binary_file;
  binary_new_file : git_diff_binary_file
}.

(** [git_patch_hunk]: of the embedded [git_diff_hunk] only [new_start]
    (an [int]) is read by [apply.c]. *)
Record git_patch_hunk : Type := {
  new_start : Z;
  line_start : Z;
  line_count : Z
}.

Record git_patch : Type := {
  delta : git_diff_delta;
  binary : git_diff_binary;
  hunks : list git_patch_hunk;
  patch_lines : list git_diff_line
}.

#[global] Instance git_delta_t_eq_dec : EqDecision git_delta_t.
Proof. solve_decision. Defined.

(** A vector of line pointers, and the line image made of one. *)
Abbreviation line_ptr := (option git_diff_line).
Abbreviation git_vector := (list (option git_diff_line)).
Abbreviation patch_image := (list (option git_diff_line)).

Abbreviation git_buf := (list byte).

(** [GIT_BUF_INIT]. *)
Definition GIT_BUF_INIT : git_buf := [].

(** The newline character. *)
Definition NL : byte := x0a.

(** ** Collaborators of [vector.h], [array.h], [buffer.h], [string.h] *)

(** [git_buf_put(out, data, len)]: appends [len] bytes. *)
Definition git_buf_put (out : git_buf) (data : list byte) (len : Z) : git_buf :=
  out ++ take (Z.to_nat len) data.

(** [git_vector_get(v, i)]: the pointer at [i], [NULL] out of range. *)
Definition git_vector_get (v : git_vector) (i : Z) : line_ptr :=
  mjoin (v !! Z.to_nat i).

(** [git_array_get(a, i)]: the address of element [i], [NULL] out of
    range. *)
Definition git_array_get (a : list git_diff_line) (i : Z) : line_ptr :=
  if decide (i < vlen a) then a !! Z.to_nat i else None.

(** [git_vector_insert(v, p)]: appends a pointer. *)
Definition git_vector_insert (v : git_vector) (p : line_ptr) : git_vector :=
  v ++ [p].

(** [memchr(s, c, n)] reads the bytes at [s] one after the other and
    stops at the first [c], or when it has read [n] bytes: [Some (Some
    off)] is a pointer to the first [c], at offset [off]; [Some None] is
    [NULL], none of the [n] bytes is [c].  When the readable bytes run out
    before either happens, the call reads behind them, which is undefined
    behaviour: [None]. *)
Fixpoint memchr (s : list byte) (c : byte) (n : nat) : option (option Z) :=
  match n with
  | O => Some None
  | S n' =>
      match s with
      | [] => None
      | b :: s' =>
          if Byte.eqb b c then Some (Some 0)
          else
            match memchr s' c n' with
            | Some (Some off) => Some (Some (off + 1))
            | Some None => Some None
            | None => None
            end
      end
  end.

(** [memcmp(a, b, n) == 0]. *)
Definition memcmp_eq (a b : list byte) (n : Z) : bool :=
  bool_decide (take (Z.to_nat n) a = take (Z.to_nat n) b).

(** Modelled from the spec: "contiguous-range insertion of null
    placeholders" ([git_vector_insert_null] of [vector.c], which is not
    among the sources).  The position must lie inside the vector. *)
Definition git_vector_insert_null (v : git_vector) (idx insert_len : Z)
  : option git_vector :=
  if decide (0 <= idx <= vlen v /\ 0 < insert_len)
  then Some (take (Z.to_nat idx) v
             ++ replicate (Z.to_nat insert_len) None
             ++ drop (Z.to_nat idx) v)
  else None.

(** Modelled from the spec: "contiguous-range removal"
    ([git_vector_remove_range] of [vector.c], which is not among the
    sources).  The range must lie inside the vector. *)
Definition git_vector_remove_range (v : git_vector) (idx remove_len : Z)
  : option git_vector :=
  if decide (0 <= idx /\ 0 < remove_len /\ idx + remove_len <= vlen v)
  then Some (take (Z.to_nat idx) v ++ drop (Z.to_nat (idx + remove_len)) v)
  else None.

Section Apply.

(** ** Constants and collaborators that [apply.c] takes from elsewhere *)

(** [GIT_EAPPLYFAIL] of [git2/errors.h], [GIT_FILEMODE_BLOB] of
    [git2/types.h] and [GIT_DIFF_FLAG_BINARY] of [git2/diff.h]. *)
Variable GIT_EAPPLYFAIL : Z.
Variable GIT_FILEMODE_BLOB : Z.
Variable GIT_DIFF_FLAG_BINARY : Z.

(** [git_zstream_inflatebuf(&inflated, data, datalen)] on a fresh buffer:
    the error code and the inflated bytes. *)
Variable git_zstream_inflatebuf : list byte -> Z * git_buf.

(** [git_delta_apply(&data, &data_len, base, base_len, delta, delta_len)]:
    the error code and the bytes produced. *)
Variable git_delta_apply : list byte -> list byte -> Z * git_buf.

(** [apply_err(...)]: sets the error message, evaluates to
    [GIT_EAPPLYFAIL]. *)
Definition apply_err (msg : apply_errmsg) : Z * giterr :=
  (GIT_EAPPLYFAIL, Some msg).

(** ** Line image *)

Definition patch_line_init (in_ : list byte) (in_len in_offset : Z)
  : git_diff_line :=
  {| origin := None;
     content := in_;
     content_len := in_len;
     content_offset := in_offset |}.

(** The loop of [patch_image_init_fromstr]; [start] and [end] are offsets
    from [in].  Every turn moves [start] forward, so [in_len] turns are
    enough ([patch_image_init_loop_fuel]). *)
Fixpoint patch_image_init_loop (fuel : nat) (in_ : list byte) (in_len : Z)
    (start : Z) (lines : git_vector) : option git_vector :=
  match fuel with
  | O => Some lines
  | S fuel' =>
      if decide (start < in_len) then
        found ← memchr (drop (Z.to_nat start) in_) NL (Z.to_nat in_len);
        let end_ :=
          match found with
          | None => in_len
          | Some off =>
              let e := start + off in
              if decide (e < in_len) then e + 1 else e
          end in
        let line :=
          patch_line_init (drop (Z.to_nat start) in_) (end_ - start) start in
        patch_image_init_loop fuel' in_ in_len end_
          (git_vector_insert lines (Some line))
      else Some lines
  end.

Definition patch_image_init_fromstr (in_ : list byte) (in_len : Z)
  : option (Z * patch_image) :=
  lines ← patch_image_init_loop (Z.to_nat in_len) in_ in_len 0 [];
  Some (0, lines).

(** ** Hunk matcher *)

(** The loop of [match_hunk], [n] turns from index [i] on. *)
Fixpoint match_hunk_loop (image preimage : patch_image) (linenum : Z)
    (n : nat) (i : Z) : option bool :=
  match n with
  | O => Some true
  | S n' =>
      preimage_line ← git_vector_get preimage i;
      image_line ← git_vector_get image (size_add linenum i);
      if negb (content_len preimage_line =? content_len image_line)
         || negb (memcmp_eq (content preimage_line) (content image_line)
                    (content_len image_line))
      then Some false
      else match_hunk_loop image preimage linenum n' (i + 1)
  end.

Definition match_hunk (image preimage : patch_image) (linenum : Z)
  : option bool :=
  if decide (size_add (vlen preimage) linenum > vlen image) then Some false
  else match_hunk_loop image preimage linenum (length preimage) 0.

(** [find_hunk_linenum]: the line number written to [*out] and the
    result. *)
Definition find_hunk_linenum (image preimage : patch_image) (linenum : Z)
  : option (Z * bool) :=
  let max := vlen image in
  let linenum := if decide (linenum > max) then max else linenum in
  match_ ← match_hunk image preimage linenum;
  Some (linenum, match_).

(** ** Hunk applier *)

(** The assignment loop of [update_hunk]:
    [image->lines.contents[linenum + i] = git_vector_get(&postimage->lines, i)]. *)
Fixpoint update_hunk_assign (lines : git_vector) (linenum : Z)
    (postimage : patch_image) (n : nat) (i : Z) : option git_vector :=
  match n with
  | O => Some lines
  | S n' =>
      let k := size_add linenum i in
      if decide (k < vlen lines) then
        update_hunk_assign
          (<[Z.to_nat k := git_vector_get postimage i]> lines)
          linenum postimage n' (i + 1)
      else None
  end.

(** [update_hunk]; [linenum] is the [unsigned int] parameter. *)
Definition update_hunk (image : patch_image) (linenum : Z)
    (preimage postimage : patch_image) : option (Z * patch_image) :=
  let postlen := vlen postimage in
  let prelen := vlen preimage in
  lines ← (if decide (postlen > prelen) then
             git_vector_insert_null image linenum (postlen - prelen)
           else if decide (prelen > postlen) then
             git_vector_remove_range image linenum (prelen - postlen)
           else Some image);
  lines ← update_hunk_assign lines linenum postimage (length postimage) 0;
  Some (0, lines).

Definition is_preimage_origin (o : option git_diff_line_t) : bool :=
  match o with
  | Some GIT_DIFF_LINE_CONTEXT | Some GIT_DIFF_LINE_DELETION => true
  | _ => false
  end.

Definition is_postimage_origin (o : option git_diff_line_t) : bool :=
  match o with
  | Some GIT_DIFF_LINE_CONTEXT | Some GIT_DIFF_LINE_ADDITION => true
  | _ => false
  end.

(** The first loop of [apply_hunk], [n] turns from index [i] on: the
    preimage and the postimage of the hunk, or the number of the line
    that the patch does not contain. *)
Fixpoint apply_hunk_images (patch : git_patch) (hunk : git_patch_hunk)
    (n : nat) (i : Z) (preimage postimage : patch_image)
  : patch_image * patch_image + Z :=
  match n with
  | O => inl (preimage, postimage)
  | S n' =>
      let linenum := size_add (line_start hunk) i in
      match git_array_get (patch_lines patch) linenum with
      | None => inr linenum
      | Some line =>
          let preimage :=
            if is_preimage_origin (origin line)
            then git_vector_insert preimage (Some line) else preimage in
          let postimage :=
            if is_postimage_origin (origin line)
            then git_vector_insert postimage (Some line) else postimage in
          apply_hunk_images patch hunk n' (i + 1) preimage postimage
      end
  end.

(** [apply_hunk]: the error code, the image and the error slot. *)
Definition apply_hunk (image : patch_image) (patch : git_patch)
    (hunk : git_patch_hunk) (err : giterr)
  : option (Z * patch_image * giterr) :=
  match apply_hunk_images patch hunk (Z.to_nat (line_count hunk)) 0 [] [] with
  | inr linenum =>
      let '(error, err) := apply_err (ERR_PREIMAGE_MISSING_LINE linenum) in
      Some (error, image, err)
  | inl (preimage, postimage) =>
      let line_num :=
        if decide (new_start hunk ≠ 0)
        then size_wrap (new_start hunk - 1) else 0 in
      '(line_num, found) ← find_hunk_linenum image preimage line_num;
      if negb found then
        let '(error, err) :=
          apply_err (ERR_HUNK_DID_NOT_APPLY (new_start hunk)) in
        Some (error, image, err)
      else
        '(error, image) ← update_hunk image (uint_wrap line_num)
                             preimage postimage;
        Some (error, image, err)
  end.

(** ** Text patch driver *)

(** [git_array_foreach(patch->hunks, i, hunk)] of [apply_hunks]; [error]
    is the value of the variable when the loop is entered. *)
Fixpoint apply_hunks_loop (image : patch_image) (patch : git_patch)
    (todo : list git_patch_hunk) (error : Z) (err : giterr)
  : option (Z * patch_image * giterr) :=
  match todo with
  | [] => Some (error, image, err)
  | hunk :: todo' =>
      '(error, image, err) ← apply_hunk image patch hunk err;
      if decide (error < 0) then Some (error, image, err)
      else apply_hunks_loop image patch todo' error err
  end.

(** [git_vector_foreach(&image.lines, i, line) git_buf_put(out, ...)]. *)
Fixpoint image_put (out : git_buf) (lines : git_vector) : option git_buf :=
  match lines with
  | [] => Some out
  | p :: lines' =>
      line ← p;
      image_put (git_buf_put out (content line) (content_len line)) lines'
  end.

Definition apply_hunks (out : git_buf) (source : list byte) (source_len : Z)
    (patch : git_patch) (err : giterr) : option (Z * git_buf * giterr) :=
  '(error, image) ← patch_image_init_fromstr source source_len;
  if decide (error < 0) then Some (error, out, err)
  else
    '(error, image, err) ← apply_hunks_loop image patch (hunks patch) error err;
    if decide (error < 0) then Some (error, out, err)
    else
      out ← image_put out image;
      Some (error, out, err).

(** ** Binary delta applier *)

(** [apply_binary_delta]: the error code, the buffer [out] and the error
    slot. *)
Definition apply_binary_delta (out : git_buf) (source : list byte)
    (source_len : Z) (binary_file : git_diff_binary_file) (err : giterr)
  : Z * git_buf * giterr :=
  if decide (datalen binary_file = 0) then
    (0, git_buf_put out source source_len, err)
  else
    let '(error, inflated) :=
      git_zstream_inflatebuf
        (take (Z.to_nat (datalen binary_file)) (data binary_file)) in
    let '(error, out, err) :=
      if decide (error = 0 /\ vlen inflated ≠ inflatedlen binary_file) then
        let '(error, err) := apply_err ERR_INFLATED_LENGTH in
        (error, GIT_BUF_INIT, err)
      else (error, out, err) in
    if decide (error < 0) then (error, out, err)
    else
      match type binary_file with
      | GIT_DIFF_BINARY_DELTA =>
          let '(error, data) :=
            git_delta_apply (take (Z.to_nat source_len) source) inflated in
          (error, data, err)
      | GIT_DIFF_BINARY_LITERAL => (error, inflated, err)
      | _ =>
          let '(error, err) := apply_err ERR_UNKNOWN_BINARY_TYPE in
          (error, out, err)
      end.

Definition apply_binary (out : git_buf) (source : list byte)
    (source_len : Z) (patch : git_patch) (err : giterr)
  : Z * git_buf * giterr :=
  let b := binary patch in
  let '(error, out, err) :=
    if negb (contains_data b) then
      let '(error, err) := apply_err ERR_NO_BINARY_DATA in
      (error, out, err)
    else if decide (datalen (binary_old_file b) = 0
                    /\ datalen (binary_new_file b) = 0) then
      (0, out, err)
    else
      (* first, apply the new_file delta to the given source *)
      let '(error, out, err) :=
        apply_binary_delta out source source_len (binary_new_file b) err in
      if decide (error < 0) then (error, out, err)
      else
        (* second, apply the old_file delta to sanity check the result *)
        let '(error, reverse, err) :=
          apply_binary_delta GIT_BUF_INIT out (vlen out)
            (binary_old_file b) err in
        if decide (error < 0) then (error, out, err)
        else if bool_decide (source_len ≠ vlen reverse)
                || negb (memcmp_eq source reverse source_len) then
          let '(error, err) := apply_err ERR_BINARY_NOT_CLEAN in
          (error, out, err)
        else (error, out, err) in
  if decide (error < 0) then (error, GIT_BUF_INIT, err)
  else (error, out, err).

(** ** File patch driver *)

(** What [git_apply__patch] leaves behind: its return value, the buffer
    [contents_out], [*filename_out], [*mode_out] and the error slot. *)
Record apply_result : Type := {
  return_code : Z;
  contents_out : git_buf;
  filename_out : option string;
  mode_out : Z;
  error_message : giterr
}.

Definition git_apply__patch (contents_out : git_buf) (source : list byte)
    (source_len : Z) (patch : git_patch) (err : giterr)
  : option apply_result :=
  let d := delta patch in
  let '(filename, mode_) :=
    if decide (status d ≠ GIT_DELTA_DELETED) then
      let newfile := new_file d in
      (Some (path newfile),
       if decide (mode newfile ≠ 0) then mode newfile else GIT_FILEMODE_BLOB)
    else (None, 0) in
  '(error, contents_out, err) ←
    (if decide (Z.land (flags d) GIT_DIFF_FLAG_BINARY ≠ 0) then
       Some (apply_binary contents_out source source_len patch err)
     else if decide (vlen (hunks patch) ≠ 0) then
       apply_hunks contents_out source source_len patch err
     else Some (0, git_buf_put contents_out source source_len, err));
  if decide (error ≠ 0) then
    Some {| return_code := error; contents_out := contents_out;
            filename_out := None; mode_out := 0; error_message := err |}
  else if decide (status d = GIT_DELTA_DELETED /\ vlen contents_out > 0) then
    let '(error, err) := apply_err ERR_REMOVAL_LEAVES_CONTENTS in
    Some {| return_code := error; contents_out := contents_out;
            filename_out := None; mode_out := 0; error_message := err |}
  else
    Some {| return_code := error; contents_out := contents_out;
            filename_out := filename; mode_out := mode_;
            error_message := err |}.

(** ** Batch orchestrator *)

(** Modelled from the spec: the index collaborator, "a mutable mapping
    from path to { mode, blob_id }" with [add] and [remove(path)]
    ([index.c] is not among the sources).  A blob identifier is the
    sequence of its bytes. *)
Definition git_index_new : gmap string (Z * list byte) := ∅.

(** Modelled from the spec: [remove(path)] of the index collaborator
    ([git_index_remove] of [index.c], at stage 0). *)
Definition git_index_remove (index : gmap string (Z * list byte))
    (path : string) : Z * gmap string (Z * list byte) :=
  (0, delete path index).

(** Modelled from the spec: [add] of the index collaborator
    ([git_index_add] of [index.c]); the entry is
    [{ path, mode, blob_id }]. *)
Definition git_index_add (index : gmap string (Z * list byte))
    (entry_path : string) (entry_mode : Z) (entry_id : list byte)
  : Z * gmap string (Z * list byte) :=
  (0, <[entry_path := (entry_mode, entry_id)]> index).

(** Modelled from the spec: "seed the postimage index from the input
    tree" ([git_index_read_tree] of [index.c]); a tree is given by its
    entries. *)
Definition git_index_read_tree (index tree : gmap string (Z * list byte))
  : Z * gmap string (Z * list byte) :=
  (0, tree).

(** [git_diff_get_delta(diff, i)]: [NULL] out of range. *)
Definition git_diff_get_delta (diff : list git_diff_delta) (i : Z)
  : option git_diff_delta :=
  if decide (i < vlen diff) then diff !! Z.to_nat i else None.

(** [GIT_ENOTFOUND] of [git2/errors.h]. *)
Variable GIT_ENOTFOUND : Z.

(** [git_patch_from_diff(&patch, diff, i)]: the error code and the
    patch. *)
Variable git_patch_from_diff : list git_diff_delta -> Z -> Z * git_patch.

(** [git_blob_create_frombuffer(&blob_id, repo, ptr, size)]: the error
    code and the identifier. *)
Variable git_blob_create_frombuffer : git_buf -> Z * list byte.

(** The bytes readable at [buf.ptr]: the contents, then the terminator
    that a [git_buf] keeps behind them. *)
Definition git_buf_ptr (buf : git_buf) : list byte := buf ++ [x00].

(** [apply_one]; [preimage_reader] is [git_reader_read] on the reader at
    hand: the error code and the contents read. *)
Definition apply_one (preimage_reader : string -> Z * git_buf)
    (postimage : gmap string (Z * list byte)) (diff : list git_diff_delta)
    (i : Z) (err : giterr)
  : option (Z * gmap string (Z * list byte) * giterr) :=
  let '(error, patch) := git_patch_from_diff diff i in
  if decide (error < 0) then Some (error, postimage, err)
  else
    delta ← git_diff_get_delta diff i;
    if decide (status delta = GIT_DELTA_DELETED) then
      Some (error, postimage, err)
    else
      let '(error, pre_contents) :=
        if decide (status delta ≠ GIT_DELTA_ADDED)
        then preimage_reader (path (old_file delta))
        else (error, GIT_BUF_INIT) in
      if decide (error < 0) then
        (* ENOTFOUND is really an application error *)
        Some (if decide (error = GIT_ENOTFOUND) then GIT_EAPPLYFAIL else error,
              postimage, err)
      else
        r ← git_apply__patch GIT_BUF_INIT (git_buf_ptr pre_contents)
              (vlen pre_contents) patch err;
        if decide (return_code r < 0) then
          Some (return_code r, postimage, error_message r)
        else
          let '(error, blob_id) :=
            git_blob_create_frombuffer (contents_out r) in
          if decide (error < 0) then Some (error, postimage, error_message r)
          else
            filename ← filename_out r;
            let '(error, postimage) :=
              git_index_add postimage filename (mode_out r) blob_id in
            Some (error, postimage, error_message r).

(** The first loop of [git_apply_tree], [n] turns from index [i] on:
    "remove the old paths from the index before applying diffs". *)
Fixpoint git_apply_tree_remove (postimage : gmap string (Z * list byte))
    (diff : list git_diff_delta) (n : nat) (i : Z) (error : Z)
  : option (Z * gmap string (Z * list byte)) :=
  match n with
  | O => Some (error, postimage)
  | S n' =>
      delta ← git_diff_get_delta diff i;
      let '(error, postimage) :=
        git_index_remove postimage (path (old_file delta)) in
      if decide (error < 0) then Some (error, postimage)
      else git_apply_tree_remove postimage diff n' (i + 1) error
  end.

(** The loop over [apply_one], shared by [git_apply_tree] and
    [git_apply], [n] turns from index [i] on. *)
Fixpoint apply_pass (preimage_reader : string -> Z * git_buf)
    (postimage : gmap string (Z * list byte)) (diff : list git_diff_delta)
    (n : nat) (i : Z) (error : Z) (err : giterr)
  : option (Z * gmap string (Z * list byte) * giterr) :=
  match n with
  | O => Some (error, postimage, err)
  | S n' =>
      '(error, postimage, err) ← apply_one preimage_reader postimage diff i err;
      if decide (error < 0) then Some (error, postimage, err)
      else apply_pass preimage_reader postimage diff n' (i + 1) error err
  end.

(** [git_apply_tree]: the error code, [*out] and the error slot;
    [pre_reader] reads from the tree [preimage]. *)
Definition git_apply_tree (pre_reader : string -> Z * git_buf)
    (preimage : gmap string (Z * list byte)) (diff : list git_diff_delta)
    (err : giterr)
  : option (Z * option (gmap string (Z * list byte)) * giterr) :=
  let '(error, postimage) := git_index_read_tree git_index_new preimage in
  if decide (error < 0) then Some (error, None, err)
  else
    '(error, postimage) ←
      git_apply_tree_remove postimage diff (length diff) 0 error;
    if decide (error < 0) then Some (error, None, err)
    else
      '(error, postimage, err) ←
        apply_pass pre_reader postimage diff (length diff) 0 error err;
      if decide (error < 0) then Some (error, None, err)
      else Some (error, Some postimage, err).

(** [git_apply] up to the point where the postimage is handed to
    [git_apply__to_index] or [git_apply__to_workdir]: "build the
    postimage differences".  [pre_reader] is the reader that
    [opts.location] selects. *)
Definition git_apply_postimage (pre_reader : string -> Z * git_buf)
    (diff : list git_diff_delta) (err : giterr)
  : option (Z * gmap string (Z * list byte) * giterr) :=
  let postimage := git_index_new in
  apply_pass pre_reader postimage diff (length diff) 0 0 err.

(** ** Vocabulary of the specification *)

(** The bytes of a line: [content_len] bytes at [content]. *)
Definition line_bytes (line : git_diff_line) : list byte :=
  take (Z.to_nat (content_len line)) (content line).

(** Two line pointers refer to lines that are equal "in both byte length
    and byte content". *)
Definition lines_equal (p q : line_ptr) : Prop :=
  exists l1 l2, p = Some l1 /\ q = Some l2 /\
    content_len l1 = content_len l2 /\ line_bytes l1 = line_bytes l2.

(** The anchor of a hunk as the specification computes it:
    [new_start == 0 ? 0 : new_start - 1], clamped to the length of the
    image. *)
Definition hunk_anchor (image : patch_image) (hunk : git_patch_hunk) : Z :=
  Z.min (if decide (new_start hunk = 0) then 0 else new_start hunk - 1)
        (vlen image).

(** The bytes of the buffer of [source_len] bytes at [source]. *)
Definition buffer_bytes (source : list byte) (source_len : Z) : list byte :=
  take (Z.to_nat source_len) source.

(** The annotated lines of a hunk: [line_count] lines of the line table of
    the patch, from [line_start] on. *)
Definition hunk_lines (patch : git_patch) (hunk : git_patch_hunk)
  : list git_diff_line :=
  take (Z.to_nat (line_count hunk))
       (drop (Z.to_nat (line_start hunk)) (patch_lines patch)).

(** A hunk that "contains only addition lines": its lines are in the line
    table and each of them is an addition. *)
Definition only_additions (patch : git_patch) (hunk : git_patch_hunk) : Prop :=
  0 <= line_start hunk /\ 0 <= line_count hunk /\
  line_start hunk + line_count hunk <= vlen (patch_lines patch) /\
  Forall (fun line => origin line = Some GIT_DIFF_LINE_ADDITION)
         (hunk_lines patch hunk).

(** The lines of all hunks of a patch, in order. *)
Definition all_hunk_lines (patch : git_patch) : list git_diff_line :=
  concat (hunk_lines patch <$> hunks patch).

(** "The concatenation of the lines' contents in order". *)
Definition concat_lines (lines : list git_diff_line) : list byte :=
  concat (line_bytes <$> lines).

(** The hunks [todo] follow one another: each has a line number for
    [new_start], and [new_start - 1] (0 for [new_start = 0]) is not
    smaller than the number of lines that come before it, [before] lines
    and those of the hunks in front of it. *)
Fixpoint hunks_in_sequence (patch : git_patch) (before : Z)
    (todo : list git_patch_hunk) : Prop :=
  match todo with
  | [] => True
  | hunk :: todo' =>
      0 <= new_start hunk < 2 ^ 31 /\
      before <= (if decide (new_start hunk = 0) then 0 else new_start hunk - 1) /\
      hunks_in_sequence patch (before + vlen (hunk_lines patch hunk)) todo'
  end.

(** The pre-pass in the words of the specification: "for each delta in
    declared order, remove [old_file.path] from the postimage index". *)
Definition remove_old_paths (postimage : gmap string (Z * list byte))
    (diff : list git_diff_delta) : gmap string (Z * list byte) :=
  foldl (fun index delta => delete (path (old_file delta)) index)
        postimage diff.

(** A line image laid out over the bytes at [in_], from offset [from] on:
    every pointer is to a line that starts where the one before it ends
    and is at least one byte long, its [content] is [in_ + from] and its
    [content_offset] is [from]; a newline is never in front of the last
    byte of a line, and it is the last byte of every line that has a
    successor. *)
Fixpoint lines_laid_out (in_ : list byte) (from : Z) (lines : git_vector)
  : Prop :=
  match lines with
  | [] => True
  | p :: lines' =>
      exists line,
        p = Some line /\
        content line = drop (Z.to_nat from) in_ /\
        content_offset line = from /\
        0 < content_len line /\
        (NL ∉ take (Z.to_nat (content_len line - 1)) (content line)) /\
        (lines' ≠ [] ->
         (content line !! Z.to_nat (content_len line - 1)) = Some NL) /\
        lines_laid_out in_ (from + content_len line) lines'
  end.

(** The offset at which a line image that starts at [from] ends. *)
Fixpoint lines_end (from : Z) (lines : git_vector) : Z :=
  match lines with
  | [] => from
  | Some line :: lines' => lines_end (from + content_len line) lines'
  | None :: lines' => lines_end from lines'
  end.

(** The lines of a hunk are in the line table of the patch. *)
Definition hunk_in_table (patch : git_patch) (hunk : git_patch_hunk) : Prop :=
  0 <= line_start hunk /\ 0 <= line_count hunk /\
  line_start hunk + line_count hunk <= vlen (patch_lines patch).

(** A patch with other hunks and another line table. *)
Definition with_hunks (patch : git_patch) (hs : list git_patch_hunk)
    (ls : list git_diff_line) : git_patch :=
  {| delta := delta patch; binary := binary patch;
     hunks := hs; patch_lines := ls |}.

(** ** Committing a batch *)

(** Modelled from the spec: the three [opts.location]s, "workdir",
    "index" and "both" ([git_apply_location_t] and [git_apply_options] of
    [git2/apply.h], which is not among the sources). *)
Inductive git_apply_location_t : Type :=
| GIT_APPLY_LOCATION_WORKDIR
| GIT_APPLY_LOCATION_INDEX
| GIT_APPLY_LOCATION_BOTH.

#[global] Instance git_apply_location_t_eq_dec : EqDecision git_apply_location_t.
Proof. solve_decision. Defined.

Record git_apply_options : Type := {
  version : Z;
  location : git_apply_location_t
}.

(** Modelled from the spec: a repository, as far as [apply.c] reaches into
    it: its index and its working directory, a mapping from paths to file
    contents. *)
Record git_repository : Type := {
  repo_index : gmap string (Z * list byte);
  repo_workdir : gmap string (list byte)
}.

(** Of [git_checkout_options], the two fields that [apply.c] sets. *)
Record git_checkout_options : Type := {
  checkout_strategy : Z;
  checkout_paths : list string
}.

(** [GIT_CHECKOUT_OPTIONS_INIT] and the strategy flags of
    [git2/checkout.h]; [GIT_APPLY_OPTIONS_INIT] of [git2/apply.h]. *)
Variable GIT_CHECKOUT_OPTIONS_INIT : git_checkout_options.
Variable GIT_CHECKOUT_SAFE : Z.
Variable GIT_CHECKOUT_DISABLE_PATHSPEC_MATCH : Z.
Variable GIT_CHECKOUT_DONT_UPDATE_INDEX : Z.
Variable GIT_APPLY_OPTIONS_INIT : git_apply_options.

(** [git_checkout_index(repo, index, &opts)]: the error code and the
    repository it leaves. *)
Variable git_checkout_index :
  git_repository -> gmap string (Z * list byte) -> git_checkout_options ->
  Z * git_repository.

(** [git_index_write(index)]: the error code. *)
Variable git_index_write : gmap string (Z * list byte) -> Z.

(** [git_reader_for_workdir(&reader, repo)] and
    [git_reader_for_index(&reader, repo, NULL)]: the error code and
    [git_reader_read] on the reader made. *)
Variable git_reader_for_workdir :
  git_repository -> Z * (string -> Z * git_buf).
Variable git_reader_for_index :
  git_repository -> Z * (string -> Z * git_buf).

(** What [GITERR_CHECK_VERSION(given_opts, GIT_APPLY_OPTIONS_VERSION, ...)]
    tests: the value of [giterr__check_version]. *)
Variable giterr__check_version : option git_apply_options -> Z.

(** Modelled from the spec: [git_repository_index(&index, repo)], the
    index of the repository. *)
Definition git_repository_index (repo : git_repository)
  : Z * gmap string (Z * list byte) :=
  (0, repo_index repo).

(** Modelled from the spec: [entry_count] and [get_by_index] of the index
    collaborator ([git_index_entrycount] and [git_index_get_byindex] of
    [index.c]); the entries are numbered in the order of their paths. *)
Definition git_index_entrycount (index : gmap string (Z * list byte)) : Z :=
  vlen (map_to_list index).

Definition git_index_get_byindex (index : gmap string (Z * list byte))
    (i : Z) : option (string * (Z * list byte)) :=
  if decide (i < git_index_entrycount index)
  then map_to_list index !! Z.to_nat i else None.

(** The first loop of [git_apply__to_workdir], [n] turns from index [i]
    on: the paths that the checkout is limited to. *)
Fixpoint git_apply__to_workdir_paths (diff : list git_diff_delta)
    (n : nat) (i : Z) (paths : list string) : option (list string) :=
  match n with
  | O => Some paths
  | S n' =>
      delta ← git_diff_get_delta diff i;
      let paths := paths ++ [path (old_file delta)] in
      let paths :=
        if decide (path (old_file delta) ≠ path (new_file delta))
        then paths ++ [path (new_file delta)] else paths in
      git_apply__to_workdir_paths diff n' (i + 1) paths
  end.

(** [git_apply__to_workdir]: the error code and the repository. *)
Definition git_apply__to_workdir (repo : git_repository)
    (diff : list git_diff_delta) (postimage : gmap string (Z * list byte))
    (opts : git_apply_options) : option (Z * git_repository) :=
  paths ← git_apply__to_workdir_paths diff (length diff) 0 [];
  let strategy := checkout_strategy GIT_CHECKOUT_OPTIONS_INIT in
  let strategy := Z.lor strategy GIT_CHECKOUT_SAFE in
  let strategy := Z.lor strategy GIT_CHECKOUT_DISABLE_PATHSPEC_MATCH in
  let strategy :=
    if decide (location opts = GIT_APPLY_LOCATION_WORKDIR)
    then Z.lor strategy GIT_CHECKOUT_DONT_UPDATE_INDEX else strategy in
  Some (git_checkout_index repo postimage
          {| checkout_strategy := strategy; checkout_paths := paths |}).

(** The first loop of [git_apply__to_index], [n] turns from index [i]
    on: "collect the paths to remove from the index". *)
Fixpoint git_apply__to_index_remove (index : gmap string (Z * list byte))
    (diff : list git_diff_delta) (n : nat) (i : Z) (error : Z)
  : option (Z * gmap string (Z * list byte)) :=
  match n with
  | O => Some (error, index)
  | S n' =>
      delta ← git_diff_get_delta diff i;
      if decide (status delta = GIT_DELTA_DELETED
                 \/ status delta = GIT_DELTA_RENAMED) then
        let '(error, index) :=
          git_index_remove index (path (old_file delta)) in
        if decide (error < 0) then Some (error, index)
        else git_apply__to_index_remove index diff n' (i + 1) error
      else git_apply__to_index_remove index diff n' (i + 1) error
  end.

(** The second loop of [git_apply__to_index], [n] turns from index [i]
    on: "then add the changes back to the index". *)
Fixpoint git_apply__to_index_add (index postimage : gmap string (Z * list byte))
    (n : nat) (i : Z) (error : Z)
  : option (Z * gmap string (Z * list byte)) :=
  match n with
  | O => Some (error, index)
  | S n' =>
      entry ← git_index_get_byindex postimage i;
      let '(error, index) :=
        git_index_add index entry.1 entry.2.1 entry.2.2 in
      if decide (error < 0) then Some (error, index)
      else git_apply__to_index_add index postimage n' (i + 1) error
  end.

(** [git_apply__to_index]: the error code and the repository, whose index
    is the object that the two loops work on. *)
Definition git_apply__to_index (repo : git_repository)
    (diff : list git_diff_delta) (postimage : gmap string (Z * list byte))
    (opts : git_apply_options) : option (Z * git_repository) :=
  let with_index index :=
    {| repo_index := index; repo_workdir := repo_workdir repo |} in
  let '(error, index) := git_repository_index repo in
  if decide (error < 0) then Some (error, repo)
  else
    '(error, index) ←
      git_apply__to_index_remove index diff (length diff) 0 error;
    if decide (error < 0) then Some (error, with_index index)
    else
      '(error, index) ←
        git_apply__to_index_add index postimage
          (Z.to_nat (git_index_entrycount postimage)) 0 error;
      if decide (error < 0) then Some (error, with_index index)
      else Some (git_index_write index, with_index index).

(** [git_apply]: the error code, the repository and the error slot. *)
Definition git_apply (repo : git_repository) (diff : list git_diff_delta)
    (given_opts : option git_apply_options) (err : giterr)
  : option (Z * git_repository * giterr) :=
  if decide (giterr__check_version given_opts < 0) then Some (-1, repo, err)
  else
    let opts :=
      match given_opts with
      | Some given => given
      | None => GIT_APPLY_OPTIONS_INIT
      end in
    let '(error, pre_reader) :=
      if decide (location opts = GIT_APPLY_LOCATION_WORKDIR)
      then git_reader_for_workdir repo
      else git_reader_for_index repo in
    if decide (error < 0) then Some (error, repo, err)
    else
      '(error, postimage, err) ← git_apply_postimage pre_reader diff err;
      if decide (error < 0) then Some (error, repo, err)
      else
        '(error, repo) ←
          (if decide (location opts = GIT_APPLY_LOCATION_INDEX)
           then git_apply__to_index repo diff postimage opts
           else git_apply__to_workdir repo diff postimage opts);
        Some (error, repo, err).

(** ** Sample data *)

(** The values the constants have in libgit2, and stand-ins for the two
    collaborators of the binary path: an inflation that finds the payload
    stored as it is, and a delta that replaces the base by its own
    bytes. *)
Definition sample_EAPPLYFAIL : Z := -35.
Definition sample_FILEMODE_BLOB : Z := 33188.
Definition sample_FLAG_BINARY : Z := 1.
Definition sample_inflate (payload : list byte) : Z * git_buf := (0, payload).
Definition sample_delta (base delta_bytes : list byte) : Z * git_buf :=
  (0, delta_bytes).

(** A line of a patch. *)
Definition sample_line (o : git_diff_line_t) (bytes : list byte)
  : git_diff_line :=
  {| origin := Some o; content := bytes; content_len := vlen bytes;
     content_offset := 0 |}.

Definition sample_file (p : string) : git_diff_file :=
  {| path := p; mode := 0 |}.

Definition sample_delta_record (s : git_delta_t) (fl : Z) : git_diff_delta :=
  {| status := s; flags := fl;
     old_file := sample_file "old.txt"; new_file := sample_file "new.txt" |}.

Definition no_payload : git_diff_binary_file :=
  {| type := GIT_DIFF_BINARY_NONE; data := []; datalen := 0; inflatedlen := 0 |}.

Definition no_binary : git_diff_binary :=
  {| contains_data := false;
     binary_old_file := no_payload; binary_new_file := no_payload |}.

Definition literal_payload (bytes : list byte) (declared : Z)
  : git_diff_binary_file :=
  {| type := GIT_DIFF_BINARY_LITERAL; data := bytes; datalen := vlen bytes;
     inflatedlen := declared |}.

Definition text_patch (s : git_delta_t) (hs : list git_patch_hunk)
    (ls : list git_diff_line) : git_patch :=
  {| delta := sample_delta_record s 0; binary := no_binary;
     hunks := hs; patch_lines := ls |}.

Definition binary_patch (old new : git_diff_binary_file) : git_patch :=
  {| delta := sample_delta_record GIT_DELTA_MODIFIED 1;
     binary := {| contains_data := true;
                  binary_old_file := old; binary_new_file := new |};
     hunks := []; patch_lines := [] |}.

Definition bytes_A : list byte := ["A"; NL]%byte.
Definition bytes_B : list byte := ["B"; NL]%byte.
Definition bytes_B2 : list byte := ["B"; "2"; NL]%byte.
Definition bytes_C : list byte := ["C"; NL]%byte.
Definition bytes_X : list byte := ["X"; NL]%byte.

(** The image of ["A\nX\nC\n"]. *)
Definition image_AXC : patch_image :=
  [Some (sample_line GIT_DIFF_LINE_CONTEXT bytes_A);
   Some (sample_line GIT_DIFF_LINE_CONTEXT bytes_X);
   Some (sample_line GIT_DIFF_LINE_CONTEXT bytes_C)].

(** One hunk at line 1 that turns ["A\nB\nC\n"] into ["A\nB2\nC\n"]. *)
Definition hunk_B_B2 : git_patch_hunk :=
  {| new_start := 1; line_start := 0; line_count := 4 |}.

Definition patch_B_B2 : git_patch :=
  text_patch GIT_DELTA_MODIFIED [hunk_B_B2]
    [sample_line GIT_DIFF_LINE_CONTEXT bytes_A;
     sample_line GIT_DIFF_LINE_DELETION bytes_B;
     sample_line GIT_DIFF_LINE_ADDITION bytes_B2;
     sample_line GIT_DIFF_LINE_CONTEXT bytes_C].

(** Five bytes of memory, of which a caller passes the first three,
    ["A\nB"], and a patch whose hunk has the first line for context. *)
Definition overread_source : list byte := ["A"; NL; "B"; "X"; NL]%byte.

Definition overread_patch : git_patch :=
  text_patch GIT_DELTA_MODIFIED
    [{| new_start := 1; line_start := 0; line_count := 1 |}]
    [sample_line GIT_DIFF_LINE_CONTEXT bytes_A].

(** A deletion of the file ["A\n"]. *)
Definition deletion_patch : git_patch :=
  text_patch GIT_DELTA_DELETED
    [{| new_start := 0; line_start := 0; line_count := 1 |}]
    [sample_line GIT_DIFF_LINE_DELETION bytes_A].

Definition deletion_result : apply_result :=
  {| return_code := 0; contents_out := GIT_BUF_INIT; filename_out := None;
     mode_out := 0; error_message := None |}.

(** What [git_apply__patch] leaves behind when [deletion_patch], which
    removes the line ["A\n"], meets the file ["A\nB\n"]. *)
Definition partial_deletion_result : apply_result :=
  {| return_code := sample_EAPPLYFAIL; contents_out := bytes_B;
     filename_out := None; mode_out := 0;
     error_message := Some ERR_REMOVAL_LEAVES_CONTENTS |}.

(** A rename without a change of contents. *)
Definition rename_patch : git_patch := text_patch GIT_DELTA_RENAMED [] [].

(** A new file of two lines, in one hunk, and in two hunks that both name
    line 1. *)
Definition addition_patch : git_patch :=
  text_patch GIT_DELTA_ADDED
    [{| new_start := 1; line_start := 0; line_count := 2 |}]
    [sample_line GIT_DIFF_LINE_ADDITION bytes_A;
     sample_line GIT_DIFF_LINE_ADDITION bytes_B].

Definition addition_patch_same_anchor : git_patch :=
  text_patch GIT_DELTA_ADDED
    [{| new_start := 1; line_start := 0; line_count := 1 |};
     {| new_start := 1; line_start := 1; line_count := 1 |}]
    [sample_line GIT_DIFF_LINE_ADDITION bytes_A;
     sample_line GIT_DIFF_LINE_ADDITION bytes_B].

(** A binary patch whose [old_file] payload does not give back the source
    [00 01]. *)
Definition unclean_binary_patch : git_patch :=
  binary_patch (literal_payload [x00; x02] 2) (literal_payload [x02; x03; x04] 3).

Definition clean_binary_patch : git_patch :=
  binary_patch (literal_payload [x00; x01] 2) (literal_payload [x02; x03; x04] 3).

(** What [git_apply__patch] leaves behind when the hunk of [patch_B_B2]
    meets ["A\nX\nC\n"]. *)
Definition mismatch_result : apply_result :=
  {| return_code := sample_EAPPLYFAIL; contents_out := GIT_BUF_INIT;
     filename_out := None; mode_out := 0;
     error_message := Some (ERR_HUNK_DID_NOT_APPLY 1) |}.

(** The image of ["A\nB\nC\n"], and the two images of the hunk of
    [patch_B_B2]. *)
Definition image_ABC : patch_image :=
  [Some (sample_line GIT_DIFF_LINE_CONTEXT bytes_A);
   Some (sample_line GIT_DIFF_LINE_CONTEXT bytes_B);
   Some (sample_line GIT_DIFF_LINE_CONTEXT bytes_C)].

Definition preimage_B_B2 : patch_image :=
  [Some (sample_line GIT_DIFF_LINE_CONTEXT bytes_A);
   Some (sample_line GIT_DIFF_LINE_DELETION bytes_B);
   Some (sample_line GIT_DIFF_LINE_CONTEXT bytes_C)].

Definition postimage_B_B2 : patch_image :=
  [Some (sample_line GIT_DIFF_LINE_CONTEXT bytes_A);
   Some (sample_line GIT_DIFF_LINE_ADDITION bytes_B2);
   Some (sample_line GIT_DIFF_LINE_CONTEXT bytes_C)].

(** A hunk that claims one line more than [patch_B_B2] has. *)
Definition overrun_hunk : git_patch_hunk :=
  {| new_start := 1; line_start := 0; line_count := 5 |}.

(** The hunk of [overread_patch], of one context line; the image that is
    built of the six bytes ["A\nX\nC\n"], whose lines point into these
    bytes, and the image that the hunk leaves of it, whose first line
    points into the patch. *)
Definition context_hunk : git_patch_hunk :=
  {| new_start := 1; line_start := 0; line_count := 1 |}.

Definition image_of_AXC : patch_image :=
  default []
    (snd <$> patch_image_init_fromstr (bytes_A ++ bytes_X ++ bytes_C) 6).

Definition image_of_AXC_context : patch_image :=
  Some (sample_line GIT_DIFF_LINE_CONTEXT bytes_A) :: drop 1 image_of_AXC.

(** The hunk of [addition_patch]. *)
Definition addition_hunk : git_patch_hunk :=
  {| new_start := 1; line_start := 0; line_count := 2 |}.

(** Stand-ins for the collaborators of the batch orchestrator: the patch
    of a delta is a patch without hunks, the identifier of a blob is its
    contents, a reader finds the file ["old.txt"] and no other. *)
Definition sample_ENOTFOUND : Z := -3.

Definition sample_patch_from_diff (diff : list git_diff_delta) (i : Z)
  : Z * git_patch :=
  (0, {| delta := default (sample_delta_record GIT_DELTA_UNMODIFIED 0)
                          (diff !! Z.to_nat i);
         binary := no_binary; hunks := []; patch_lines := [] |}).

Definition sample_blob_create (contents : git_buf) : Z * list byte :=
  (0, contents).

Definition sample_reader (p : string) : Z * git_buf :=
  if decide (p = "old.txt") then (0, bytes_A) else (sample_ENOTFOUND, []).

Definition missing_reader (p : string) : Z * git_buf :=
  (sample_ENOTFOUND, []).

(** A diff of one delta, the rename of ["old.txt"] to ["new.txt"]; a tree
    and a repository with the file and one more. *)
Definition rename_diff : list git_diff_delta :=
  [sample_delta_record GIT_DELTA_RENAMED 0].

Definition sample_tree : gmap string (Z * list byte) :=
  <["old.txt" := (33188, bytes_A)]> (<["keep.txt" := (33188, bytes_C)]> ∅).

Definition renamed_tree : gmap string (Z * list byte) :=
  <["new.txt" := (33188, bytes_A)]> (<["keep.txt" := (33188, bytes_C)]> ∅).

Definition sample_repository : git_repository :=
  {| repo_index := sample_tree;
     repo_workdir :=
       <["old.txt" := bytes_A]> (<["keep.txt" := bytes_C]> ∅) |}.

Definition renamed_repository : git_repository :=
  {| repo_index := renamed_tree;
     repo_workdir :=
       <["old.txt" := bytes_A]> (<["keep.txt" := bytes_C]> ∅) |}.

(** Stand-ins for the collaborators of [git_apply]: a checkout that
    brings the files at the given paths to what the index has for them,
    an index that is written without error, readers on the working
    directory and on the index, and options of any version. *)
Definition sample_CHECKOUT_SAFE : Z := 1.
Definition sample_CHECKOUT_DONT_UPDATE_INDEX : Z := 256.
Definition sample_CHECKOUT_DISABLE_PATHSPEC_MATCH : Z := 8192.

Definition sample_checkout_options : git_checkout_options :=
  {| checkout_strategy := sample_CHECKOUT_SAFE; checkout_paths := [] |}.

Definition sample_apply_options : git_apply_options :=
  {| version := 1; location := GIT_APPLY_LOCATION_WORKDIR |}.

Definition index_apply_options : git_apply_options :=
  {| version := 1; location := GIT_APPLY_LOCATION_INDEX |}.

Definition sample_checkout_index (repo : git_repository)
    (index : gmap string (Z * list byte)) (opts : git_checkout_options)
  : Z * git_repository :=
  (0, {| repo_index := repo_index repo;
         repo_workdir :=
           foldr (fun p workdir =>
                    match index !! p with
                    | Some entry => <[p := entry.2]> workdir
                    | None => delete p workdir
                    end)
                 (repo_workdir repo) (checkout_paths opts) |}).

Definition sample_index_write (index : gmap string (Z * list byte)) : Z := 0.

Definition sample_reader_for_workdir (repo : git_repository)
  : Z * (string -> Z * git_buf) :=
  (0, fun p => match repo_workdir repo !! p with
               | Some contents => (0, contents)
               | None => (sample_ENOTFOUND, [])
               end).

Definition sample_reader_for_index (repo : git_repository)
  : Z * (string -> Z * git_buf) :=
  (0, fun p => match repo_index repo !! p with
               | Some entry => (0, entry.2)
               | None => (sample_ENOTFOUND, [])
               end).

Definition sample_check_version (given_opts : option git_apply_options) : Z :=
  0.

(** A binary patch that carries data, with two empty payloads. *)
Definition empty_binary_patch : git_patch := binary_patch no_payload no_payload.

(** * Properties *)

(** [GIT_EAPPLYFAIL] is an error code: negative. *)
Hypothesis GIT_EAPPLYFAIL_neg : GIT_EAPPLYFAIL < 0.

(** ** Sizes and buffers *)

Lemma vlen_nonneg {A : Type} (l : list A) : 0 <= vlen l.
Proof. unfold vlen. lia. Qed.

Lemma vlen_app {A : Type} (l1 l2 : list A) : vlen (l1 ++ l2) = vlen l1 + vlen l2.
Proof. unfold vlen. rewrite length_app. lia. Qed.

Lemma vlen_nil {A : Type} : vlen (@nil A) = 0.
Proof. reflexivity. Qed.

Lemma size_wrap_small z : 0 <= z < 2 ^ SIZE_BITS -> size_wrap z = z.
Proof. intros H. unfold size_wrap. by rewrite Z.mod_small. Qed.

Lemma size_add_small a b : 0 <= a + b < 2 ^ SIZE_BITS -> size_add a b = a + b.
Proof. apply size_wrap_small. Qed.

Lemma uint_wrap_small z : 0 <= z < 2 ^ 32 -> uint_wrap z = z.
Proof. intros H. unfold uint_wrap. by rewrite Z.mod_small. Qed.

Lemma memchr_Some s c n off :
  memchr s c n = Some (Some off) ->
  0 <= off /\ (Z.to_nat off < n)%nat /\ s !! Z.to_nat off = Some c.
Proof.
  revert s off. induction n as [|n IH]; intros [|b s] off; simpl; try done.
  destruct (Byte.eqb b c) eqn:E.
  - intros [= <-]. apply Byte.byte_dec_bl in E as ->.
    split; [lia|]. split; [lia|done].
  - destruct (memchr s c n) as [[o|]|] eqn:M; simpl; try done.
    intros [= <-]. destruct (IH _ _ M) as (H0 & H1 & H2).
    split; [lia|].
    replace (Z.to_nat (o + 1)) with (S (Z.to_nat o)) by lia.
    split; [lia|done].
Qed.

Lemma memchr_None s c n :
  memchr s c n = Some None -> (c ∉ take n s) /\ (n <= length s)%nat.
Proof.
  revert s. induction n as [|n IH]; intros [|b s]; simpl; try done;
    try (intros _; split; [apply not_elem_of_nil|lia]).
  destruct (Byte.eqb b c) eqn:E; [done|].
  destruct (memchr s c n) as [[o|]|] eqn:M; simpl; try done. intros _.
  destruct (IH _ M) as [Hnot Hlen]. split; [|lia].
  apply not_elem_of_cons. split; [|done].
  intros ->. by rewrite Byte.byte_dec_lb in E.
Qed.

(** The search reads behind the readable bytes exactly when none of them
    is [c] and there are fewer than [n] of them. *)
Lemma memchr_fault s c n :
  memchr s c n = None <-> (c ∉ s) /\ (length s < n)%nat.
Proof.
  revert s. induction n as [|n IH]; intros [|b s]; simpl.
  - split; [done|lia].
  - split; [done|lia].
  - split; [intros _; split; [apply not_elem_of_nil|lia]|done].
  - destruct (Byte.eqb b c) eqn:E.
    + apply Byte.byte_dec_bl in E as ->. split; [done|].
      intros [Hnot _]. exfalso. apply Hnot. by left.
    + destruct (memchr s c n) as [found|] eqn:M; simpl.
      * split; [by destruct found|]. intros [Hnot Hlen].
        apply not_elem_of_cons in Hnot as [_ Hnot].
        assert (Hnone : memchr s c n = None) by (apply IH; split; [done|lia]).
        congruence.
      * split; [|done]. intros _.
        destruct (proj1 (IH s) M) as [Hnot Hlen].
        split; [|lia]. apply not_elem_of_cons. split; [|done].
        intros ->. by rewrite Byte.byte_dec_lb in E.
Qed.

Lemma memchr_not_found s c n :
  c ∉ take n s -> (n <= length s)%nat -> memchr s c n = Some None.
Proof.
  intros Hnot Hlen. destruct (memchr s c n) as [[off|]|] eqn:M; [|done|].
  - apply memchr_Some in M as (H0 & H1 & H2). exfalso. apply Hnot.
    apply elem_of_take. exists (Z.to_nat off). split; [done|lia].
  - apply memchr_fault in M as [_ M]. lia.
Qed.

Lemma image_put_app out l1 l2 :
  image_put out (l1 ++ l2) = out' ← image_put out l1; image_put out' l2.
Proof.
  revert out. induction l1 as [|[line|] l1 IH]; intros out; simpl; try done.
Qed.

(** ** Line image *)

Lemma take_drop_split {A : Type} (l : list A) (s a b : Z) :
  0 <= s -> 0 <= a -> 0 <= b ->
  take (Z.to_nat a) (drop (Z.to_nat s) l)
    ++ take (Z.to_nat b) (drop (Z.to_nat (s + a)) l)
  = take (Z.to_nat (a + b)) (drop (Z.to_nat s) l).
Proof.
  intros Hs Ha Hb.
  rewrite !Z2Nat.inj_add by lia.
  rewrite <- take_take_drop, drop_drop. done.
Qed.

(** When no newline is readable behind the buffer, the lines that the
    loop appends spell out the rest of the buffer. *)
Lemma patch_image_init_loop_put fuel in_ in_len start lines image out :
  0 <= start <= in_len ->
  in_len - start <= Z.of_nat fuel ->
  NL ∉ drop (Z.to_nat in_len) in_ ->
  patch_image_init_loop fuel in_ in_len start lines = Some image ->
  image_put out image
  = out' ← image_put out lines;
    Some (out' ++ take (Z.to_nat (in_len - start)) (drop (Z.to_nat start) in_)).
Proof.
  intros Hstart Hfuel Hnl.
  assert (Hdone : forall lines', start = in_len ->
    image_put out lines'
    = out' ← image_put out lines';
      Some (out' ++ take (Z.to_nat (in_len - start)) (drop (Z.to_nat start) in_))).
  { intros lines' ->. rewrite Z.sub_diag. simpl.
    destruct (image_put out lines'); simpl; [|done]. by rewrite app_nil_r. }
  revert start lines Hstart Hfuel Hdone.
  induction fuel as [|fuel IH]; intros start lines Hstart Hfuel Hdone; simpl.
  { intros [= <-]. apply Hdone. lia. }
  case_decide as Hlt; [|intros [= <-]; apply Hdone; lia].
  clear Hdone.
  destruct (memchr _ _ _) as [found|] eqn:M; simpl; [|done].
  set (end_ := match found with Some _ => _ | None => _ end).
  assert (Hend : start < end_ <= in_len).
  { subst end_. destruct found as [off|]; [|lia].
    apply memchr_Some in M as (H0 & H1 & H2).
    rewrite lookup_drop in H2.
    case_decide as He; [lia|]. exfalso. apply Hnl.
    apply list_elem_of_lookup.
    exists (Z.to_nat (start + off) - Z.to_nat in_len)%nat.
    rewrite lookup_drop. rewrite <- H2. f_equal. lia. }
  intros Hloop.
  rewrite (IH end_
             (git_vector_insert lines
                (Some (patch_line_init (drop (Z.to_nat start) in_)
                         (end_ - start) start))));
    [|lia|lia| |done].
  - unfold git_vector_insert. rewrite image_put_app. simpl.
    destruct (image_put out lines) as [o|]; simpl; [|done].
    unfold git_buf_put. rewrite <- app_assoc. do 2 f_equal.
    replace (Z.to_nat end_) with (Z.to_nat (start + (end_ - start))) by (f_equal; lia).
    rewrite take_drop_split by lia. f_equal. f_equal. lia.
  - intros lines' ->. rewrite Z.sub_diag. simpl.
    destruct (image_put out lines'); simpl; [|done]. by rewrite app_nil_r.
Qed.

(** [serialize(build(B)) = B] for a buffer behind which no newline can be
    read, whenever the image is built. *)
Lemma patch_image_roundtrip_no_newline_behind in_ in_len out e image :
  0 <= in_len ->
  NL ∉ drop (Z.to_nat in_len) in_ ->
  patch_image_init_fromstr in_ in_len = Some (e, image) ->
  image_put out image = Some (out ++ take (Z.to_nat in_len) in_).
Proof.
  intros Hlen Hnl. unfold patch_image_init_fromstr.
  destruct (patch_image_init_loop _ _ _ _ _) as [lines|] eqn:Hloop; simpl;
    [|done].
  intros [= _ <-].
  rewrite (patch_image_init_loop_put (Z.to_nat in_len) in_ in_len 0 []
             lines out) by (done || lia).
  simpl. by rewrite Z.sub_0_r.
Qed.

Lemma patch_image_init_loop_fuel fuel fuel' in_ in_len start lines :
  0 <= start ->
  in_len - start <= Z.of_nat fuel ->
  in_len - start <= Z.of_nat fuel' ->
  patch_image_init_loop fuel in_ in_len start lines
  = patch_image_init_loop fuel' in_ in_len start lines.
Proof.
  revert fuel' start lines.
  induction fuel as [|fuel IH]; intros [|fuel'] start lines H0 H1 H2; simpl;
    try done; try (case_decide; [lia|done]).
  case_decide as Hlt; [|done].
  destruct (memchr _ _ _) as [[off|]|] eqn:M; simpl; [| |done].
  - apply memchr_Some in M as (Hoff & _ & _).
    case_decide; apply IH; lia.
  - apply IH; lia.
Qed.

(** ** Hunk matcher *)

Lemma match_hunk_loop_true image preimage linenum n i :
  match_hunk_loop image preimage linenum n i = Some true <->
  forall k : nat, (k < n)%nat ->
    lines_equal (git_vector_get image (size_add linenum (i + Z.of_nat k)))
                (git_vector_get preimage (i + Z.of_nat k)).
Proof.
  revert i. induction n as [|n IH]; intros i; simpl.
  { split; [intros _ k Hk; lia|done]. }
  destruct (git_vector_get preimage i) as [pl|] eqn:Hp; simpl;
    [destruct (git_vector_get image (size_add linenum i)) as [il|] eqn:Hi; simpl|].
  - destruct (negb _ || negb _) eqn:Hc.
    + split; [done|]. intros H. specialize (H 0%nat ltac:(lia)).
      rewrite Z.add_0_r, Hp, Hi in H.
      destruct H as (l1 & l2 & [= <-] & [= <-] & Hlen & Hbytes). exfalso.
      apply orb_true_iff in Hc as [Hc|Hc]; apply negb_true_iff in Hc.
      * apply Z.eqb_neq in Hc. congruence.
      * unfold memcmp_eq in Hc. apply bool_decide_eq_false in Hc.
        apply Hc. unfold line_bytes in Hbytes. by rewrite <- Hlen in Hbytes.
    + apply orb_false_iff in Hc as [Hc1 Hc2].
      apply negb_false_iff in Hc1, Hc2. apply Z.eqb_eq in Hc1.
      unfold memcmp_eq in Hc2. apply bool_decide_eq_true in Hc2.
      rewrite IH. split; intros H k Hk.
      * destruct k as [|k].
        -- rewrite Z.add_0_r, Hp, Hi. exists il, pl.
           repeat split; [done|]. unfold line_bytes. by rewrite Hc1.
        -- specialize (H k ltac:(lia)).
           by replace (i + Z.of_nat (S k)) with (i + 1 + Z.of_nat k) by lia.
      * specialize (H (S k) ltac:(lia)).
        by replace (i + Z.of_nat (S k)) with (i + 1 + Z.of_nat k) in H by lia.
  - split; [done|]. intros H. specialize (H 0%nat ltac:(lia)).
    rewrite Z.add_0_r, Hi in H. by destruct H as (l1 & l2 & [=] & _).
  - split; [done|]. intros H. specialize (H 0%nat ltac:(lia)).
    rewrite Z.add_0_r, Hp in H. by destruct H as (l1 & l2 & _ & [=] & _).
Qed.

Lemma git_vector_get_Some (v : git_vector) i line :
  0 <= i -> git_vector_get v i = Some line -> i < vlen v.
Proof.
  intros Hi. unfold git_vector_get, vlen.
  destruct (v !! Z.to_nat i) eqn:E; [|done]. intros _.
  apply lookup_lt_Some in E. lia.
Qed.

(** A preimage that matches fits into the image. *)
Lemma match_hunk_fits (image preimage : patch_image) (at_ : Z) :
  0 <= at_ < 2 ^ SIZE_BITS ->
  vlen image + vlen preimage < 2 ^ SIZE_BITS ->
  match_hunk image preimage at_ = Some true ->
  at_ + vlen preimage <= vlen image.
Proof.
  intros Hat Hmem. unfold match_hunk.
  pose proof (vlen_nonneg image) as Himg.
  pose proof (vlen_nonneg preimage) as Hpre.
  case_decide as Hbound; [done|]. rewrite match_hunk_loop_true. intros H.
  destruct (decide (vlen preimage = 0)) as [Hz|Hnz].
  - rewrite Hz in Hbound |- *. unfold size_add in Hbound. simpl in Hbound.
    rewrite size_wrap_small in Hbound by lia. lia.
  - specialize (H 0%nat ltac:(unfold vlen in *; lia)). simpl in H.
    destruct H as (l1 & l2 & Hget & _).
    rewrite size_add_small in Hget by lia.
    apply git_vector_get_Some in Hget; [|lia].
    rewrite size_add_small in Hbound by lia. lia.
Qed.

(** C2.  The hunk matcher returns true exactly when the preimage sequence
    fits into the image at offset [at] ([at + len(preimage) <= len(image)])
    and every image line at [at + i] equals the [i]-th preimage line in
    byte length and in byte content; the comparison is a byte comparison
    of [content_len] bytes, nothing is normalised.  At an offset inside
    the image at which the preimage does not fit it returns false.  The
    offset is any [size_t]; the two vectors are in memory together, so
    their lengths add up to less than 2^64. *)
Theorem match_hunk_iff (image preimage : patch_image) (at_ : Z) :
  0 <= at_ < 2 ^ SIZE_BITS ->
  vlen image + vlen preimage < 2 ^ SIZE_BITS ->
  (match_hunk image preimage at_ = Some true <->
   at_ + vlen preimage <= vlen image /\
   forall i, 0 <= i < vlen preimage ->
     lines_equal (git_vector_get image (at_ + i)) (git_vector_get preimage i))
  /\
  (at_ <= vlen image -> at_ + vlen preimage > vlen image ->
   match_hunk image preimage at_ = Some false).
Proof.
  intros Hat Hmem.
  pose proof (vlen_nonneg image) as Himg.
  pose proof (vlen_nonneg preimage) as Hpre.
  split; [split|].
  - intros Hmatch.
    pose proof (match_hunk_fits image preimage at_ Hat Hmem Hmatch) as Hfit.
    split; [done|]. intros i Hi.
    unfold match_hunk in Hmatch. case_decide; [done|].
    rewrite match_hunk_loop_true in Hmatch.
    specialize (Hmatch (Z.to_nat i) ltac:(unfold vlen in *; lia)).
    simpl in Hmatch. rewrite Z2Nat.id in Hmatch by lia.
    by rewrite size_add_small in Hmatch by lia.
  - intros [Hfit H]. unfold match_hunk. rewrite decide_False.
    2:{ rewrite size_add_small by lia. lia. }
    apply match_hunk_loop_true. intros k Hk. simpl.
    rewrite size_add_small by (unfold vlen in *; lia).
    apply H. unfold vlen. lia.
  - intros Hin Hover. unfold match_hunk. rewrite decide_True; [done|].
    rewrite size_add_small by lia. lia.
Qed.

(** ** Hunk applier *)

(** The line number that [apply_hunk] hands to [match_hunk]: the
    specification's anchor. *)
Lemma apply_hunk_line_num image hunk :
  0 <= new_start hunk < 2 ^ 31 ->
  (if decide ((if decide (new_start hunk ≠ 0)
               then size_wrap (new_start hunk - 1) else 0) > vlen image)
   then vlen image
   else if decide (new_start hunk ≠ 0)
        then size_wrap (new_start hunk - 1) else 0)
  = hunk_anchor image hunk.
Proof.
  intros Hns. unfold hunk_anchor. simpl. pose proof (vlen_nonneg image).
  destruct (decide (new_start hunk = 0)) as [Hz|Hnz];
    destruct (decide (new_start hunk ≠ 0)) as [Hn|Hn]; try done.
  - case_decide; lia.
  - rewrite size_wrap_small by (unfold SIZE_BITS; lia).
    case_decide; lia.
Qed.

(** C3.  [apply_hunk] tries the preimage of the hunk at one place only,
    the anchor [new_start == 0 ? 0 : new_start - 1] clamped to the length
    of the image: it returns the error "hunk at line <new_start> did not
    apply" exactly when the lines of the hunk are all there and their
    preimage does not match at the anchor, whatever it matches elsewhere;
    and when the preimage matches at the anchor, the splice is made
    there.  [new_start] is a line number, a non-negative [int]. *)
Theorem apply_hunk_anchor_only (image : patch_image) (patch : git_patch)
    (hunk : git_patch_hunk) (err : giterr) :
  0 <= new_start hunk < 2 ^ 31 ->
  let images :=
    apply_hunk_images patch hunk (Z.to_nat (line_count hunk)) 0 [] [] in
  let target := hunk_anchor image hunk in
  (apply_hunk image patch hunk err
   = Some (GIT_EAPPLYFAIL, image,
           Some (ERR_HUNK_DID_NOT_APPLY (new_start hunk)))
   <-> exists preimage postimage,
         images = inl (preimage, postimage) /\
         match_hunk image preimage target = Some false) /\
  (forall preimage postimage,
     images = inl (preimage, postimage) ->
     match_hunk image preimage target = Some true ->
     apply_hunk image patch hunk err
     = '(error, image') ← update_hunk image (uint_wrap target)
                            preimage postimage;
       Some (error, image', err)).
Proof using GIT_EAPPLYFAIL_neg.
  intros Hns images target. subst images target.
  unfold apply_hunk, find_hunk_linenum. cbv zeta.
  rewrite (apply_hunk_line_num image hunk Hns).
  destruct (apply_hunk_images _ _ _ _ _ _) as [[pre post]|linenum]; simpl.
  - destruct (match_hunk image pre (hunk_anchor image hunk)) as [[|]|] eqn:M;
      simpl.
    + split.
      * split.
        -- unfold update_hunk.
           destruct (if decide (vlen post > vlen pre) then _ else _); simpl; [|done].
           destruct (update_hunk_assign _ _ _ _ _); simpl; [|done].
           intros [= H _ _]. lia.
        -- intros (pre' & post' & [= <- <-] & M'). congruence.
      * by intros pre' post' [= <- <-] _.
    + split.
      * split; [|done]. intros _. by exists pre, post.
      * intros pre' post' [= <- <-] M'. congruence.
    + split.
      * split; [done|]. intros (pre' & post' & [= <- <-] & M'). congruence.
      * intros pre' post' [= <- <-] M'. congruence.
  - split.
    + split; [done|]. by intros (pre' & post' & [=] & _).
    + by intros pre' post' [=].
Qed.

(** ** Binary delta applier *)

(** C5.  For a payload with [datalen > 0], [apply_binary_delta] inflates
    [data[0..datalen)]; starting from a clear error slot it ends with the
    message "inflated delta does not match expected length" exactly when
    the inflation succeeded with a size other than the declared
    [inflatedlen], and then it is an error ([GIT_EAPPLYFAIL]) that leaves
    no output behind. *)
Theorem apply_binary_delta_inflatedlen (out : git_buf) (source : list byte)
    (source_len : Z) (binary_file : git_diff_binary_file) :
  datalen binary_file > 0 ->
  let inflated :=
    git_zstream_inflatebuf
      (take (Z.to_nat (datalen binary_file)) (data binary_file)) in
  let result := apply_binary_delta out source source_len binary_file None in
  (result.2 = Some ERR_INFLATED_LENGTH
   <-> inflated.1 = 0 /\ vlen inflated.2 ≠ inflatedlen binary_file) /\
  (result.2 = Some ERR_INFLATED_LENGTH ->
   result = (GIT_EAPPLYFAIL, GIT_BUF_INIT, Some ERR_INFLATED_LENGTH)).
Proof using GIT_EAPPLYFAIL_neg.
  intros Hlen inflated result. subst inflated result.
  unfold apply_binary_delta.
  rewrite decide_False by lia.
  destruct (git_zstream_inflatebuf _) as [icode inflated]. simpl.
  destruct (decide (icode = 0 /\ vlen inflated ≠ inflatedlen binary_file))
    as [Hmis|Hok]; simpl.
  - rewrite decide_True by lia. simpl. by split.
  - case_decide; simpl.
    + split; [|done]. split; [done|]. intros ?. by destruct Hok.
    + destruct (type binary_file); simpl;
        try (destruct (git_delta_apply _ _) as [dcode dat]; simpl);
        (split; [split; [done|intros ?; by destruct Hok]|done]).
Qed.

(** The sanity check of [apply_binary] passes exactly when the reverse
    application gave back the bytes of the source buffer. *)
Lemma apply_binary_check source source_len (reverse : git_buf) :
  0 <= source_len <= vlen source ->
  bool_decide (source_len ≠ vlen reverse)
    || negb (memcmp_eq source reverse source_len) = false
  <-> reverse = buffer_bytes source source_len.
Proof.
  intros Hlen. unfold memcmp_eq, buffer_bytes, vlen in *.
  rewrite orb_false_iff, negb_false_iff, bool_decide_eq_false, bool_decide_eq_true.
  split.
  - intros [Hsize Hbytes]. apply dec_stable in Hsize.
    rewrite Hbytes, Hsize, Nat2Z.id. by rewrite firstn_all.
  - intros ->. rewrite length_take. split; [lia|].
    by rewrite take_take, Nat.min_id.
Qed.

(** C4.  For a binary patch that carries data, with a non-empty payload on
    at least one side: [apply_binary] returns 0 only if the forward
    application (the [new_file] payload on the source) left its result in
    [out], and the [old_file] payload applied to that result gave back
    the source byte for byte; and whenever both applications go through
    and the reconstruction differs from the source, it fails with "binary
    patch did not apply cleanly" and an empty output buffer. *)
Theorem apply_binary_roundtrip (out : git_buf) (source : list byte)
    (source_len : Z) (patch : git_patch) (err : giterr) :
  contains_data (binary patch) = true ->
  datalen (binary_old_file (binary patch)) ≠ 0
    \/ datalen (binary_new_file (binary patch)) ≠ 0 ->
  0 <= source_len <= vlen source ->
  let forward :=
    apply_binary_delta out source source_len
      (binary_new_file (binary patch)) err in
  let reverse :=
    apply_binary_delta GIT_BUF_INIT forward.1.2 (vlen forward.1.2)
      (binary_old_file (binary patch)) forward.2 in
  (forall out' err',
     apply_binary out source source_len patch err = (0, out', err') ->
     0 <= forward.1.1 /\ out' = forward.1.2 /\
     reverse.1.1 = 0 /\ reverse.1.2 = buffer_bytes source source_len) /\
  (0 <= forward.1.1 -> 0 <= reverse.1.1 ->
   reverse.1.2 ≠ buffer_bytes source source_len ->
   apply_binary out source source_len patch err
   = (GIT_EAPPLYFAIL, GIT_BUF_INIT, Some ERR_BINARY_NOT_CLEAN)).
Proof using GIT_EAPPLYFAIL_neg.
  intros Hdata Hpayload Hlen forward reverse. subst forward reverse.
  unfold apply_binary. rewrite Hdata. simpl.
  rewrite decide_False by lia.
  destruct (apply_binary_delta out source source_len _ err)
    as [[e1 fwd] err1]. simpl.
  destruct (decide (e1 < 0)) as [He1|He1]; simpl.
  { rewrite decide_True by done. split; [|lia]. intros out' err' [= -> _ _]. lia. }
  destruct (apply_binary_delta GIT_BUF_INIT fwd (vlen fwd) _ err1)
    as [[e2 rev] err2]. simpl.
  destruct (decide (e2 < 0)) as [He2|He2]; simpl.
  { rewrite decide_True by done. split; [|lia]. intros out' err' [= -> _ _]. lia. }
  destruct (bool_decide _ || negb _) eqn:Hc; simpl.
  - rewrite decide_True by done. split.
    + intros out' err' [= H _ _]. lia.
    + done.
  - rewrite decide_False by done.
    apply (apply_binary_check source source_len rev Hlen) in Hc. split.
    + intros out' err' [= -> <- _]. repeat split; (lia || done).
    + intros _ _ Hne. done.
Qed.

(** ** Error codes of the text path and of the binary path *)

Lemma apply_hunk_code image patch hunk err e image' err' :
  apply_hunk image patch hunk err = Some (e, image', err') ->
  e = 0 \/ e = GIT_EAPPLYFAIL.
Proof.
  unfold apply_hunk, update_hunk.
  destruct (apply_hunk_images _ _ _ _ _ _) as [[pre post]|linenum]; simpl;
    [|intros [= <- _ _]; by right].
  destruct (find_hunk_linenum _ _ _) as [[line_num [|]]|]; simpl;
    [|intros [= <- _ _]; by right|done].
  destruct (if decide (vlen post > vlen pre) then _ else _); simpl; [|done].
  destruct (update_hunk_assign _ _ _ _ _); simpl; [|done].
  intros [= <- _ _]. by left.
Qed.

Lemma apply_hunks_loop_code image patch todo error err e image' err' :
  apply_hunks_loop image patch todo error err = Some (e, image', err') ->
  e = error \/ e = 0 \/ e = GIT_EAPPLYFAIL.
Proof.
  revert image error err.
  induction todo as [|hunk todo IH]; intros image error err; simpl.
  { intros [= <- _ _]. by left. }
  destruct (apply_hunk image patch hunk err) as [[[e1 image1] err1]|] eqn:H1;
    simpl; [|done].
  apply apply_hunk_code in H1.
  case_decide.
  - intros [= <- _ _]. right. done.
  - intros H2. apply IH in H2. destruct H2 as [->|H2]; [|by right]. by right.
Qed.

(** [apply_hunks], with the image that [patch_image_init_fromstr]
    builds. *)
Lemma apply_hunks_unfold out source source_len patch err :
  apply_hunks out source source_len patch err
  = image ← patch_image_init_loop (Z.to_nat source_len) source source_len 0 [];
    '(error, image, err) ← apply_hunks_loop image patch (hunks patch) 0 err;
    if decide (error < 0) then Some (error, out, err)
    else out ← image_put out image; Some (error, out, err).
Proof.
  unfold apply_hunks, patch_image_init_fromstr.
  by destruct (patch_image_init_loop _ _ _ _ _).
Qed.

(** [apply_hunks] returns 0 or [GIT_EAPPLYFAIL], and leaves [out] alone
    when it fails. *)
Lemma apply_hunks_code out source source_len patch err e out' err' :
  apply_hunks out source source_len patch err = Some (e, out', err') ->
  (e = 0 \/ e = GIT_EAPPLYFAIL) /\ (e < 0 -> out' = out).
Proof.
  rewrite apply_hunks_unfold.
  destruct (patch_image_init_loop _ _ _ _ _) as [image|]; simpl; [|done].
  destruct (apply_hunks_loop _ _ _ _ _) as [[[e1 image1] err1]|] eqn:H1;
    simpl; [|done].
  apply apply_hunks_loop_code in H1.
  case_decide.
  - intros [= <- <- _]. split; [|done]. destruct H1 as [->|H1]; [by left|done].
  - destruct (image_put out image1); simpl; [|done].
    intros [= <- _ _]. split; [|lia]. destruct H1 as [->|H1]; [by left|done].
Qed.

Section Collaborator_codes.

(** The collaborators follow the convention of the library: 0 on success,
    a negative code on failure. *)
Hypothesis git_zstream_inflatebuf_code :
  forall d, (git_zstream_inflatebuf d).1 <= 0.
Hypothesis git_delta_apply_code :
  forall base d, (git_delta_apply base d).1 <= 0.

Lemma apply_binary_delta_code out source source_len binary_file err :
  (apply_binary_delta out source source_len binary_file err).1.1 <= 0.
Proof using GIT_EAPPLYFAIL_neg git_zstream_inflatebuf_code git_delta_apply_code.
  unfold apply_binary_delta. case_decide; [done|].
  pose proof (git_zstream_inflatebuf_code
    (take (Z.to_nat (datalen binary_file)) (data binary_file))) as Hi.
  destruct (git_zstream_inflatebuf _) as [icode inflated]. simpl in Hi.
  case_decide; simpl.
  - rewrite decide_True by lia. simpl. lia.
  - case_decide; simpl; [done|].
    destruct (type binary_file); simpl; [lia|done|].
    pose proof (git_delta_apply_code
      (take (Z.to_nat source_len) source) inflated) as Hd.
    destruct (git_delta_apply _ _) as [dcode dat]. simpl in *. done.
Qed.

(** [apply_binary] returns 0 or a negative code, and an empty buffer with
    a negative code. *)
Lemma apply_binary_code out source source_len patch err :
  let r := apply_binary out source source_len patch err in
  r.1.1 <= 0 /\ (r.1.1 < 0 -> r.1.2 = GIT_BUF_INIT).
Proof using GIT_EAPPLYFAIL_neg git_zstream_inflatebuf_code git_delta_apply_code.
  unfold apply_binary. cbv zeta.
  destruct (contains_data (binary patch)); simpl.
  2:{ destruct (decide (GIT_EAPPLYFAIL < 0)); [|lia]. simpl. split; [lia|done]. }
  case_decide; simpl.
  { split; [lia|lia]. }
  pose proof (apply_binary_delta_code out source source_len
    (binary_new_file (binary patch)) err) as H1.
  destruct (apply_binary_delta out source source_len _ err)
    as [[e1 fwd] err1]. simpl in H1.
  destruct (decide (e1 < 0)); simpl.
  { destruct (decide (e1 < 0)); [|lia]. simpl. split; [lia|done]. }
  pose proof (apply_binary_delta_code GIT_BUF_INIT fwd (vlen fwd)
    (binary_old_file (binary patch)) err1) as H2.
  destruct (apply_binary_delta GIT_BUF_INIT fwd (vlen fwd) _ err1)
    as [[e2 rev] err2]. simpl in H2.
  destruct (decide (e2 < 0)); simpl.
  { destruct (decide (e2 < 0)); [|lia]. simpl. split; [lia|done]. }
  destruct (bool_decide _ || negb _); simpl.
  - destruct (decide (GIT_EAPPLYFAIL < 0)); [|lia]. simpl. split; [lia|done].
  - destruct (decide (e2 < 0)); [lia|]. simpl. split; [lia|lia].
Qed.

End Collaborator_codes.

(** ** File patch driver *)

(** C6.  For a patch whose delta is a deletion, [git_apply__patch] (on a
    fresh output buffer) leaves [*filename_out] null and [*mode_out] 0.
    The result after applying is what the binary applier leaves for a
    patch that is flagged binary, what [apply_hunks] leaves for a text
    patch with hunks, and the bytes of the source for a text patch
    without hunks.  Whenever applying returns, [git_apply__patch]
    returns, with that result in its buffer: when applying has failed it
    returns the code and the message of the failure; when applying has
    returned 0 and the result is not empty it fails with "removal patch
    leaves file contents"; when applying has returned 0 and the result is
    empty it returns 0.  So it either ends with an empty output buffer or
    fails with that message on a non-empty result, and when it returns 0
    the output is empty.  The collaborators return 0 or a negative
    code. *)
Theorem git_apply__patch_deleted (source : list byte) (source_len : Z)
    (patch : git_patch) (err : giterr) :
  (forall d, (git_zstream_inflatebuf d).1 <= 0) ->
  (forall base d, (git_delta_apply base d).1 <= 0) ->
  status (delta patch) = GIT_DELTA_DELETED ->
  let applied :=
    if decide (Z.land (flags (delta patch)) GIT_DIFF_FLAG_BINARY ≠ 0)
    then Some (apply_binary GIT_BUF_INIT source source_len patch err)
    else match hunks patch with
         | [] => Some (0, buffer_bytes source source_len, err)
         | _ :: _ => apply_hunks GIT_BUF_INIT source source_len patch err
         end in
  (is_Some applied ->
   is_Some (git_apply__patch GIT_BUF_INIT source source_len patch err)) /\
  forall r,
    git_apply__patch GIT_BUF_INIT source source_len patch err = Some r ->
    filename_out r = None /\ mode_out r = 0 /\
    (contents_out r = GIT_BUF_INIT \/
     (return_code r = GIT_EAPPLYFAIL /\
      error_message r = Some ERR_REMOVAL_LEAVES_CONTENTS /\
      contents_out r ≠ GIT_BUF_INIT)) /\
    (return_code r = 0 -> contents_out r = GIT_BUF_INIT) /\
    exists e out err',
      applied = Some (e, out, err') /\
      contents_out r = out /\
      (e ≠ 0 -> return_code r = e /\ error_message r = err') /\
      (e = 0 -> out ≠ GIT_BUF_INIT ->
       return_code r = GIT_EAPPLYFAIL /\
       error_message r = Some ERR_REMOVAL_LEAVES_CONTENTS) /\
      (e = 0 -> out = GIT_BUF_INIT ->
       return_code r = 0 /\ error_message r = err').
Proof using GIT_EAPPLYFAIL_neg.
  intros Hinflate Hdelta Hstatus applied.
  assert (Hdispatch :
    (if decide (Z.land (flags (delta patch)) GIT_DIFF_FLAG_BINARY ≠ 0)
     then Some (apply_binary GIT_BUF_INIT source source_len patch err)
     else if decide (vlen (hunks patch) ≠ 0)
          then apply_hunks GIT_BUF_INIT source source_len patch err
          else Some (0, git_buf_put GIT_BUF_INIT source source_len, err))
    = applied).
  { subst applied. case_decide; [done|].
    destruct (hunks patch); [done|].
    rewrite decide_True; [done|]. unfold vlen. simpl. lia. }
  assert (Happlied : forall e c err', applied = Some (e, c, err') ->
            e <= 0 /\ (e < 0 -> c = GIT_BUF_INIT)).
  { subst applied. intros e c err'. case_decide.
    - intros [= Hab]. pose proof (apply_binary_code Hinflate Hdelta
        GIT_BUF_INIT source source_len patch err) as Hb.
      rewrite Hab in Hb. done.
    - destruct (hunks patch).
      + intros [= <- _ _]. split; lia.
      + intros Hah.
        apply apply_hunks_code in Hah as [[->| ->] Hah]; split; (lia || done). }
  unfold git_apply__patch.
  rewrite Hstatus. rewrite decide_False by (by intros H).
  rewrite Hdispatch. clear Hdispatch. clearbody applied.
  destruct applied as [[[e c] err']|]; simpl.
  2:{ split; [by intros [? ?]|done]. }
  destruct (Happlied e c err' eq_refl) as [He Hc]. clear Happlied.
  split; [intros _; by repeat case_decide|].
  intros r. case_decide as Herr.
  - intros [= <-]. simpl. rewrite Hc by lia.
    split_and!; try done; [by left|].
    exists e, GIT_BUF_INIT, err'. split_and!; (done || lia).
  - subst e. case_decide as Hleft.
    + assert (Hne : c ≠ GIT_BUF_INIT).
      { intros ->. destruct Hleft as [_ Hleft]. by compute in Hleft. }
      intros [= <-]. simpl. split_and!; try done; [by right|lia|].
      exists 0, c, err'. by split_and!.
    + assert (c = GIT_BUF_INIT) as ->.
      { destruct c; [done|]. exfalso. apply Hleft. split; [done|].
        unfold vlen. simpl. lia. }
      intros [= <-]. simpl. split_and!; try done; [by left|].
      exists 0, GIT_BUF_INIT, err'. by split_and!.
Qed.

(** C7.  For a patch that is not a deletion, is not flagged binary and
    has no hunks, [git_apply__patch] (on a fresh output buffer) returns 0
    with the bytes of the source buffer as its output, a copy of
    [new_file.path] as the file name, and [new_file.mode] as the mode, or
    [GIT_FILEMODE_BLOB] when that mode is 0. *)
Theorem git_apply__patch_no_hunks (source : list byte) (source_len : Z)
    (patch : git_patch) (err : giterr) :
  status (delta patch) ≠ GIT_DELTA_DELETED ->
  Z.land (flags (delta patch)) GIT_DIFF_FLAG_BINARY = 0 ->
  hunks patch = [] ->
  git_apply__patch GIT_BUF_INIT source source_len patch err
  = Some {| return_code := 0;
            contents_out := buffer_bytes source source_len;
            filename_out := Some (path (new_file (delta patch)));
            mode_out := if decide (mode (new_file (delta patch)) = 0)
                        then GIT_FILEMODE_BLOB
                        else mode (new_file (delta patch));
            error_message := err |}.
Proof.
  intros Hstatus Hflags Hhunks. unfold git_apply__patch.
  rewrite Hflags, Hhunks. rewrite (decide_True _ _ Hstatus). simpl.
  rewrite decide_False by (intros [H _]; done).
  do 2 f_equal. by repeat case_decide.
Qed.

(** C10.  Whenever [git_apply__patch] returns an error (a value other
    than 0), [*filename_out] is null and [*mode_out] is 0, as they were
    initialised; the two are written only on a return of 0, and then, for
    a patch that is not a deletion, with the new path and the new mode. *)
Theorem git_apply__patch_outputs (contents_out0 : git_buf)
    (source : list byte) (source_len : Z) (patch : git_patch) (err : giterr)
    (r : apply_result) :
  git_apply__patch contents_out0 source source_len patch err = Some r ->
  (return_code r ≠ 0 -> filename_out r = None /\ mode_out r = 0) /\
  (filename_out r ≠ None \/ mode_out r ≠ 0 -> return_code r = 0) /\
  (return_code r = 0 -> status (delta patch) ≠ GIT_DELTA_DELETED ->
   filename_out r = Some (path (new_file (delta patch))) /\
   mode_out r = if decide (mode (new_file (delta patch)) = 0)
                then GIT_FILEMODE_BLOB
                else mode (new_file (delta patch))).
Proof.
  unfold git_apply__patch.
  destruct (decide (status (delta patch) ≠ GIT_DELTA_DELETED)) as [Hs|Hs];
    (destruct (if decide (Z.land _ _ ≠ 0) then _ else _)
       as [[[e c] err']|]; simpl; [|done]);
    (destruct (decide (e ≠ 0)) as [He|He];
       [intros [= <-]; simpl; split_and!; try done; by intros [?|?]|]);
    apply dec_stable in He.
  - rewrite decide_False by (intros [? _]; done).
    intros [= <-]. simpl. split_and!; try done.
    intros _ _. by repeat case_decide.
  - apply dec_stable in Hs. case_decide as Hd.
    + intros [= <-]. simpl. split_and!; try done; try (by intros [?|?]).
    + intros [= <-]. simpl. split_and!; try done; try (by intros [?|?]).
Qed.

(** ** Splicing *)

Lemma update_hunk_assign_spec lines linenum postimage n i :
  0 <= linenum -> 0 <= i ->
  linenum + i + Z.of_nat n <= vlen lines ->
  vlen lines <= 2 ^ SIZE_BITS ->
  i + Z.of_nat n <= vlen postimage ->
  update_hunk_assign lines linenum postimage n i
  = Some (take (Z.to_nat (linenum + i)) lines
          ++ take n (drop (Z.to_nat i) postimage)
          ++ drop (Z.to_nat (linenum + i) + n) lines).
Proof.
  revert lines i. induction n as [|n IH]; intros lines i Hl Hi Hfit Hmem Hpost;
    simpl.
  { rewrite Nat.add_0_r. by rewrite take_drop. }
  rewrite size_add_small by lia.
  rewrite decide_True by lia.
  destruct (lookup_lt_is_Some_2 postimage (Z.to_nat i)) as [q Hq];
    [unfold vlen in Hpost; lia|].
  unfold git_vector_get at 1. rewrite Hq. simpl.
  rewrite IH; try lia.
  2, 3: unfold vlen in *; rewrite length_insert; lia.
  f_equal.
  replace (Z.to_nat (linenum + (i + 1))) with (S (Z.to_nat (linenum + i))) by lia.
  replace (Z.to_nat (i + 1)) with (S (Z.to_nat i)) by lia.
  set (k := Z.to_nat (linenum + i)).
  assert (Hk : (k < length lines)%nat) by (unfold vlen in Hfit; lia).
  rewrite (take_S_r _ k q) by (by apply list_lookup_insert_eq).
  rewrite take_insert_ge by lia.
  rewrite drop_insert_lt by lia.
  rewrite (drop_S postimage q (Z.to_nat i)) by done.
  rewrite <- app_assoc. simpl.
  by replace (k + S n)%nat with (S (k + n)) by lia.
Qed.

(** [update_hunk] is the splice of the specification: the lines of the
    preimage, from [linenum] on, make way for those of the postimage. *)
Lemma update_hunk_splice image linenum preimage postimage :
  0 <= linenum ->
  linenum + vlen preimage <= vlen image ->
  vlen image + vlen postimage <= 2 ^ SIZE_BITS ->
  update_hunk image linenum preimage postimage
  = Some (0, take (Z.to_nat linenum) image ++ postimage
             ++ drop (Z.to_nat (linenum + vlen preimage)) image).
Proof.
  intros Hl Hfit Hmem. unfold update_hunk. cbv zeta.
  pose proof (vlen_nonneg preimage) as Hpre.
  pose proof (vlen_nonneg postimage) as Hpost.
  assert (Htake : length (take (Z.to_nat linenum) image) = Z.to_nat linenum).
  { rewrite length_take. unfold vlen in Hfit. lia. }
  destruct (decide (vlen postimage > vlen preimage)) as [Hgrow|Hgrow].
  - unfold git_vector_insert_null. rewrite decide_True by lia. simpl.
    rewrite update_hunk_assign_spec;
      try (unfold vlen in *;
           rewrite ?length_app, ?length_replicate, ?length_drop; lia).
    simpl. do 2 f_equal. rewrite Z.add_0_r, drop_0, firstn_all.
    rewrite take_app_length' by done. do 2 f_equal.
    rewrite drop_app_add' by done.
    rewrite drop_app_ge by (rewrite length_replicate; unfold vlen in *; lia).
    rewrite length_replicate, drop_drop. f_equal. unfold vlen in *. lia.
  - destruct (decide (vlen preimage > vlen postimage)) as [Hshrink|Hsame].
    + unfold git_vector_remove_range. rewrite decide_True by lia. simpl.
      rewrite update_hunk_assign_spec;
        try (unfold vlen in *;
             rewrite ?length_app, ?length_take, ?length_drop; lia).
      simpl. do 2 f_equal. rewrite Z.add_0_r, drop_0, firstn_all.
      rewrite take_app_length' by done. do 2 f_equal.
      rewrite drop_app_add' by done.
      rewrite drop_drop. f_equal. unfold vlen in *. lia.
    + simpl. rewrite update_hunk_assign_spec; try (unfold vlen in *; lia).
      simpl. do 2 f_equal. rewrite Z.add_0_r, drop_0, firstn_all.
      do 3 f_equal. unfold vlen in *. lia.
Qed.

(** A hunk whose preimage matches at the anchor is applied as the splice
    of the specification: the lines of its preimage make way for those of
    its postimage, at the anchor. *)
Lemma apply_hunk_splice image patch hunk err preimage postimage :
  0 <= new_start hunk < 2 ^ 31 ->
  vlen image < 2 ^ 32 ->
  vlen preimage < 2 ^ 32 -> vlen postimage < 2 ^ 32 ->
  apply_hunk_images patch hunk (Z.to_nat (line_count hunk)) 0 [] []
  = inl (preimage, postimage) ->
  match_hunk image preimage (hunk_anchor image hunk) = Some true ->
  apply_hunk image patch hunk err
  = Some (0,
          take (Z.to_nat (hunk_anchor image hunk)) image ++ postimage
            ++ drop (Z.to_nat (hunk_anchor image hunk + vlen preimage)) image,
          err).
Proof.
  intros Hns Himage Hpre Hpost Himages Hmatch.
  pose proof (vlen_nonneg image) as Hlen.
  assert (Htarget : 0 <= hunk_anchor image hunk <= vlen image).
  { unfold hunk_anchor. case_decide; lia. }
  apply match_hunk_fits in Hmatch as Hfit; try (unfold SIZE_BITS; lia).
  unfold apply_hunk, find_hunk_linenum. rewrite Himages. cbv zeta.
  rewrite (apply_hunk_line_num image hunk Hns). rewrite Hmatch. simpl.
  rewrite uint_wrap_small by lia.
  rewrite update_hunk_splice by (unfold SIZE_BITS; lia).
  done.
Qed.

(** ** Preimage and postimage of a hunk *)

(** The first loop of [apply_hunk] sorts the lines of the hunk by origin:
    context and deletion lines go to the preimage, context and addition
    lines to the postimage. *)
Lemma apply_hunk_images_spec patch hunk n i preimage postimage :
  0 <= line_start hunk -> 0 <= i ->
  line_start hunk + i + Z.of_nat n <= vlen (patch_lines patch) ->
  vlen (patch_lines patch) <= 2 ^ SIZE_BITS ->
  apply_hunk_images patch hunk n i preimage postimage
  = inl (preimage
           ++ (Some <$> List.filter (fun l => is_preimage_origin (origin l))
                 (take n (drop (Z.to_nat (line_start hunk + i))
                            (patch_lines patch)))),
         postimage
           ++ (Some <$> List.filter (fun l => is_postimage_origin (origin l))
                 (take n (drop (Z.to_nat (line_start hunk + i))
                            (patch_lines patch))))).
Proof.
  revert i preimage postimage.
  induction n as [|n IH]; intros i pre post Hs Hi Hfit Hmem; simpl.
  { by rewrite !app_nil_r. }
  rewrite size_add_small by lia.
  unfold git_array_get. rewrite decide_True by lia.
  destruct (lookup_lt_is_Some_2 (patch_lines patch)
              (Z.to_nat (line_start hunk + i))) as [line Hline];
    [unfold vlen in Hfit; lia|].
  rewrite Hline. rewrite IH by lia.
  rewrite (drop_S _ line _ Hline). simpl.
  replace (Z.to_nat (line_start hunk + (i + 1)))
    with (S (Z.to_nat (line_start hunk + i))) by lia.
  unfold git_vector_insert.
  destruct (is_preimage_origin (origin line));
    destruct (is_postimage_origin (origin line)); simpl;
    by rewrite <- ?app_assoc.
Qed.

Lemma additions_preimage lines :
  Forall (fun line => origin line = Some GIT_DIFF_LINE_ADDITION) lines ->
  List.filter (fun l => is_preimage_origin (origin l)) lines = [].
Proof. induction 1 as [|line lines Ho _ IH]; simpl; [done|]. by rewrite Ho. Qed.

Lemma additions_postimage lines :
  Forall (fun line => origin line = Some GIT_DIFF_LINE_ADDITION) lines ->
  List.filter (fun l => is_postimage_origin (origin l)) lines = lines.
Proof.
  induction 1 as [|line lines Ho _ IH]; simpl; [done|].
  rewrite Ho. simpl. by rewrite IH.
Qed.

Lemma vlen_fmap_Some (lines : list git_diff_line) :
  vlen (Some <$> lines) = vlen lines.
Proof. unfold vlen. by rewrite length_fmap. Qed.

Lemma image_put_fmap_Some out (lines : list git_diff_line) :
  image_put out (Some <$> lines) = Some (out ++ concat_lines lines).
Proof.
  unfold concat_lines. revert out.
  induction lines as [|line lines IH]; intros out; simpl.
  { by rewrite app_nil_r. }
  rewrite IH. unfold git_buf_put, line_bytes. by rewrite <- app_assoc.
Qed.

(** A hunk of additions, anchored at or behind the end of the image, puts
    its lines behind those of the image. *)
Lemma apply_hunk_additions (acc : list git_diff_line) patch hunk err :
  only_additions patch hunk ->
  vlen (patch_lines patch) <= 2 ^ SIZE_BITS ->
  0 <= new_start hunk < 2 ^ 31 ->
  vlen acc <= (if decide (new_start hunk = 0) then 0 else new_start hunk - 1) ->
  vlen acc + vlen (hunk_lines patch hunk) < 2 ^ 32 ->
  apply_hunk (Some <$> acc) patch hunk err
  = Some (0, Some <$> (acc ++ hunk_lines patch hunk), err).
Proof.
  intros (Hstart & Hcount & Htable & Hadd) Hmem Hns Hanchor Hsize.
  pose proof (vlen_nonneg acc) as Hacc.
  pose proof (vlen_nonneg (hunk_lines patch hunk)) as Hlines.
  unfold apply_hunk.
  rewrite apply_hunk_images_spec by lia. simpl.
  rewrite Z.add_0_r. fold (hunk_lines patch hunk).
  rewrite additions_preimage, additions_postimage by done. simpl.
  unfold find_hunk_linenum. cbv zeta.
  rewrite (apply_hunk_line_num _ hunk Hns).
  assert (Htarget : hunk_anchor (Some <$> acc) hunk = vlen acc).
  { unfold hunk_anchor. rewrite vlen_fmap_Some. lia. }
  rewrite Htarget. unfold match_hunk.
  rewrite size_add_small by (unfold vlen, SIZE_BITS in *; simpl; lia).
  rewrite decide_False by (rewrite vlen_fmap_Some; unfold vlen; simpl; lia).
  simpl. rewrite uint_wrap_small by lia.
  rewrite update_hunk_splice;
    rewrite ?vlen_fmap_Some; try (unfold vlen, SIZE_BITS in *; simpl; lia).
  simpl. do 3 f_equal. rewrite fmap_app. unfold vlen.
  rewrite Z.add_0_r, Nat2Z.id.
  rewrite take_ge, drop_ge by (by rewrite length_fmap).
  by rewrite app_nil_r.
Qed.

Lemma apply_hunks_loop_additions patch todo (acc : list git_diff_line) err :
  Forall (only_additions patch) todo ->
  vlen (patch_lines patch) <= 2 ^ SIZE_BITS ->
  hunks_in_sequence patch (vlen acc) todo ->
  vlen acc + vlen (concat (hunk_lines patch <$> todo)) < 2 ^ 32 ->
  apply_hunks_loop (Some <$> acc) patch todo 0 err
  = Some (0, Some <$> (acc ++ concat (hunk_lines patch <$> todo)), err).
Proof.
  intros Hadd Hmem. revert acc.
  induction Hadd as [|hunk todo Hhunk _ IH]; intros acc Hseq Hsize; simpl.
  { by rewrite app_nil_r. }
  destruct Hseq as (Hns & Hanchor & Hseq).
  change (concat (hunk_lines patch <$> hunk :: todo))
    with (hunk_lines patch hunk ++ concat (hunk_lines patch <$> todo)) in *.
  rewrite vlen_app in Hsize.
  pose proof (vlen_nonneg (concat (hunk_lines patch <$> todo))).
  rewrite apply_hunk_additions by (done || lia). simpl.
  rewrite IH; rewrite ?vlen_app; try done; try lia.
  by rewrite app_assoc.
Qed.

(** C9, as the code has it.  For an empty source buffer and a patch that
    is not flagged binary, whose delta is an addition and whose hunks
    contain only addition lines and follow one another (each [new_start]
    is a line number, and [new_start - 1] is not smaller than the number
    of lines of the hunks before it; a single hunk always does),
    [git_apply__patch] returns 0 and its output is the concatenation of
    the contents of the addition lines, in order.  The line table fits
    into memory and the image into the [unsigned int] that [update_hunk]
    takes. *)
Theorem git_apply__patch_additions (source : list byte) (patch : git_patch)
    (err : giterr) :
  status (delta patch) = GIT_DELTA_ADDED ->
  Z.land (flags (delta patch)) GIT_DIFF_FLAG_BINARY = 0 ->
  Forall (only_additions patch) (hunks patch) ->
  hunks_in_sequence patch 0 (hunks patch) ->
  vlen (patch_lines patch) <= 2 ^ SIZE_BITS ->
  vlen (all_hunk_lines patch) < 2 ^ 32 ->
  git_apply__patch GIT_BUF_INIT source 0 patch err
  = Some {| return_code := 0;
            contents_out := concat_lines (all_hunk_lines patch);
            filename_out := Some (path (new_file (delta patch)));
            mode_out := if decide (mode (new_file (delta patch)) = 0)
                        then GIT_FILEMODE_BLOB
                        else mode (new_file (delta patch));
            error_message := err |}.
Proof.
  intros Hstatus Hflags Hadd Hseq Hmem Hsize. unfold git_apply__patch.
  rewrite Hstatus, Hflags. simpl.
  assert (Hmode :
    (if decide (mode (new_file (delta patch)) ≠ 0)
     then mode (new_file (delta patch)) else GIT_FILEMODE_BLOB)
    = (if decide (mode (new_file (delta patch)) = 0)
       then GIT_FILEMODE_BLOB else mode (new_file (delta patch)))).
  { by repeat case_decide. }
  rewrite Hmode. unfold all_hunk_lines in *.
  pose proof (apply_hunks_loop_additions patch (hunks patch) [] err
                Hadd Hmem Hseq) as Hloop.
  change (Some <$> []) with (@nil (option git_diff_line)) in Hloop.
  rewrite app_nil_l in Hloop.
  destruct (decide (vlen (hunks patch) ≠ 0)) as [Hsome|Hsome].
  - rewrite apply_hunks_unfold. simpl.
    rewrite Hloop by (change (vlen []) with 0; lia). simpl.
    by rewrite image_put_fmap_Some.
  - destruct (hunks patch); [done|]. exfalso. apply Hsome.
    unfold vlen. simpl. lia.
Qed.

(** ** Batch orchestrator *)

Lemma remove_old_paths_None postimage diff (p : string) :
  postimage !! p = None -> remove_old_paths postimage diff !! p = None.
Proof.
  revert postimage. unfold remove_old_paths.
  induction diff as [|delta diff IH]; intros postimage Hp; simpl; [done|].
  apply IH. rewrite lookup_delete. by case_decide.
Qed.

Lemma remove_old_paths_removed postimage diff delta :
  delta ∈ diff ->
  remove_old_paths postimage diff !! path (old_file delta) = None.
Proof.
  revert postimage.
  induction diff as [|delta' diff IH]; intros postimage Hin.
  { by apply elem_of_nil in Hin. }
  apply elem_of_cons in Hin as [->|Hin].
  - apply (remove_old_paths_None _ diff). apply lookup_delete_eq.
  - apply (IH _ Hin).
Qed.

(** The first loop of [git_apply_tree] is the pre-pass. *)
Lemma git_apply_tree_remove_spec postimage diff n i :
  0 <= i -> i + Z.of_nat n = vlen diff ->
  git_apply_tree_remove postimage diff n i 0
  = Some (0, remove_old_paths postimage (drop (Z.to_nat i) diff)).
Proof.
  revert postimage i.
  induction n as [|n IH]; intros postimage i Hi Hn; simpl.
  { rewrite drop_ge by (unfold vlen in Hn; lia). done. }
  unfold git_diff_get_delta. rewrite decide_True by lia.
  destruct (lookup_lt_is_Some_2 diff (Z.to_nat i)) as [delta Hdelta];
    [unfold vlen in Hn; lia|].
  rewrite Hdelta. simpl.
  rewrite IH by lia.
  rewrite (drop_S _ _ _ Hdelta). simpl.
  by replace (Z.to_nat (i + 1)) with (S (Z.to_nat i)) by lia.
Qed.

(** C8.  In [git_apply_tree], before the first [apply_one] runs, a loop
    goes through the deltas in their order and removes the old path of
    each from the postimage index; the apply pass starts on the index
    that this pre-pass leaves, in which the old path of no delta is
    present.  [git_apply] builds its postimage from a new, empty index:
    that is what the pre-pass leaves of an empty index, and its apply
    pass starts there. *)
Theorem old_paths_removed_before_apply_pass
    (pre_reader : string -> Z * git_buf)
    (preimage : gmap string (Z * list byte)) (diff : list git_diff_delta)
    (err : giterr) :
  (forall postimage delta,
     delta ∈ diff ->
     remove_old_paths postimage diff !! path (old_file delta) = None) /\
  git_apply_tree_remove preimage diff (length diff) 0 0
  = Some (0, remove_old_paths preimage diff) /\
  git_apply_tree pre_reader preimage diff err
  = ('(error, postimage, err) ←
       apply_pass pre_reader (remove_old_paths preimage diff) diff
         (length diff) 0 0 err;
     if decide (error < 0) then Some (error, None, err)
     else Some (error, Some postimage, err)) /\
  git_apply_postimage pre_reader diff err
  = apply_pass pre_reader (remove_old_paths git_index_new diff) diff
      (length diff) 0 0 err.
Proof.
  assert (Hpre : forall postimage,
    git_apply_tree_remove postimage diff (length diff) 0 0
    = Some (0, remove_old_paths postimage diff)).
  { intros postimage.
    by rewrite git_apply_tree_remove_spec by (unfold vlen; lia). }
  split_and!.
  - intros postimage delta. apply remove_old_paths_removed.
  - apply Hpre.
  - unfold git_apply_tree, git_index_read_tree. simpl.
    rewrite Hpre. done.
  - unfold git_apply_postimage. f_equal.
    symmetry. apply map_eq. intros p.
    rewrite (remove_old_paths_None git_index_new diff p); [done|].
    apply lookup_empty.
Qed.

(** * Further properties of the code *)

(** ** The lines of an image *)

Lemma memchr_first s c n off :
  memchr s c n = Some (Some off) -> c ∉ take (Z.to_nat off) s.
Proof.
  revert s off. induction n as [|n IH]; intros [|b s] off; simpl; try done.
  destruct (Byte.eqb b c) eqn:E.
  - intros [= <-]. simpl. apply not_elem_of_nil.
  - destruct (memchr s c n) as [[o|]|] eqn:M; simpl; try done.
    intros [= <-]. pose proof (memchr_Some _ _ _ _ M) as (Ho & _ & _).
    replace (Z.to_nat (o + 1)) with (S (Z.to_nat o)) by lia. simpl.
    apply not_elem_of_cons. split; [|by apply IH].
    intros ->. by rewrite Byte.byte_dec_lb in E.
Qed.

Lemma elem_of_take_le {A : Type} (x : A) (n m : nat) (l : list A) :
  (n <= m)%nat -> x ∈ take n l -> x ∈ take m l.
Proof.
  intros Hle. rewrite !elem_of_take. intros (i & Hi & Hlt).
  exists i. split; [done|lia].
Qed.

Lemma patch_image_init_loop_app fuel in_ in_len start lines :
  patch_image_init_loop fuel in_ in_len start lines
  = (lines ++.) <$> patch_image_init_loop fuel in_ in_len start [].
Proof.
  revert start lines. induction fuel as [|fuel IH]; intros start lines; simpl.
  { f_equal. by rewrite app_nil_r. }
  case_decide; [|simpl; f_equal; by rewrite app_nil_r].
  destruct (memchr _ _ _) as [found|]; simpl; [|done].
  rewrite IH. rewrite (IH _ (git_vector_insert [] _)).
  unfold git_vector_insert. rewrite <- option_fmap_compose.
  apply option_fmap_ext. intros l. simpl. by rewrite <- app_assoc.
Qed.

Lemma patch_image_init_loop_laid_out fuel in_ in_len start lines :
  0 <= start ->
  in_len - start <= Z.of_nat fuel ->
  patch_image_init_loop fuel in_ in_len start [] = Some lines ->
  lines_laid_out in_ start lines /\
  vlen lines <= Z.max 0 (in_len - start) /\
  (start < in_len -> lines ≠ [] /\ in_len <= lines_end start lines).
Proof.
  revert start lines.
  induction fuel as [|fuel IH]; intros start lines Hstart Hfuel; simpl.
  { intros [= <-]. split_and!; [done|unfold vlen; simpl; lia|lia]. }
  case_decide as Hlt.
  2:{ intros [= <-]. split_and!; [done|unfold vlen; simpl; lia|lia]. }
  set (s := drop (Z.to_nat start) in_).
  destruct (memchr s NL (Z.to_nat in_len)) as [found|] eqn:M; simpl; [|done].
  set (end_ := match found with Some _ => _ | None => _ end).
  assert (Hend : start < end_ /\
            (NL ∉ take (Z.to_nat (end_ - start - 1)) s) /\
            (end_ < in_len ->
             (s !! Z.to_nat (end_ - start - 1)) = Some NL)).
  { subst end_. destruct found as [off|].
    - pose proof (memchr_first _ _ _ _ M) as Hfirst.
      apply memchr_Some in M as (H0 & H1 & H2).
      case_decide as He.
      + replace (start + off + 1 - start - 1) with off by lia.
        split_and!; [lia|done|done].
      + split_and!; [lia| |lia].
        intros Hin. apply Hfirst.
        eapply elem_of_take_le; [|done]. lia.
    - apply memchr_None in M as [M _]. split_and!; [lia| |lia].
      intros Hin. apply M.
      eapply elem_of_take_le; [|done]. lia. }
  destruct Hend as (Hend1 & Hend2 & Hend3).
  rewrite patch_image_init_loop_app. unfold git_vector_insert. simpl.
  destruct (patch_image_init_loop fuel in_ in_len end_ []) as [rest|] eqn:Hrest;
    simpl; [|done].
  intros [= <-].
  destruct (IH end_ rest ltac:(lia) ltac:(lia) Hrest) as (IH1 & IH2 & IH3).
  split_and!.
  - eexists. split; [done|]. simpl.
    replace (start + (end_ - start)) with end_ by lia.
    split_and!; try done; try lia.
    intros Hne. apply Hend3.
    destruct (decide (end_ < in_len)) as [|Hge]; [done|]. exfalso. apply Hne.
    destruct fuel; simpl in Hrest; [by injection Hrest as <-|].
    rewrite decide_False in Hrest by done. by injection Hrest as <-.
  - unfold vlen in *. simpl. lia.
  - intros _. split; [done|]. simpl.
    replace (start + (end_ - start)) with end_ by lia.
    destruct (decide (end_ < in_len)) as [Hl|Hge].
    + by apply IH3.
    + destruct fuel; simpl in Hrest; [injection Hrest as <-; simpl; lia|].
      rewrite decide_False in Hrest by done. injection Hrest as <-. simpl. lia.
Qed.

Lemma patch_image_init_loop_step fuel in_ in_len start lines :
  start < in_len ->
  patch_image_init_loop (S fuel) in_ in_len start lines
  = found ← memchr (drop (Z.to_nat start) in_) NL (Z.to_nat in_len);
    let end_ :=
      match found with
      | None => in_len
      | Some off =>
          let e := start + off in
          if decide (e < in_len) then e + 1 else e
      end in
    patch_image_init_loop fuel in_ in_len end_
      (git_vector_insert lines
         (Some (patch_line_init (drop (Z.to_nat start) in_)
                  (end_ - start) start))).
Proof. intros Hlt. simpl. by rewrite decide_True by done. Qed.

Lemma patch_image_init_loop_done fuel in_ in_len start lines :
  in_len <= start ->
  patch_image_init_loop fuel in_ in_len start lines = Some lines.
Proof. intros Hge. destruct fuel; simpl; [done|]. by rewrite decide_False by lia. Qed.

(** The image is built without a read behind the readable bytes when from
    every offset of the buffer on there is a newline to be found or
    [in_len] bytes to be read. *)
Lemma patch_image_init_loop_defined fuel in_ in_len start lines :
  0 <= start ->
  (forall s, start <= s < in_len ->
     NL ∈ drop (Z.to_nat s) in_ \/ s + in_len <= vlen in_) ->
  is_Some (patch_image_init_loop fuel in_ in_len start lines).
Proof.
  revert start lines.
  induction fuel as [|fuel IH]; intros start lines Hstart Hread; simpl; [done|].
  case_decide as Hlt; [|done].
  destruct (memchr _ _ _) as [found|] eqn:M; simpl.
  - apply IH.
    + destruct found as [off|]; [|lia].
      apply memchr_Some in M as (H0 & _ & _). case_decide; lia.
    + intros s Hs. apply Hread. split; [|lia].
      destruct found as [off|]; [|lia].
      apply memchr_Some in M as (H0 & _ & _). case_decide; lia.
  - exfalso. apply memchr_fault in M as [Hnot Hshort].
    destruct (Hread start ltac:(lia)) as [Hin|Hlen]; [done|].
    rewrite length_drop in Hshort. unfold vlen in Hlen. lia.
Qed.

(** In a buffer that ends where the readable bytes end and whose last
    byte is no newline, the search for the end of a line that does not
    start at offset 0 runs off the readable bytes, at the latest for the
    last line. *)
Lemma patch_image_init_loop_fault fuel in_ in_len start lines :
  in_len = vlen in_ ->
  in_ !! Z.to_nat (in_len - 1) ≠ Some NL ->
  0 < start < in_len ->
  in_len - start <= Z.of_nat fuel ->
  patch_image_init_loop fuel in_ in_len start lines = None.
Proof.
  intros Hlen Hlast. revert start lines.
  induction fuel as [|fuel IH]; intros start lines Hstart Hfuel; simpl; [lia|].
  rewrite decide_True by lia.
  destruct (memchr _ _ _) as [[off|]|] eqn:M; simpl; [| |done].
  - apply memchr_Some in M as (H0 & H1 & H2).
    rewrite lookup_drop in H2.
    assert (Hin : start + off < in_len).
    { apply lookup_lt_Some in H2. unfold vlen in Hlen. lia. }
    rewrite decide_True by done.
    assert (Hne : start + off ≠ in_len - 1).
    { intros Heq. apply Hlast. rewrite <- H2. f_equal. lia. }
    apply IH; lia.
  - apply memchr_None in M as [_ M]. rewrite length_drop in M.
    unfold vlen in Hlen. lia.
Qed.

(** X1.  Building the line image of a buffer and writing the lines out
    again, [serialize(build(B))].  Whenever the image is built and no
    newline can be read behind the buffer, [image_put] appends exactly
    the [in_len] bytes at [in] to what [out] holds.  The image is built
    when the buffer is empty, when its last byte is a newline, and when it
    has no newline at all.  It is not built when the buffer ends where the
    readable bytes end, has a newline and does not end with one: the
    search for the end of its last line reads behind the readable
    bytes. *)
Theorem patch_image_init_fromstr_roundtrip (in_ : list byte) (in_len : Z)
    (out : git_buf) :
  0 <= in_len <= vlen in_ ->
  (NL ∉ drop (Z.to_nat in_len) in_ ->
   forall e image,
     patch_image_init_fromstr in_ in_len = Some (e, image) ->
     e = 0 /\ image_put out image = Some (out ++ buffer_bytes in_ in_len)) /\
  (in_len = 0 \/ in_ !! Z.to_nat (in_len - 1) = Some NL
   \/ NL ∉ buffer_bytes in_ in_len ->
   is_Some (patch_image_init_fromstr in_ in_len)) /\
  (in_len = vlen in_ -> NL ∈ in_ ->
   in_ !! Z.to_nat (in_len - 1) ≠ Some NL ->
   patch_image_init_fromstr in_ in_len = None).
Proof.
  intros Hlen. split_and!.
  - intros Hnl e image Himage. split.
    + unfold patch_image_init_fromstr in Himage.
      destruct (patch_image_init_loop _ _ _ _ _); simpl in Himage; [|done].
      by injection Himage as <- _.
    + apply (patch_image_roundtrip_no_newline_behind _ _ _ e); [lia|done..].
  - intros Hcase. unfold patch_image_init_fromstr.
    assert (Hsome : is_Some (patch_image_init_loop (Z.to_nat in_len) in_
                               in_len 0 [])); [|by destruct Hsome as [? ->]].
    destruct Hcase as [->|[Hlast|Hnone]]; [done| |].
    + apply patch_image_init_loop_defined; [lia|].
      intros s Hs. left. apply list_elem_of_lookup.
      exists (Z.to_nat (in_len - 1) - Z.to_nat s)%nat.
      rewrite lookup_drop, <- Hlast. f_equal. lia.
    + destruct (decide (in_len = 0)) as [->|Hpos]; [done|].
      replace (patch_image_init_loop (Z.to_nat in_len))
        with (patch_image_init_loop (S (Z.to_nat (in_len - 1))))
        by (f_equal; lia).
      rewrite patch_image_init_loop_step by lia.
      change (Z.to_nat 0) with 0%nat. rewrite drop_0.
      rewrite (memchr_not_found _ _ _ Hnone) by (unfold vlen in Hlen; lia).
      simpl. by rewrite patch_image_init_loop_done by lia.
  - intros Hend Hin Hlast. unfold patch_image_init_fromstr.
    assert (Hpos : 0 < in_len).
    { destruct in_; [by apply elem_of_nil in Hin|].
      unfold vlen in Hend. simpl in Hend. lia. }
    replace (patch_image_init_loop (Z.to_nat in_len))
      with (patch_image_init_loop (S (Z.to_nat (in_len - 1))))
      by (f_equal; lia).
    rewrite patch_image_init_loop_step by lia.
    change (Z.to_nat 0) with 0%nat. rewrite drop_0.
    destruct (memchr in_ NL (Z.to_nat in_len)) as [[off|]|] eqn:M; simpl;
      [| |done].
    + apply memchr_Some in M as (H0 & H1 & H2).
      rewrite decide_True by lia.
      assert (Hne : off ≠ in_len - 1) by (intros ->; done).
      rewrite (patch_image_init_loop_fault _ in_ in_len (0 + off + 1))
        by (done || lia).
      done.
    + apply memchr_None in M as [M _]. exfalso. apply M.
      rewrite take_ge by (unfold vlen in Hend; lia). done.
Qed.

(** X2.  Whatever lies behind the buffer, the image that
    [patch_image_init_fromstr] builds is laid out over the bytes at [in]:
    no pointer is null, the first line starts at offset 0, every line
    starts where the one before it ends and has at least one byte, no line
    has a newline in front of its last byte, and every line but the last
    ends with one.  There are at most [in_len] lines, none for an empty
    buffer, and for a non-empty buffer the lines reach at least to its
    end.  The return value is 0, and for an empty buffer the image is
    built whatever is readable. *)
Theorem patch_image_init_fromstr_laid_out (in_ : list byte) (in_len : Z) :
  (in_len <= 0 -> patch_image_init_fromstr in_ in_len = Some (0, [])) /\
  forall e image,
    patch_image_init_fromstr in_ in_len = Some (e, image) ->
    e = 0 /\
    lines_laid_out in_ 0 image /\
    vlen image <= Z.max 0 in_len /\
    (in_len <= 0 -> image = []) /\
    (0 < in_len -> image ≠ [] /\ in_len <= lines_end 0 image).
Proof.
  assert (Hempty : in_len <= 0 ->
    patch_image_init_fromstr in_ in_len = Some (0, [])).
  { intros Hle. unfold patch_image_init_fromstr.
    destruct (Z.to_nat in_len) eqn:E; simpl; [done|].
    by rewrite decide_False by lia. }
  split; [done|]. intros e image Himage.
  assert (Hloop : patch_image_init_loop (Z.to_nat in_len) in_ in_len 0 []
                  = Some image /\ e = 0).
  { unfold patch_image_init_fromstr in Himage.
    destruct (patch_image_init_loop _ _ _ _ _); simpl in Himage; [|done].
    by injection Himage as <- <-. }
  destruct Hloop as [Hloop ->].
  destruct (patch_image_init_loop_laid_out (Z.to_nat in_len) in_ in_len 0
              image ltac:(lia) ltac:(lia) Hloop) as (H1 & H2 & H3).
  rewrite Z.sub_0_r in H2. split_and!; try done.
  intros Hle. rewrite (Hempty Hle) in Himage. by injection Himage as <-.
Qed.

(** ** Splice and hunks *)

(** X3.  [update_hunk] at a line number at which the preimage fits
    replaces the lines of the preimage by those of the postimage: the
    lines in front of [linenum] and those behind the preimage stay, in
    order, and the image grows or shrinks by the difference of the two
    lengths. *)
Theorem update_hunk_replaces_range (image : patch_image) (linenum : Z)
    (preimage postimage : patch_image) :
  0 <= linenum ->
  linenum + vlen preimage <= vlen image ->
  vlen image + vlen postimage <= 2 ^ SIZE_BITS ->
  exists image',
    update_hunk image linenum preimage postimage = Some (0, image') /\
    image' = take (Z.to_nat linenum) image ++ postimage
               ++ drop (Z.to_nat (linenum + vlen preimage)) image /\
    vlen image' = vlen image - vlen preimage + vlen postimage.
Proof.
  intros Hl Hfit Hmem. eexists. split; [by apply update_hunk_splice|].
  split; [done|]. pose proof (vlen_nonneg preimage).
  unfold vlen in *. rewrite !length_app, length_take, length_drop. lia.
Qed.

Lemma apply_hunk_images_missing patch hunk n i preimage postimage :
  0 <= line_start hunk -> 0 <= i ->
  line_start hunk + i <= vlen (patch_lines patch) ->
  vlen (patch_lines patch) < line_start hunk + i + Z.of_nat n ->
  vlen (patch_lines patch) < 2 ^ SIZE_BITS ->
  apply_hunk_images patch hunk n i preimage postimage
  = inr (vlen (patch_lines patch)).
Proof.
  revert i preimage postimage.
  induction n as [|n IH]; intros i pre post Hs Hi Hle Hlt Hmem; simpl; [lia|].
  rewrite size_add_small by lia. unfold git_array_get.
  destruct (decide (line_start hunk + i < vlen (patch_lines patch))) as [Hin|Hout].
  - destruct (lookup_lt_is_Some_2 (patch_lines patch)
                (Z.to_nat (line_start hunk + i))) as [line Hline];
      [unfold vlen in Hin; lia|].
    rewrite Hline. apply IH; lia.
  - f_equal. lia.
Qed.

(** X4.  The first loop of [apply_hunk] sorts the lines of a hunk that
    lie in the line table by origin, keeping their order: context and
    deletion lines make the preimage, context and addition lines the
    postimage, lines of another origin go to neither.  When the hunk
    starts in the table and runs over its end, the loop stops at the
    first line that is not there, the one numbered with the size of the
    table. *)
Theorem apply_hunk_images_partition (patch : git_patch)
    (hunk : git_patch_hunk) :
  0 <= line_start hunk <= vlen (patch_lines patch) ->
  0 <= line_count hunk ->
  vlen (patch_lines patch) < 2 ^ SIZE_BITS ->
  let images :=
    apply_hunk_images patch hunk (Z.to_nat (line_count hunk)) 0 [] [] in
  (line_start hunk + line_count hunk <= vlen (patch_lines patch) ->
   images
   = inl (Some <$> List.filter (fun l => is_preimage_origin (origin l))
                     (hunk_lines patch hunk),
          Some <$> List.filter (fun l => is_postimage_origin (origin l))
                     (hunk_lines patch hunk))) /\
  (vlen (patch_lines patch) < line_start hunk + line_count hunk ->
   images = inr (vlen (patch_lines patch))).
Proof.
  intros Hstart Hcount Hmem images. subst images. split; intros H.
  - rewrite apply_hunk_images_spec by lia. simpl.
    by rewrite Z.add_0_r.
  - apply apply_hunk_images_missing; lia.
Qed.

(** X5.  [apply_hunk] on a hunk that starts in the line table and runs
    over its end fails with "preimage does not contain line <n>", [n]
    being the size of the table, and leaves the image as it is; the
    preimage is not tried anywhere. *)
Theorem apply_hunk_missing_line (image : patch_image) (patch : git_patch)
    (hunk : git_patch_hunk) (err : giterr) :
  0 <= line_start hunk <= vlen (patch_lines patch) ->
  vlen (patch_lines patch) < line_start hunk + line_count hunk ->
  vlen (patch_lines patch) < 2 ^ SIZE_BITS ->
  apply_hunk image patch hunk err
  = Some (GIT_EAPPLYFAIL, image,
          Some (ERR_PREIMAGE_MISSING_LINE (vlen (patch_lines patch)))).
Proof.
  intros Hstart Hover Hmem. unfold apply_hunk.
  by rewrite apply_hunk_images_missing by lia.
Qed.

(** X6.  When the lines of a hunk are all in the patch and its preimage
    matches at the anchor, [apply_hunk] returns 0 and leaves the image
    with the lines of the preimage replaced by those of the postimage,
    at the anchor: the lines in front of the anchor and those behind the
    preimage are the ones that were there. *)
Theorem apply_hunk_replaces_preimage (image : patch_image)
    (patch : git_patch) (hunk : git_patch_hunk) (err : giterr)
    (preimage postimage : patch_image) :
  0 <= new_start hunk < 2 ^ 31 ->
  vlen image < 2 ^ 32 ->
  vlen preimage < 2 ^ 32 -> vlen postimage < 2 ^ 32 ->
  apply_hunk_images patch hunk (Z.to_nat (line_count hunk)) 0 [] []
  = inl (preimage, postimage) ->
  match_hunk image preimage (hunk_anchor image hunk) = Some true ->
  exists image',
    apply_hunk image patch hunk err = Some (0, image', err) /\
    image' = take (Z.to_nat (hunk_anchor image hunk)) image ++ postimage
               ++ drop (Z.to_nat (hunk_anchor image hunk + vlen preimage))
                    image /\
    vlen image' = vlen image - vlen preimage + vlen postimage.
Proof.
  intros Hns Himage Hpre Hpost Himages Hmatch.
  eexists. split.
  { by rewrite (apply_hunk_splice image patch hunk err preimage postimage). }
  split; [done|].
  assert (Hfit : hunk_anchor image hunk + vlen preimage <= vlen image).
  { apply match_hunk_fits; [|unfold SIZE_BITS; lia|done].
    pose proof (vlen_nonneg image). unfold hunk_anchor, SIZE_BITS.
    case_decide; lia. }
  assert (0 <= hunk_anchor image hunk).
  { pose proof (vlen_nonneg image). unfold hunk_anchor. case_decide; lia. }
  pose proof (vlen_nonneg preimage).
  unfold vlen in *. rewrite !length_app, length_take, length_drop. lia.
Qed.

Lemma apply_hunk_cases (image : patch_image) (patch : git_patch)
    (hunk : git_patch_hunk) (err : giterr) e image' err' :
  apply_hunk image patch hunk err = Some (e, image', err') ->
  (e = 0 /\ err' = err) \/
  (e = GIT_EAPPLYFAIL /\ image' = image /\
   ((exists n, err' = Some (ERR_PREIMAGE_MISSING_LINE n)) \/
    err' = Some (ERR_HUNK_DID_NOT_APPLY (new_start hunk)))).
Proof.
  unfold apply_hunk, update_hunk.
  destruct (apply_hunk_images _ _ _ _ _ _) as [[pre post]|linenum]; simpl.
  2:{ intros [= <- <- <-]. right. split_and!; try done. left. by eexists. }
  destruct (find_hunk_linenum _ _ _) as [[line_num [|]]|]; simpl; [| |done].
  - destruct (if decide (vlen post > vlen pre) then _ else _); simpl; [|done].
    destruct (update_hunk_assign _ _ _ _ _); simpl; [|done].
    intros [= <- _ <-]. by left.
  - intros [= <- <- <-]. right. split_and!; try done. by right.
Qed.

(** X7.  [apply_hunk] returns 0 or [GIT_EAPPLYFAIL] and nothing else.
    When it fails the image is as it was, and the message is one of
    "preimage does not contain line" and "hunk at line <new_start> did
    not apply"; when it returns 0 the error slot is as it was. *)
Theorem apply_hunk_outcome (image : patch_image) (patch : git_patch)
    (hunk : git_patch_hunk) (err : giterr) e image' err' :
  apply_hunk image patch hunk err = Some (e, image', err') ->
  (e = 0 /\ err' = err) \/
  (e = GIT_EAPPLYFAIL /\ image' = image /\
   ((exists n, err' = Some (ERR_PREIMAGE_MISSING_LINE n)) \/
    err' = Some (ERR_HUNK_DID_NOT_APPLY (new_start hunk)))).
Proof. apply apply_hunk_cases. Qed.

Lemma image_put_prefix out lines out' :
  image_put out lines = Some out' -> out `prefix_of` out'.
Proof.
  revert out. induction lines as [|[line|] lines IH]; intros out; simpl.
  - by intros [= <-].
  - intros H. apply IH in H. etrans; [|done].
    unfold git_buf_put. by apply prefix_app_r.
  - done.
Qed.

(** X8.  [apply_hunks] is all or nothing: it returns 0 or
    [GIT_EAPPLYFAIL]; when it fails nothing has been written to [out],
    and when it returns 0 the bytes that were in [out] are still there,
    in front of what was written, and the error slot is as it was. *)
Theorem apply_hunks_all_or_nothing (out : git_buf) (source : list byte)
    (source_len : Z) (patch : git_patch) (err : giterr) e out' err' :
  apply_hunks out source source_len patch err = Some (e, out', err') ->
  (e = GIT_EAPPLYFAIL /\ out' = out) \/
  (e = 0 /\ out `prefix_of` out' /\ err' = err).
Proof using GIT_EAPPLYFAIL_neg.
  rewrite apply_hunks_unfold.
  destruct (patch_image_init_loop _ _ _ _ _) as [image|]; simpl; [|done].
  assert (Hloop : forall todo image0 e0 image1 err1,
    apply_hunks_loop image0 patch todo 0 err = Some (e0, image1, err1) ->
    e0 = GIT_EAPPLYFAIL \/ (e0 = 0 /\ err1 = err)).
  { induction todo as [|hunk todo IH]; intros image0 e0 image1 err1; simpl.
    { intros [= <- _ <-]. by right. }
    destruct (apply_hunk image0 patch hunk err)
      as [[[e1 image2] err2]|] eqn:H1; simpl; [|done].
    apply apply_hunk_cases in H1 as [[-> ->]|(-> & _)].
    - rewrite decide_False by lia. apply IH.
    - rewrite decide_True by lia. intros [= <- _ _]. by left. }
  destruct (apply_hunks_loop image patch (hunks patch) 0 err)
    as [[[e1 image1] err1]|] eqn:H1; simpl; [|done].
  apply Hloop in H1 as [->|[-> ->]].
  - rewrite decide_True by lia. intros [= <- <- _]. by left.
  - rewrite decide_False by lia.
    destruct (image_put out image1) as [o|] eqn:Hput; simpl; [|done].
    intros [= <- <- <-]. right. split_and!; try done.
    by eapply image_put_prefix.
Qed.

Lemma image_put_lines_equal out (v1 v2 : git_vector) :
  Forall2 lines_equal v1 v2 -> image_put out v1 = image_put out v2.
Proof.
  intros H. revert out.
  induction H as [|p q v1 v2 (l1 & l2 & -> & -> & Hlen & Hbytes) _ IH];
    intros out; simpl; [done|].
  unfold git_buf_put. unfold line_bytes in Hbytes. by rewrite Hbytes, IH.
Qed.

Lemma image_put_middle out (A M M' B : git_vector) :
  Forall2 lines_equal M M' ->
  image_put out (A ++ M ++ B) = image_put out (A ++ M' ++ B).
Proof.
  intros H. rewrite (image_put_app out A), (image_put_app out A (M' ++ B)).
  destruct (image_put out A) as [o|]; simpl; [|done].
  rewrite (image_put_app o M), (image_put_app o M').
  by rewrite (image_put_lines_equal o M M').
Qed.

Lemma context_images lines :
  Forall (fun line => origin line = Some GIT_DIFF_LINE_CONTEXT) lines ->
  List.filter (fun l => is_preimage_origin (origin l)) lines = lines /\
  List.filter (fun l => is_postimage_origin (origin l)) lines = lines.
Proof.
  induction 1 as [|line lines Ho _ [IH1 IH2]]; simpl; [done|].
  rewrite Ho. simpl. by rewrite IH1, IH2.
Qed.

Lemma apply_hunk_context_cases (image : patch_image) (patch : git_patch)
    (hunk : git_patch_hunk) (err : giterr) e image' err' :
  hunk_in_table patch hunk ->
  Forall (fun line => origin line = Some GIT_DIFF_LINE_CONTEXT)
         (hunk_lines patch hunk) ->
  0 <= new_start hunk < 2 ^ 31 ->
  vlen image < 2 ^ 32 ->
  vlen (patch_lines patch) < 2 ^ 32 ->
  apply_hunk image patch hunk err = Some (e, image', err') ->
  (forall out, image_put out image' = image_put out image) /\
  vlen image' = vlen image.
Proof.
  intros (Hstart & Hcount & Htable) Hctx Hns Himage Hmem Happly.
  pose proof (vlen_nonneg image) as Hlen.
  assert (Himages :
    apply_hunk_images patch hunk (Z.to_nat (line_count hunk)) 0 [] []
    = inl (Some <$> hunk_lines patch hunk, Some <$> hunk_lines patch hunk)).
  { rewrite apply_hunk_images_spec by (unfold SIZE_BITS; lia). simpl.
    rewrite Z.add_0_r. fold (hunk_lines patch hunk).
    by destruct (context_images _ Hctx) as [-> ->]. }
  set (pre := Some <$> hunk_lines patch hunk) in *.
  assert (Hpre : vlen pre < 2 ^ 32).
  { unfold pre. rewrite vlen_fmap_Some. unfold hunk_lines, vlen in *.
    rewrite length_take, length_drop. lia. }
  destruct (match_hunk image pre (hunk_anchor image hunk)) as [[|]|] eqn:M.
  - rewrite (apply_hunk_splice image patch hunk err pre pre) in Happly
      by done.
    injection Happly as <- <- <-.
    assert (Htarget : 0 <= hunk_anchor image hunk <= vlen image).
    { unfold hunk_anchor. case_decide; lia. }
    assert (Hfit : hunk_anchor image hunk + vlen pre <= vlen image).
    { apply match_hunk_fits; [unfold SIZE_BITS; lia..|done]. }
    unfold match_hunk in M. case_decide; [done|].
    rewrite match_hunk_loop_true in M.
    set (a := Z.to_nat (hunk_anchor image hunk)) in *.
    set (n := length pre) in *.
    replace (Z.to_nat (hunk_anchor image hunk + vlen pre))
      with (a + n)%nat by (unfold vlen; lia).
    split.
    2:{ unfold vlen in *. rewrite !length_app, length_take, length_drop. lia. }
    intros out.
    rewrite (image_put_middle out (take a image) pre
               (take n (drop a image)) (drop (a + n) image)).
    { by rewrite <- drop_drop, !take_drop. }
    apply Forall2_same_length_lookup_2.
    { rewrite length_take, length_drop. unfold vlen in *. lia. }
    intros i x y Hx Hy.
    assert (Hi : (i < n)%nat) by (by apply lookup_lt_Some in Hx).
    specialize (M i Hi). simpl in M.
    rewrite size_add_small in M by (unfold SIZE_BITS, vlen in *; lia).
    rewrite lookup_take_lt, lookup_drop in Hy by done.
    unfold git_vector_get in M.
    replace (Z.to_nat (hunk_anchor image hunk + (0 + Z.of_nat i)))
      with (a + i)%nat in M by lia.
    replace (Z.to_nat (0 + Z.of_nat i)) with i in M by lia.
    rewrite Hx, Hy in M. simpl in M.
    destruct M as (l1 & l2 & -> & -> & Hlen' & Hbytes).
    exists l2, l1. by split_and!.
  - unfold apply_hunk, find_hunk_linenum in Happly. rewrite Himages in Happly.
    cbv zeta in Happly.
    rewrite (apply_hunk_line_num image hunk Hns), M in Happly.
    simpl in Happly. by injection Happly as <- <- <-.
  - unfold apply_hunk, find_hunk_linenum in Happly. rewrite Himages in Happly.
    cbv zeta in Happly.
    by rewrite (apply_hunk_line_num image hunk Hns), M in Happly.
Qed.

(** X9.  A hunk of context lines only changes no byte of the file: if
    [apply_hunk] returns at all, with 0 or with an error, the image it
    leaves has as many lines as the image it was given and serializes to
    the same bytes.  (On a match the pointers into the source are
    replaced by pointers into the patch, to lines of the same bytes.) *)
Theorem apply_hunk_context_only (image : patch_image) (patch : git_patch)
    (hunk : git_patch_hunk) (err : giterr) e image' err' :
  hunk_in_table patch hunk ->
  Forall (fun line => origin line = Some GIT_DIFF_LINE_CONTEXT)
         (hunk_lines patch hunk) ->
  0 <= new_start hunk < 2 ^ 31 ->
  vlen image < 2 ^ 32 ->
  vlen (patch_lines patch) < 2 ^ 32 ->
  apply_hunk image patch hunk err = Some (e, image', err') ->
  (forall out, image_put out image' = image_put out image) /\
  vlen image' = vlen image.
Proof. apply apply_hunk_context_cases. Qed.

(** X10.  A hunk of addition lines only has an empty preimage, which
    matches wherever it is tried: [apply_hunk] never fails on it, and it
    inserts the lines at the anchor, [new_start - 1] or the end of the
    image if that is less, in front of the line that was there. *)
Theorem apply_hunk_inserts_additions (image : patch_image)
    (patch : git_patch) (hunk : git_patch_hunk) (err : giterr) :
  only_additions patch hunk ->
  0 <= new_start hunk < 2 ^ 31 ->
  vlen (patch_lines patch) <= 2 ^ SIZE_BITS ->
  vlen image + vlen (hunk_lines patch hunk) < 2 ^ 32 ->
  apply_hunk image patch hunk err
  = Some (0,
          take (Z.to_nat (hunk_anchor image hunk)) image
            ++ (Some <$> hunk_lines patch hunk)
            ++ drop (Z.to_nat (hunk_anchor image hunk)) image,
          err).
Proof.
  intros (Hstart & Hcount & Htable & Hadd) Hns Hmem Hsize.
  pose proof (vlen_nonneg image) as Hlen.
  pose proof (vlen_nonneg (hunk_lines patch hunk)) as Hlines.
  assert (Htarget : 0 <= hunk_anchor image hunk <= vlen image).
  { unfold hunk_anchor. case_decide; lia. }
  unfold apply_hunk.
  rewrite apply_hunk_images_spec by lia. simpl.
  rewrite Z.add_0_r. fold (hunk_lines patch hunk).
  rewrite additions_preimage, additions_postimage by done. simpl.
  unfold find_hunk_linenum. cbv zeta.
  rewrite (apply_hunk_line_num _ hunk Hns). unfold match_hunk.
  rewrite size_add_small by (unfold vlen, SIZE_BITS in *; simpl; lia).
  rewrite decide_False by (unfold vlen in *; simpl; lia).
  simpl. rewrite uint_wrap_small by lia.
  rewrite update_hunk_splice;
    rewrite ?vlen_fmap_Some; try (unfold vlen, SIZE_BITS in *; simpl; lia).
  simpl. change (vlen []) with 0. by rewrite Z.add_0_r.
Qed.

(** ** Binary patches *)

Lemma apply_binary_delta_literal out source source_len binary_file err :
  type binary_file = GIT_DIFF_BINARY_LITERAL ->
  datalen binary_file ≠ 0 ->
  (git_zstream_inflatebuf
     (take (Z.to_nat (datalen binary_file)) (data binary_file))).1 <= 0 ->
  apply_binary_delta out source source_len binary_file err
  = let inflated :=
      git_zstream_inflatebuf
        (take (Z.to_nat (datalen binary_file)) (data binary_file)) in
    if decide (inflated.1 = 0) then
      if decide (vlen inflated.2 = inflatedlen binary_file)
      then (0, inflated.2, err)
      else (GIT_EAPPLYFAIL, GIT_BUF_INIT, Some ERR_INFLATED_LENGTH)
    else (inflated.1, out, err).
Proof using GIT_EAPPLYFAIL_neg.
  intros Htype Hlen Hcode. unfold apply_binary_delta.
  destruct (decide (datalen binary_file = 0)) as [Hz|_]; [by destruct Hlen|].
  destruct (git_zstream_inflatebuf _) as [c inflated]. simpl in *.
  destruct (decide (c = 0 /\ vlen inflated ≠ inflatedlen binary_file))
    as [[-> Hbad]|Hok]; simpl.
  - destruct (decide (GIT_EAPPLYFAIL < 0)); [|lia].
    destruct (decide (0 = 0)); [|done].
    by destruct (decide (vlen inflated = inflatedlen binary_file)).
  - destruct (decide (c < 0)).
    + destruct (decide (c = 0)); [lia|done].
    + assert (c = 0) as -> by lia. destruct (decide (0 = 0)); [|done].
      rewrite Htype. destruct (decide (vlen inflated = inflatedlen binary_file));
        [done|]. by destruct Hok.
Qed.

(** X11.  For a binary patch with two literal payloads, both non-empty,
    and an inflation that returns 0 or a negative code: [apply_binary]
    returns 0 exactly when both payloads inflate, each to its declared
    [inflatedlen], and the [old_file] payload inflates to the bytes of the
    source; the output is then the inflated [new_file] payload, whatever
    was in [out], and no message is set. *)
Theorem apply_binary_literal (out : git_buf) (source : list byte)
    (source_len : Z) (patch : git_patch) (out' : git_buf) (err' : giterr) :
  (forall d, (git_zstream_inflatebuf d).1 <= 0) ->
  contains_data (binary patch) = true ->
  type (binary_new_file (binary patch)) = GIT_DIFF_BINARY_LITERAL ->
  type (binary_old_file (binary patch)) = GIT_DIFF_BINARY_LITERAL ->
  datalen (binary_new_file (binary patch)) ≠ 0 ->
  datalen (binary_old_file (binary patch)) ≠ 0 ->
  0 <= source_len <= vlen source ->
  let inflate payload :=
    git_zstream_inflatebuf (take (Z.to_nat (datalen payload)) (data payload)) in
  let new_ := inflate (binary_new_file (binary patch)) in
  let old_ := inflate (binary_old_file (binary patch)) in
  apply_binary out source source_len patch None = (0, out', err')
  <-> new_.1 = 0 /\ vlen new_.2 = inflatedlen (binary_new_file (binary patch)) /\
      old_.1 = 0 /\ vlen old_.2 = inflatedlen (binary_old_file (binary patch)) /\
      old_.2 = buffer_bytes source source_len /\
      out' = new_.2 /\ err' = None.
Proof using GIT_EAPPLYFAIL_neg.
  intros Hcode Hdata Hnew Hold Hnlen Holen Hlen inflate new_ old_.
  pose proof (Hcode (take (Z.to_nat (datalen (binary_new_file (binary patch))))
                          (data (binary_new_file (binary patch))))) as Hn.
  pose proof (Hcode (take (Z.to_nat (datalen (binary_old_file (binary patch))))
                          (data (binary_old_file (binary patch))))) as Ho.
  unfold apply_binary. rewrite Hdata. simpl.
  destruct (decide (datalen (binary_old_file (binary patch)) = 0
                    /\ datalen (binary_new_file (binary patch)) = 0))
    as [[? _]|_]; [done|].
  rewrite (apply_binary_delta_literal out) by done.
  cbv zeta. subst inflate. cbv beta in new_, old_.
  fold new_. fold new_ in Hn. fold old_ in Ho.
  destruct (decide (new_.1 = 0)) as [Hn0|Hn0]; simpl.
  2:{ destruct (decide (new_.1 < 0)); [|lia]. simpl.
      destruct (decide (new_.1 < 0)); [|lia].
      split; [intros [= ? _ _]; lia|intros (? & _); done]. }
  destruct (decide (vlen new_.2 = inflatedlen (binary_new_file (binary patch))))
    as [Hnl|Hnl]; simpl.
  2:{ destruct (decide (GIT_EAPPLYFAIL < 0)); [|lia]. simpl.
      destruct (decide (GIT_EAPPLYFAIL < 0)); [|lia].
      split; [intros [= ? _ _]; lia|intros (_ & ? & _); done]. }
  destruct (decide (0 < 0)); [lia|].
  rewrite (apply_binary_delta_literal GIT_BUF_INIT) by done.
  cbv zeta. fold old_.
  destruct (decide (old_.1 = 0)) as [Ho0|Ho0]; simpl.
  2:{ destruct (decide (old_.1 < 0)); [|lia]. simpl.
      destruct (decide (old_.1 < 0)); [|lia].
      split; [intros [= ? _ _]; lia|intros (_ & _ & ? & _); done]. }
  destruct (decide (vlen old_.2 = inflatedlen (binary_old_file (binary patch))))
    as [Hol|Hol]; simpl.
  2:{ destruct (decide (GIT_EAPPLYFAIL < 0)); [|lia]. simpl.
      destruct (decide (GIT_EAPPLYFAIL < 0)); [|lia].
      split; [intros [= ? _ _]; lia|intros (_ & _ & _ & ? & _); done]. }
  destruct (decide (0 < 0)); [lia|].
  destruct (bool_decide _ || negb _) eqn:Hc; simpl.
  - destruct (decide (GIT_EAPPLYFAIL < 0)); [|lia].
    split; [intros [= ? _ _]; lia|].
    intros (_ & _ & _ & _ & Hrev & _). exfalso.
    apply (apply_binary_check source source_len old_.2 Hlen) in Hrev.
    congruence.
  - destruct (decide (0 < 0)); [lia|].
    apply (apply_binary_check source source_len old_.2 Hlen) in Hc.
    split; [intros [= <- <-]; by split_and!|].
    by intros (_ & _ & _ & _ & _ & -> & ->).
Qed.

(** X12.  With collaborators that return 0 or a negative code,
    [apply_binary] returns 0 or a negative code, and whenever it fails
    the buffer [out] is empty: what the forward application wrote is
    given up when the reverse application or the comparison fails. *)
Theorem apply_binary_no_output_on_failure (out : git_buf)
    (source : list byte) (source_len : Z) (patch : git_patch) (err : giterr) :
  (forall d, (git_zstream_inflatebuf d).1 <= 0) ->
  (forall base d, (git_delta_apply base d).1 <= 0) ->
  let r := apply_binary out source source_len patch err in
  r.1.1 <= 0 /\ (r.1.1 < 0 -> r.1.2 = GIT_BUF_INIT).
Proof using GIT_EAPPLYFAIL_neg.
  intros Hinflate Hdelta. by apply apply_binary_code.
Qed.

(** X13.  A patch that is flagged binary is applied as a binary patch
    whatever hunks it has: [git_apply__patch] does not look at its hunks
    or at its line table. *)
Theorem git_apply__patch_binary_ignores_hunks (contents_out0 : git_buf)
    (source : list byte) (source_len : Z) (patch : git_patch) (err : giterr)
    (hs : list git_patch_hunk) (ls : list git_diff_line) :
  Z.land (flags (delta patch)) GIT_DIFF_FLAG_BINARY ≠ 0 ->
  git_apply__patch contents_out0 source source_len (with_hunks patch hs ls) err
  = git_apply__patch contents_out0 source source_len patch err.
Proof.
  intros Hflag. unfold git_apply__patch. simpl.
  by rewrite !(decide_True _ _ Hflag).
Qed.

(** X14.  A patch all of whose hunks are hunks of context lines leaves
    the file as it is: when [apply_hunks] returns 0 for a buffer behind
    which no newline can be read, what it has appended to [out] is the
    buffer, byte for byte. *)
Theorem apply_hunks_context_only (out : git_buf) (source : list byte)
    (source_len : Z) (patch : git_patch) (err : giterr) out' err' :
  Forall (fun hunk =>
            hunk_in_table patch hunk /\
            Forall (fun line => origin line = Some GIT_DIFF_LINE_CONTEXT)
                   (hunk_lines patch hunk) /\
            0 <= new_start hunk < 2 ^ 31) (hunks patch) ->
  0 <= source_len < 2 ^ 32 ->
  vlen (patch_lines patch) < 2 ^ 32 ->
  NL ∉ drop (Z.to_nat source_len) source ->
  apply_hunks out source source_len patch err = Some (0, out', err') ->
  out' = out ++ buffer_bytes source source_len.
Proof using GIT_EAPPLYFAIL_neg.
  intros Hhunks Hlen Hmem Hnl. rewrite apply_hunks_unfold.
  destruct (patch_image_init_loop _ _ _ _ _) as [image|] eqn:Himg; simpl;
    [|done].
  pose proof (patch_image_init_loop_laid_out (Z.to_nat source_len) source
                source_len 0 image ltac:(lia) ltac:(lia) Himg)
    as (_ & Hcount & _).
  assert (Hround : image_put out image
                   = Some (out ++ take (Z.to_nat source_len) source)).
  { apply (patch_image_roundtrip_no_newline_behind source source_len out 0);
      [lia|done|].
    unfold patch_image_init_fromstr. by rewrite Himg. }
  rewrite Z.sub_0_r, Z.max_r in Hcount by lia.
  assert (Himage : vlen image < 2 ^ 32) by lia. clear Hcount.
  assert (Hloop : forall todo image0 e image1 err1,
    Forall (fun hunk =>
              hunk_in_table patch hunk /\
              Forall (fun line => origin line = Some GIT_DIFF_LINE_CONTEXT)
                     (hunk_lines patch hunk) /\
              0 <= new_start hunk < 2 ^ 31) todo ->
    vlen image0 < 2 ^ 32 ->
    apply_hunks_loop image0 patch todo 0 err = Some (e, image1, err1) ->
    forall o, image_put o image1 = image_put o image0).
  { induction todo as [|hunk todo IH]; intros image0 e image1 err1 Hall Hsz;
      simpl.
    { by intros [= _ <- _]. }
    apply Forall_cons in Hall as [(Htab & Hctx & Hns) Hall].
    destruct (apply_hunk image0 patch hunk err)
      as [[[e1 image2] err2]|] eqn:H1; simpl; [|done].
    pose proof (apply_hunk_context_cases _ _ _ _ _ _ _ Htab Hctx Hns Hsz Hmem H1)
      as [Hbytes Hsame].
    apply apply_hunk_cases in H1 as [[-> ->]|(-> & -> & _)].
    - rewrite decide_False by lia. intros H2 o.
      assert (Hsz2 : vlen image2 < 2 ^ 32) by lia.
      rewrite (IH _ _ _ _ Hall Hsz2 H2). apply Hbytes.
    - rewrite decide_True by lia. by intros [= _ <- _]. }
  destruct (apply_hunks_loop image patch (hunks patch) 0 err)
    as [[[e1 image1] err1]|] eqn:H1; simpl; [|done].
  specialize (Hloop _ _ _ _ _ Hhunks Himage H1 out).
  case_decide; [intros [= ? _ _]; lia|].
  rewrite Hloop, Hround. simpl. by intros [= _ <- _].
Qed.

(** ** One delta of a batch *)

Lemma git_apply__patch_filename contents_out0 source source_len patch err r
    (filename : string) :
  git_apply__patch contents_out0 source source_len patch err = Some r ->
  filename_out r = Some filename ->
  return_code r = 0 /\
  status (delta patch) ≠ GIT_DELTA_DELETED /\
  filename = path (new_file (delta patch)) /\
  mode_out r = if decide (mode (new_file (delta patch)) = 0)
               then GIT_FILEMODE_BLOB
               else mode (new_file (delta patch)).
Proof.
  unfold git_apply__patch.
  destruct (decide (status (delta patch) ≠ GIT_DELTA_DELETED)) as [Hs|Hs];
    (destruct (if decide (Z.land _ _ ≠ 0) then _ else _)
       as [[[e c] err']|]; simpl; [|done]);
    (destruct (decide (e ≠ 0)) as [He|He]; [by intros [= <-]|]);
    apply dec_stable in He.
  - rewrite decide_False by (intros [? _]; done).
    intros [= <-]. simpl. intros [= <-]. split_and!; try done.
    by repeat case_decide.
  - case_decide; by intros [= <-].
Qed.

Lemma apply_one_cases preimage_reader postimage diff i err e postimage' err'
    (d : git_diff_delta) :
  0 <= i -> diff !! Z.to_nat i = Some d ->
  delta (git_patch_from_diff diff i).2 = d ->
  apply_one preimage_reader postimage diff i err = Some (e, postimage', err') ->
  (postimage' = postimage /\ (e < 0 \/ status d = GIT_DELTA_DELETED)) \/
  (e = 0 /\ status d ≠ GIT_DELTA_DELETED /\
   let pre_contents :=
     if decide (status d = GIT_DELTA_ADDED) then GIT_BUF_INIT
     else (preimage_reader (path (old_file d))).2 in
   exists r,
     git_apply__patch GIT_BUF_INIT (git_buf_ptr pre_contents)
       (vlen pre_contents) (git_patch_from_diff diff i).2 err = Some r /\
     return_code r = 0 /\
     err' = error_message r /\
     postimage'
     = <[path (new_file d) :=
           (if decide (mode (new_file d) = 0) then GIT_FILEMODE_BLOB
            else mode (new_file d),
            (git_blob_create_frombuffer (contents_out r)).2)]> postimage).
Proof.
  intros Hi Hd Hpatch. unfold apply_one.
  destruct (git_patch_from_diff diff i) as [e0 patch] eqn:Hfrom.
  simpl in Hpatch. simpl.
  case_decide; [intros [= <- <- <-]; left; split; [done|by left]|].
  unfold git_diff_get_delta.
  case_decide; [|done]. rewrite Hd. simpl.
  case_decide; [intros [= <- <- <-]; left; split; [done|by right]|].
  set (pre := if decide (status d = GIT_DELTA_ADDED) then GIT_BUF_INIT
              else (preimage_reader (path (old_file d))).2).
  assert (Hpre : exists e1,
    (if decide (status d ≠ GIT_DELTA_ADDED)
     then preimage_reader (path (old_file d))
     else (e0, GIT_BUF_INIT)) = (e1, pre)).
  { subst pre. destruct (decide (status d = GIT_DELTA_ADDED)) as [Ha|Ha].
    - rewrite decide_False by (intros Hc; by apply Hc). by exists e0.
    - rewrite decide_True by done.
      destruct (preimage_reader (path (old_file d))) as [e1 buf].
      by exists e1. }
  destruct Hpre as [e1 ->]. clearbody pre.
  case_decide as He1.
  { intros [= <- <- <-]. left. split; [done|]. left.
    case_decide; [apply GIT_EAPPLYFAIL_neg|done]. }
  destruct (git_apply__patch _ _ _ _ _) as [r|] eqn:Hr; simpl; [|done].
  case_decide; [intros [= <- <- <-]; left; split; [done|by left]|].
  destruct (git_blob_create_frombuffer (contents_out r)) as [e2 blob_id]
    eqn:Hblob.
  case_decide; [intros [= <- <- <-]; left; split; [done|by left]|].
  destruct (filename_out r) as [filename|] eqn:Hname; simpl; [|done].
  destruct (git_apply__patch_filename _ _ _ _ _ _ _ Hr Hname)
    as (Hcode & _ & -> & Hmode).
  intros [= <- <- <-]. right. rewrite Hpatch. split_and!; try done.
  exists r. rewrite Hblob, Hmode, Hpatch. by split_and!.
Qed.

(** X15.  What [apply_one] does to the postimage index, for the delta [d]
    at index [i] of a diff whose patch at [i] is a patch of [d]: when it
    fails, and when the delta is a deletion, the index is left as it is;
    otherwise it returns 0, [git_apply__patch] has returned 0 for the
    patch and the contents read at the old path (an empty buffer for an
    added file), and the index has one entry more or replaced, at the new
    path of the delta, with the new mode (the mode of a regular file if
    that is 0) and the identifier of the blob made of the contents that
    [git_apply__patch] has put out; the error slot is the one that it
    left. *)
Theorem apply_one_outcome (preimage_reader : string -> Z * git_buf)
    (postimage : gmap string (Z * list byte)) (diff : list git_diff_delta)
    (i : Z) (err : giterr) (d : git_diff_delta)
    (e : Z) (postimage' : gmap string (Z * list byte)) (err' : giterr) :
  0 <= i -> diff !! Z.to_nat i = Some d ->
  delta (git_patch_from_diff diff i).2 = d ->
  apply_one preimage_reader postimage diff i err = Some (e, postimage', err') ->
  (e < 0 -> postimage' = postimage) /\
  (status d = GIT_DELTA_DELETED -> postimage' = postimage) /\
  (0 <= e -> status d ≠ GIT_DELTA_DELETED ->
   let pre_contents :=
     if decide (status d = GIT_DELTA_ADDED) then GIT_BUF_INIT
     else (preimage_reader (path (old_file d))).2 in
   e = 0 /\
   exists r,
     git_apply__patch GIT_BUF_INIT (git_buf_ptr pre_contents)
       (vlen pre_contents) (git_patch_from_diff diff i).2 err = Some r /\
     return_code r = 0 /\
     err' = error_message r /\
     postimage'
     = <[path (new_file d) :=
           (if decide (mode (new_file d) = 0) then GIT_FILEMODE_BLOB
            else mode (new_file d),
            (git_blob_create_frombuffer (contents_out r)).2)]> postimage).
Proof using GIT_EAPPLYFAIL_neg.
  intros Hi Hd Hpatch Hone.
  destruct (apply_one_cases _ _ _ _ _ _ _ _ _ Hi Hd Hpatch Hone)
    as [[-> [He|Hs]]|(-> & Hs & Hins)]; split_and!; try done; try lia.
Qed.

(** X16.  When [apply_one] reads the preimage.  For a delta that adds or
    deletes a file the reader is not asked: the result is the same with
    any two readers.  For any other delta the old path is read, and when
    that fails, [apply_one] returns the code of the reader, but
    [GIT_EAPPLYFAIL] for [GIT_ENOTFOUND], and leaves the postimage index
    and the error slot as they are. *)
Theorem apply_one_preimage_read (reader reader' : string -> Z * git_buf)
    (postimage : gmap string (Z * list byte)) (diff : list git_diff_delta)
    (i : Z) (err : giterr) (d : git_diff_delta) :
  0 <= i -> diff !! Z.to_nat i = Some d ->
  (status d = GIT_DELTA_ADDED \/ status d = GIT_DELTA_DELETED ->
   apply_one reader postimage diff i err
   = apply_one reader' postimage diff i err) /\
  (status d ≠ GIT_DELTA_ADDED -> status d ≠ GIT_DELTA_DELETED ->
   0 <= (git_patch_from_diff diff i).1 ->
   (reader (path (old_file d))).1 < 0 ->
   apply_one reader postimage diff i err
   = Some (if decide ((reader (path (old_file d))).1 = GIT_ENOTFOUND)
           then GIT_EAPPLYFAIL else (reader (path (old_file d))).1,
           postimage, err)).
Proof.
  intros Hi Hd. unfold apply_one.
  destruct (git_patch_from_diff diff i) as [e0 patch]. simpl.
  assert (Hget : git_diff_get_delta diff i = Some d).
  { unfold git_diff_get_delta. rewrite decide_True; [done|].
    apply lookup_lt_Some in Hd. unfold vlen. lia. }
  rewrite Hget. simpl. split.
  - intros [Hs|Hs]; rewrite Hs.
    + case_decide; [done|].
      rewrite decide_False by discriminate.
      by rewrite decide_False by (intros Hc; by apply Hc).
    + case_decide; [done|]. by rewrite decide_True by done.
  - intros Ha Hdel He0 Hread.
    rewrite decide_False by lia.
    rewrite decide_False by done.
    rewrite decide_True by done.
    destruct (reader (path (old_file d))) as [c buf]. simpl in *.
    by rewrite decide_True by done.
Qed.

(** ** The apply pass *)

(** The apply pass over the deltas from index [i] on: it touches the new
    paths of the deltas that are no deletions and nothing else, keeps the
    entries that are there, and, when it runs to its end, leaves an entry
    at each of these new paths. *)
Lemma apply_pass_cases preimage_reader diff :
  (forall (k : nat) d, diff !! k = Some d ->
     delta (git_patch_from_diff diff (Z.of_nat k)).2 = d) ->
  forall n (i : nat) postimage error err e postimage' err',
  (i + n = length diff)%nat ->
  apply_pass preimage_reader postimage diff n (Z.of_nat i) error err
  = Some (e, postimage', err') ->
  (forall p,
     (forall d, d ∈ drop i diff -> status d ≠ GIT_DELTA_DELETED ->
                p ≠ path (new_file d)) ->
     postimage' !! p = postimage !! p) /\
  (forall p, is_Some (postimage !! p) -> is_Some (postimage' !! p)) /\
  (0 <= e -> forall d, d ∈ drop i diff -> status d ≠ GIT_DELTA_DELETED ->
   is_Some (postimage' !! path (new_file d))).
Proof using GIT_EAPPLYFAIL_neg.
  intros Hpatch.
  induction n as [|n IH]; intros i postimage error err e postimage' err' Hn;
    simpl.
  { intros [= <- <- <-]. rewrite drop_ge by lia. split_and!; try done.
    intros _ d Hd. by apply elem_of_nil in Hd. }
  destruct (lookup_lt_is_Some_2 diff i) as [d Hd]; [lia|].
  rewrite (drop_S _ _ _ Hd).
  destruct (apply_one _ _ _ _ _) as [[[e1 postimage1] err1]|] eqn:Hone;
    simpl; [|done].
  assert (Hd' : diff !! Z.to_nat (Z.of_nat i) = Some d)
    by by rewrite Nat2Z.id.
  destruct (apply_one_cases _ _ _ _ _ _ _ _ _ (Nat2Z.is_nonneg i) Hd'
              (Hpatch _ _ Hd) Hone)
    as [[-> Hfail]|(-> & Hs & r & _ & _ & _ & ->)].
  - case_decide as He1.
    { intros [= <- <- <-]. split_and!; try done. lia. }
    destruct Hfail as [?|Hdel]; [lia|].
    replace (Z.of_nat i + 1) with (Z.of_nat (S i)) by lia.
    intros Hpass.
    destruct (IH (S i) _ _ _ _ _ _ ltac:(lia) Hpass) as (Hframe & Hmono & Hnew).
    split_and!; [|done|].
    + intros p Hp. apply Hframe. intros d' Hin. apply Hp.
      apply elem_of_cons. by right.
    + intros He d' Hin Hs. apply elem_of_cons in Hin as [->|Hin]; [done|].
      by apply Hnew.
  - rewrite decide_False by lia.
    replace (Z.of_nat i + 1) with (Z.of_nat (S i)) by lia.
    intros Hpass.
    destruct (IH (S i) _ _ _ _ _ _ ltac:(lia) Hpass) as (Hframe & Hmono & Hnew).
    split_and!.
    + intros p Hp. rewrite Hframe.
      * apply lookup_insert_ne. intros Heq. symmetry in Heq. revert Heq.
        apply Hp; [|done]. apply elem_of_cons. by left.
      * intros d' Hin. apply Hp. apply elem_of_cons. by right.
    + intros p Hsome. apply Hmono.
      destruct (decide (path (new_file d) = p)) as [<-|Hne].
      * by rewrite lookup_insert_eq.
      * by rewrite lookup_insert_ne.
    + intros He d' Hin Hs'. apply elem_of_cons in Hin as [->|Hin].
      * apply Hmono. by rewrite lookup_insert_eq.
      * by apply Hnew.
Qed.

Lemma remove_old_paths_frame postimage diff (p : string) :
  (forall d, d ∈ diff -> p ≠ path (old_file d)) ->
  remove_old_paths postimage diff !! p = postimage !! p.
Proof.
  revert postimage. unfold remove_old_paths.
  induction diff as [|d diff IH]; intros postimage Hp; simpl; [done|].
  rewrite IH.
  - apply lookup_delete_ne. intros Heq. symmetry in Heq. revert Heq.
    apply Hp, elem_of_cons. by left.
  - intros d' Hin. apply Hp, elem_of_cons. by right.
Qed.

Lemma git_apply_tree_cases pre_reader preimage diff err e out err' :
  (forall (k : nat) d, diff !! k = Some d ->
     delta (git_patch_from_diff diff (Z.of_nat k)).2 = d) ->
  git_apply_tree pre_reader preimage diff err = Some (e, out, err') ->
  (e < 0 /\ out = None) \/
  (0 <= e /\ exists postimage,
     out = Some postimage /\
     (forall p,
        (forall d, d ∈ diff -> p ≠ path (old_file d)) ->
        (forall d, d ∈ diff -> status d ≠ GIT_DELTA_DELETED ->
                   p ≠ path (new_file d)) ->
        postimage !! p = preimage !! p) /\
     (forall d, d ∈ diff -> status d ≠ GIT_DELTA_DELETED ->
        is_Some (postimage !! path (new_file d))) /\
     (forall d, d ∈ diff ->
        (forall d', d' ∈ diff -> status d' ≠ GIT_DELTA_DELETED ->
                    path (old_file d) ≠ path (new_file d')) ->
        postimage !! path (old_file d) = None)).
Proof using GIT_EAPPLYFAIL_neg.
  intros Hpatch. unfold git_apply_tree, git_index_read_tree. simpl.
  rewrite git_apply_tree_remove_spec by (unfold vlen; lia). simpl.
  destruct (apply_pass _ _ _ _ _ _ _) as [[[e1 postimage] err1]|] eqn:Hpass;
    simpl; [|done].
  destruct (apply_pass_cases pre_reader diff Hpatch (length diff) 0%nat
              _ _ _ _ _ _ ltac:(lia) Hpass) as (Hframe & Hmono & Hnew).
  rewrite drop_0 in Hframe, Hnew.
  case_decide; intros [= <- <- <-]; [by left|]. right.
  split; [lia|]. exists postimage. split_and!; try done.
  - intros p Hold Hnewp. rewrite Hframe by done.
    by apply remove_old_paths_frame.
  - by apply Hnew; lia.
  - intros d Hin Hfree. rewrite Hframe by (by apply Hfree).
    by apply remove_old_paths_removed.
Qed.

(** X17.  [git_apply_tree] hands out an index only when every delta has
    applied: on a negative return [*out] is null.  The index that it
    hands out on success agrees with the tree at every path that is
    neither the old path of a delta nor the new path of one that is no
    deletion: the rest of the tree is carried over as it is. *)
Theorem git_apply_tree_frame (pre_reader : string -> Z * git_buf)
    (preimage : gmap string (Z * list byte)) (diff : list git_diff_delta)
    (err : giterr) (e : Z) (out : option (gmap string (Z * list byte)))
    (err' : giterr) :
  (forall (k : nat) d, diff !! k = Some d ->
     delta (git_patch_from_diff diff (Z.of_nat k)).2 = d) ->
  git_apply_tree pre_reader preimage diff err = Some (e, out, err') ->
  (e < 0 -> out = None) /\
  (0 <= e ->
   exists postimage,
     out = Some postimage /\
     forall p,
       (forall d, d ∈ diff -> p ≠ path (old_file d)) ->
       (forall d, d ∈ diff -> status d ≠ GIT_DELTA_DELETED ->
                  p ≠ path (new_file d)) ->
       postimage !! p = preimage !! p).
Proof using GIT_EAPPLYFAIL_neg.
  intros Hpatch Htree.
  destruct (git_apply_tree_cases _ _ _ _ _ _ _ Hpatch Htree)
    as [[He ->]|(He & postimage & -> & Hframe & _)].
  - split; [done|lia].
  - split; [lia|]. intros _. by exists postimage.
Qed.

(** X18.  Renames and deletions in [git_apply_tree].  In the index that
    it hands out there is an entry at the new path of every delta that is
    no deletion, and there is none at the old path of a delta unless that
    path is also the new path of a delta that is no deletion: a file that
    is renamed or deleted is gone from its old path, also when the tree
    had it. *)
Theorem git_apply_tree_old_and_new_paths (pre_reader : string -> Z * git_buf)
    (preimage : gmap string (Z * list byte)) (diff : list git_diff_delta)
    (err : giterr) (e : Z) (postimage : gmap string (Z * list byte))
    (err' : giterr) :
  (forall (k : nat) d, diff !! k = Some d ->
     delta (git_patch_from_diff diff (Z.of_nat k)).2 = d) ->
  git_apply_tree pre_reader preimage diff err
  = Some (e, Some postimage, err') ->
  (forall d, d ∈ diff -> status d ≠ GIT_DELTA_DELETED ->
     is_Some (postimage !! path (new_file d))) /\
  (forall d, d ∈ diff ->
     (forall d', d' ∈ diff -> status d' ≠ GIT_DELTA_DELETED ->
                 path (old_file d) ≠ path (new_file d')) ->
     postimage !! path (old_file d) = None).
Proof using GIT_EAPPLYFAIL_neg.
  intros Hpatch Htree.
  destruct (git_apply_tree_cases _ _ _ _ _ _ _ Hpatch Htree)
    as [[He [=]]|(He & postimage' & [= <-] & _ & Hnew & Hold)].
  by split.
Qed.

(** ** Committing a batch *)

Lemma git_apply__to_workdir_paths_spec diff n (i : nat) paths :
  (i + n = length diff)%nat ->
  git_apply__to_workdir_paths diff n (Z.of_nat i) paths
  = Some (paths ++
          (drop i diff ≫= fun d =>
             if decide (path (old_file d) ≠ path (new_file d))
             then [path (old_file d); path (new_file d)]
             else [path (old_file d)])).
Proof.
  revert i paths. induction n as [|n IH]; intros i paths Hn; simpl.
  { rewrite drop_ge by lia. by rewrite app_nil_r. }
  destruct (lookup_lt_is_Some_2 diff i) as [d Hd]; [lia|].
  unfold git_diff_get_delta. rewrite decide_True by (unfold vlen; lia).
  rewrite Nat2Z.id, Hd. simpl.
  replace (Z.of_nat i + 1) with (Z.of_nat (S i)) by lia.
  rewrite IH by lia. rewrite (drop_S _ _ _ Hd). simpl.
  case_decide; by rewrite <- !app_assoc.
Qed.

Lemma land_lor_flag (strategy flag : Z) :
  Z.land (Z.lor strategy flag) flag = flag.
Proof.
  apply Z.bits_inj'. intros n _.
  rewrite Z.land_spec, Z.lor_spec.
  by destruct (Z.testbit strategy n), (Z.testbit flag n).
Qed.

Lemma land_lor_keep (strategy flag flag' : Z) :
  Z.land strategy flag = flag ->
  Z.land (Z.lor strategy flag') flag = flag.
Proof.
  intros Hflag. apply Z.bits_inj'. intros n _.
  apply (f_equal (fun z => Z.testbit z n)) in Hflag.
  rewrite Z.land_spec in Hflag. rewrite Z.land_spec, Z.lor_spec.
  by destruct (Z.testbit strategy n), (Z.testbit flag n),
       (Z.testbit flag' n).
Qed.

(** X19.  [git_apply__to_workdir] hands the postimage to
    [git_checkout_index] and returns what that returns.  The checkout is
    limited to the paths of the diff: the paths that it is given are the
    old path of every delta and the new path of every delta, in the order
    of the deltas, and no other path.  Its strategy has the flags
    [GIT_CHECKOUT_SAFE] and [GIT_CHECKOUT_DISABLE_PATHSPEC_MATCH], and
    [GIT_CHECKOUT_DONT_UPDATE_INDEX] when the location is the working
    directory. *)
Theorem git_apply__to_workdir_checkout (repo : git_repository)
    (diff : list git_diff_delta) (postimage : gmap string (Z * list byte))
    (opts : git_apply_options) :
  exists checkout_opts,
    git_apply__to_workdir repo diff postimage opts
    = Some (git_checkout_index repo postimage checkout_opts) /\
    checkout_paths checkout_opts
    = (diff ≫= fun d =>
         if decide (path (old_file d) ≠ path (new_file d))
         then [path (old_file d); path (new_file d)]
         else [path (old_file d)]) /\
    (forall p, p ∈ checkout_paths checkout_opts <->
       exists d, d ∈ diff /\
         (p = path (old_file d) \/ p = path (new_file d))) /\
    Z.land (checkout_strategy checkout_opts) GIT_CHECKOUT_SAFE
    = GIT_CHECKOUT_SAFE /\
    Z.land (checkout_strategy checkout_opts)
           GIT_CHECKOUT_DISABLE_PATHSPEC_MATCH
    = GIT_CHECKOUT_DISABLE_PATHSPEC_MATCH /\
    (location opts = GIT_APPLY_LOCATION_WORKDIR ->
     Z.land (checkout_strategy checkout_opts) GIT_CHECKOUT_DONT_UPDATE_INDEX
     = GIT_CHECKOUT_DONT_UPDATE_INDEX) /\
    (location opts ≠ GIT_APPLY_LOCATION_WORKDIR ->
     checkout_strategy checkout_opts
     = Z.lor (Z.lor (checkout_strategy GIT_CHECKOUT_OPTIONS_INIT)
                    GIT_CHECKOUT_SAFE)
             GIT_CHECKOUT_DISABLE_PATHSPEC_MATCH).
Proof.
  unfold git_apply__to_workdir.
  pose proof (git_apply__to_workdir_paths_spec diff (length diff) 0 []
                eq_refl) as Hpaths.
  change (Z.of_nat 0) with 0 in Hpaths. rewrite Hpaths.
  rewrite drop_0. simpl. eexists. split; [done|]. simpl.
  split_and!.
  - done.
  - intros p. rewrite list_elem_of_bind. split.
    + intros (d & Hp & Hd). exists d. split; [done|].
      destruct (decide (path (old_file d) ≠ path (new_file d)));
        rewrite ?elem_of_cons, elem_of_nil in Hp; tauto.
    + intros (d & Hd & Hp). exists d. split; [|done].
      destruct (decide (path (old_file d) ≠ path (new_file d))) as [Hne|Hne];
        rewrite ?elem_of_cons, elem_of_nil.
      * tauto.
      * apply dec_stable in Hne. rewrite <- Hne in Hp. tauto.
  - case_decide.
    + apply land_lor_keep, land_lor_keep, land_lor_flag.
    + apply land_lor_keep, land_lor_flag.
  - case_decide.
    + apply land_lor_keep, land_lor_flag.
    + apply land_lor_flag.
  - intros Hloc. rewrite decide_True by done. apply land_lor_flag.
  - intros Hloc. by rewrite decide_False by done.
Qed.

Lemma git_apply__to_index_remove_spec index diff n (i : nat) :
  (i + n = length diff)%nat ->
  git_apply__to_index_remove index diff n (Z.of_nat i) 0
  = Some (0,
          foldl (fun index d =>
                   if decide (status d = GIT_DELTA_DELETED
                              \/ status d = GIT_DELTA_RENAMED)
                   then delete (path (old_file d)) index else index)
                index (drop i diff)).
Proof.
  revert i index. induction n as [|n IH]; intros i index Hn; simpl.
  { by rewrite drop_ge by lia. }
  destruct (lookup_lt_is_Some_2 diff i) as [d Hd]; [lia|].
  unfold git_diff_get_delta. rewrite decide_True by (unfold vlen; lia).
  rewrite Nat2Z.id, Hd. simpl.
  replace (Z.of_nat i + 1) with (Z.of_nat (S i)) by lia.
  rewrite (drop_S _ _ _ Hd). simpl.
  case_decide; simpl; by rewrite IH by lia.
Qed.

Lemma foldl_remove_lookup (index : gmap string (Z * list byte)) diff
    (p : string) :
  let index' :=
    foldl (fun index d =>
             if decide (status d = GIT_DELTA_DELETED
                        \/ status d = GIT_DELTA_RENAMED)
             then delete (path (old_file d)) index else index)
          index diff in
  ((exists d, d ∈ diff /\ (status d = GIT_DELTA_DELETED
                           \/ status d = GIT_DELTA_RENAMED)
              /\ p = path (old_file d)) ->
   index' !! p = None) /\
  (~ (exists d, d ∈ diff /\ (status d = GIT_DELTA_DELETED
                             \/ status d = GIT_DELTA_RENAMED)
                /\ p = path (old_file d)) ->
   index' !! p = index !! p) /\
  (index !! p = None -> index' !! p = None).
Proof.
  revert index. induction diff as [|d diff IH]; intros index; simpl.
  { split_and!; try done. intros (d & Hd & _). by apply elem_of_nil in Hd. }
  specialize (IH (if decide (status d = GIT_DELTA_DELETED
                             \/ status d = GIT_DELTA_RENAMED)
                  then delete (path (old_file d)) index else index)).
  simpl in IH. destruct IH as (IHrem & IHkeep & IHnone).
  assert (Hnone : index !! p = None ->
    (if decide (status d = GIT_DELTA_DELETED \/ status d = GIT_DELTA_RENAMED)
     then delete (path (old_file d)) index else index) !! p = None).
  { intros Hp. case_decide; [|done].
    rewrite lookup_delete. by case_decide. }
  split_and!.
  - intros (d' & Hin & Hs & ->).
    apply elem_of_cons in Hin as [->|Hin].
    + apply IHnone. rewrite decide_True by done. apply lookup_delete_eq.
    + apply IHrem. by exists d'.
  - intros Hno. rewrite IHkeep.
    + case_decide as Hs; [|done]. apply lookup_delete_ne.
      intros Heq. apply Hno. exists d. split_and!; try done.
      apply elem_of_cons. by left.
    + intros (d' & Hin & Hs & ->). apply Hno. exists d'.
      split_and!; try done. apply elem_of_cons. by right.
  - intros Hp. by apply IHnone, Hnone.
Qed.

Lemma git_apply__to_index_add_spec index postimage n (i : nat) :
  (i + n = length (map_to_list postimage))%nat ->
  git_apply__to_index_add index postimage n (Z.of_nat i) 0
  = Some (0,
          foldl (fun index (entry : string * (Z * list byte)) =>
                   <[entry.1 := entry.2]> index)
                index (drop i (map_to_list postimage))).
Proof.
  revert i index. induction n as [|n IH]; intros i index Hn; simpl.
  { by rewrite drop_ge by lia. }
  destruct (lookup_lt_is_Some_2 (map_to_list postimage) i)
    as [[p [m b]] Hentry]; [lia|].
  unfold git_index_get_byindex, git_index_entrycount.
  rewrite decide_True by (unfold vlen; lia).
  rewrite Nat2Z.id, Hentry. simpl.
  replace (Z.of_nat i + 1) with (Z.of_nat (S i)) by lia.
  rewrite (drop_S _ _ _ Hentry). simpl.
  by rewrite IH by lia.
Qed.

Lemma foldl_add_lookup (entries : list (string * (Z * list byte)))
    (index : gmap string (Z * list byte)) (p : string) :
  NoDup entries.*1 ->
  foldl (fun index (entry : string * (Z * list byte)) =>
           <[entry.1 := entry.2]> index) index entries !! p
  = match (list_to_map entries : gmap string (Z * list byte)) !! p with
    | Some entry => Some entry
    | None => index !! p
    end.
Proof.
  revert index. induction entries as [|[k v] entries IH]; intros index Hnd;
    simpl.
  { by rewrite lookup_empty. }
  apply NoDup_cons in Hnd as [Hk Hnd]. rewrite IH by done.
  destruct (decide (k = p)) as [->|Hne].
  - rewrite (not_elem_of_list_to_map_1 _ _ Hk).
    by rewrite !lookup_insert_eq.
  - by rewrite !lookup_insert_ne by done.
Qed.

Lemma git_apply__to_index_cases repo diff postimage opts :
  exists index,
    git_apply__to_index repo diff postimage opts
    = Some (git_index_write index,
            {| repo_index := index; repo_workdir := repo_workdir repo |}) /\
    forall p,
      (forall entry, postimage !! p = Some entry ->
                     index !! p = Some entry) /\
      (postimage !! p = None ->
       (exists d, d ∈ diff /\ (status d = GIT_DELTA_DELETED
                               \/ status d = GIT_DELTA_RENAMED)
                  /\ p = path (old_file d)) ->
       index !! p = None) /\
      (postimage !! p = None ->
       ~ (exists d, d ∈ diff /\ (status d = GIT_DELTA_DELETED
                                 \/ status d = GIT_DELTA_RENAMED)
                    /\ p = path (old_file d)) ->
       index !! p = repo_index repo !! p).
Proof.
  unfold git_apply__to_index, git_repository_index. simpl.
  pose proof (git_apply__to_index_remove_spec (repo_index repo) diff
                (length diff) 0 eq_refl) as Hremove.
  change (Z.of_nat 0) with 0 in Hremove. rewrite Hremove.
  simpl. rewrite drop_0.
  unfold git_index_entrycount, vlen. rewrite Nat2Z.id.
  match goal with
  | |- context [git_apply__to_index_add ?index _ _ _ _] =>
      pose proof (git_apply__to_index_add_spec index postimage
                    (length (map_to_list postimage)) 0 eq_refl) as Hadd
  end.
  change (Z.of_nat 0) with 0 in Hadd. rewrite Hadd.
  simpl. rewrite drop_0. eexists. split; [done|].
  intros p. rewrite foldl_add_lookup by apply NoDup_fst_map_to_list.
  rewrite list_to_map_to_list.
  destruct (foldl_remove_lookup (repo_index repo) diff p)
    as (Hrem & Hkeep & _).
  split_and!.
  - by intros entry ->.
  - intros ->. apply Hrem.
  - intros ->. apply Hkeep.
Qed.

(** X20.  [git_apply__to_index] merges the postimage into the index of
    the repository and returns what [git_index_write] returns for the
    merged index; the working directory is not touched.  In the merged
    index every entry of the postimage is there as it is in the
    postimage; a path that the postimage does not have is gone if it is
    the old path of a delta that deletes or renames, and has otherwise
    what the index had. *)
Theorem git_apply__to_index_merge (repo : git_repository)
    (diff : list git_diff_delta) (postimage : gmap string (Z * list byte))
    (opts : git_apply_options) :
  exists index,
    git_apply__to_index repo diff postimage opts
    = Some (git_index_write index,
            {| repo_index := index; repo_workdir := repo_workdir repo |}) /\
    forall p,
      (forall entry, postimage !! p = Some entry ->
                     index !! p = Some entry) /\
      (postimage !! p = None ->
       (exists d, d ∈ diff /\ (status d = GIT_DELTA_DELETED
                               \/ status d = GIT_DELTA_RENAMED)
                  /\ p = path (old_file d)) ->
       index !! p = None) /\
      (postimage !! p = None ->
       ~ (exists d, d ∈ diff /\ (status d = GIT_DELTA_DELETED
                                 \/ status d = GIT_DELTA_RENAMED)
                    /\ p = path (old_file d)) ->
       index !! p = repo_index repo !! p).
Proof. apply git_apply__to_index_cases. Qed.

Lemma git_apply_cases repo diff given_opts err e repo' err' :
  (forall (k : nat) d, diff !! k = Some d ->
     delta (git_patch_from_diff diff (Z.of_nat k)).2 = d) ->
  git_apply repo diff given_opts err = Some (e, repo', err') ->
  (e < 0 /\ repo' = repo) \/
  (0 <= giterr__check_version given_opts /\
   exists postimage,
     (forall d, d ∈ diff -> status d ≠ GIT_DELTA_DELETED ->
        is_Some (postimage !! path (new_file d))) /\
     (forall p,
        (forall d, d ∈ diff -> status d ≠ GIT_DELTA_DELETED ->
                   p ≠ path (new_file d)) ->
        postimage !! p = None) /\
     let opts := match given_opts with
                 | Some given => given
                 | None => GIT_APPLY_OPTIONS_INIT
                 end in
     (if decide (location opts = GIT_APPLY_LOCATION_INDEX)
      then git_apply__to_index repo diff postimage opts
      else git_apply__to_workdir repo diff postimage opts)
     = Some (e, repo')).
Proof using GIT_EAPPLYFAIL_neg.
  intros Hpatch. unfold git_apply.
  case_decide; [intros [= <- <- <-]; left; split; [lia|done]|].
  destruct (if decide (location _ = GIT_APPLY_LOCATION_WORKDIR) then _ else _)
    as [e0 pre_reader].
  case_decide; [intros [= <- <- <-]; by left|].
  unfold git_apply_postimage.
  destruct (apply_pass _ _ _ _ _ _ _) as [[[e1 postimage] err1]|] eqn:Hpass;
    simpl; [|done].
  destruct (apply_pass_cases pre_reader diff Hpatch (length diff) 0%nat
              _ _ _ _ _ _ ltac:(lia) Hpass) as (Hframe & _ & Hnew).
  rewrite drop_0 in Hframe, Hnew.
  case_decide; [intros [= <- <- <-]; by left|].
  destruct (if decide (location _ = GIT_APPLY_LOCATION_INDEX) then _ else _)
    as [[e2 repo2]|] eqn:Hcommit; simpl; [|done].
  intros [= <- <- <-]. right. split; [lia|].
  exists postimage. split_and!.
  - apply Hnew. lia.
  - intros p Hp. rewrite Hframe by done. apply lookup_empty.
  - done.
Qed.

(** X21.  [git_apply] changes the repository only in its last step, and
    gets there only when every delta has applied: if the repository that
    it leaves is another than the one it was given, then the version of
    the options was accepted and [git_apply__to_index] (for the location
    "index") or [git_apply__to_workdir] was run, once, on a postimage that
    has an entry at the new path of every delta that is no deletion and
    no entry at any other path. *)
Theorem git_apply_all_or_nothing (repo : git_repository)
    (diff : list git_diff_delta) (given_opts : option git_apply_options)
    (err : giterr) (e : Z) (repo' : git_repository) (err' : giterr) :
  (forall (k : nat) d, diff !! k = Some d ->
     delta (git_patch_from_diff diff (Z.of_nat k)).2 = d) ->
  git_apply repo diff given_opts err = Some (e, repo', err') ->
  repo' ≠ repo ->
  0 <= giterr__check_version given_opts /\
  exists postimage,
    (forall d, d ∈ diff -> status d ≠ GIT_DELTA_DELETED ->
       is_Some (postimage !! path (new_file d))) /\
    (forall p,
       (forall d, d ∈ diff -> status d ≠ GIT_DELTA_DELETED ->
                  p ≠ path (new_file d)) ->
       postimage !! p = None) /\
    let opts := match given_opts with
                | Some given => given
                | None => GIT_APPLY_OPTIONS_INIT
                end in
    (if decide (location opts = GIT_APPLY_LOCATION_INDEX)
     then git_apply__to_index repo diff postimage opts
     else git_apply__to_workdir repo diff postimage opts)
    = Some (e, repo').
Proof using GIT_EAPPLYFAIL_neg.
  intros Hpatch Happly Hrepo.
  by destruct (git_apply_cases _ _ _ _ _ _ _ Hpatch Happly) as [[_ ?]|?].
Qed.

(** X22.  [git_apply] with the location "index".  The working directory
    is never touched, and a path that is neither the old nor the new path
    of a delta has in the index what it had.  When the return value is 0
    or more, the index has an entry at the new path of every delta that
    is no deletion, and none at the old path of a delta that deletes or
    renames, unless that path is the new path of a delta that is no
    deletion. *)
Theorem git_apply_location_index (repo : git_repository)
    (diff : list git_diff_delta) (opts : git_apply_options)
    (err : giterr) (e : Z) (repo' : git_repository) (err' : giterr) :
  (forall (k : nat) d, diff !! k = Some d ->
     delta (git_patch_from_diff diff (Z.of_nat k)).2 = d) ->
  location opts = GIT_APPLY_LOCATION_INDEX ->
  git_apply repo diff (Some opts) err = Some (e, repo', err') ->
  repo_workdir repo' = repo_workdir repo /\
  (forall p,
     (forall d, d ∈ diff ->
        p ≠ path (old_file d) /\ p ≠ path (new_file d)) ->
     repo_index repo' !! p = repo_index repo !! p) /\
  (0 <= e ->
   (forall d, d ∈ diff -> status d ≠ GIT_DELTA_DELETED ->
      is_Some (repo_index repo' !! path (new_file d))) /\
   (forall d, d ∈ diff ->
      status d = GIT_DELTA_DELETED \/ status d = GIT_DELTA_RENAMED ->
      (forall d', d' ∈ diff -> status d' ≠ GIT_DELTA_DELETED ->
                  path (old_file d) ≠ path (new_file d')) ->
      repo_index repo' !! path (old_file d) = None)).
Proof using GIT_EAPPLYFAIL_neg.
  intros Hpatch Hloc Happly.
  destruct (git_apply_cases _ _ _ _ _ _ _ Hpatch Happly)
    as [[He ->]|(_ & postimage & Hnew & Hnone & Hcommit)].
  { split_and!; try done. lia. }
  simpl in Hcommit. rewrite decide_True in Hcommit by done.
  destruct (git_apply__to_index_cases repo diff postimage opts)
    as (index & Hindex & Hlookup).
  rewrite Hindex in Hcommit. injection Hcommit as _ <-. simpl.
  split_and!; [done| |intros _; split].
  - intros p Hp. destruct (Hlookup p) as (_ & _ & Hkeep). apply Hkeep.
    + apply Hnone. intros d Hd _. by apply Hp.
    + intros (d & Hd & _ & Heq). by destruct (Hp d Hd).
  - intros d Hd Hs. destruct (Hnew d Hd Hs) as [entry Hentry].
    exists entry. by apply (Hlookup (path (new_file d))).
  - intros d Hd Hs Hfree.
    destruct (Hlookup (path (old_file d))) as (_ & Hrem & _).
    apply Hrem; [by apply Hnone|]. by exists d.
Qed.

(** ** Binary patches without a payload *)

(** X23.  A patch that is flagged binary and carries no binary data
    fails with "patch does not contain binary data", and the contents
    buffer is empty.  One that carries data with two empty payloads
    returns 0 without reading the source: the contents buffer is left as
    it was given, empty if it was empty, whatever the source holds. *)
Theorem git_apply__patch_binary_without_payload (contents_out0 : git_buf)
    (source : list byte) (source_len : Z) (patch : git_patch) (err : giterr) :
  Z.land (flags (delta patch)) GIT_DIFF_FLAG_BINARY ≠ 0 ->
  (contains_data (binary patch) = false ->
   git_apply__patch contents_out0 source source_len patch err
   = Some {| return_code := GIT_EAPPLYFAIL; contents_out := GIT_BUF_INIT;
             filename_out := None; mode_out := 0;
             error_message := Some ERR_NO_BINARY_DATA |}) /\
  (contains_data (binary patch) = true ->
   datalen (binary_old_file (binary patch)) = 0 ->
   datalen (binary_new_file (binary patch)) = 0 ->
   status (delta patch) ≠ GIT_DELTA_DELETED ->
   git_apply__patch contents_out0 source source_len patch err
   = Some {| return_code := 0; contents_out := contents_out0;
             filename_out := Some (path (new_file (delta patch)));
             mode_out := if decide (mode (new_file (delta patch)) = 0)
                         then GIT_FILEMODE_BLOB
                         else mode (new_file (delta patch));
             error_message := err |}).
Proof using GIT_EAPPLYFAIL_neg.
  intros Hflag. unfold git_apply__patch, apply_binary, apply_err. split.
  - intros ->.
    destruct (decide (status (delta patch) ≠ GIT_DELTA_DELETED));
      rewrite (decide_True _ _ Hflag); simpl;
      rewrite (decide_True (P := GIT_EAPPLYFAIL < 0)) by done; simpl;
      by rewrite (decide_True (P := GIT_EAPPLYFAIL ≠ 0)) by lia.
  - intros -> Hold Hnew Hs.
    rewrite (decide_True _ _ Hs), (decide_True _ _ Hflag). simpl.
    rewrite (decide_True (P := _ /\ _)) by done.
    rewrite (decide_False (P := 0 < 0)) by lia. simpl.
    rewrite decide_False by (intros [? _]; done).
    by repeat case_decide.
Qed.

End Apply.

(** * The code at sample inputs *)

(** C1.  [patch_image_init_fromstr] passes [in_len] to [memchr] at every
    line, whatever is left of the buffer, so the search for the end of the
    last line runs on behind the buffer.  Of the five bytes ["A\nBX\n"]
    the caller passes the first three; the image that is built has the
    lines ["A\n"] and ["BX"], its serialization is ["A\nBX"] and not the
    buffer ["A\nB"], and [git_apply__patch] hands out these four bytes for
    a patch that leaves the file as it is. *)
Theorem patch_image_init_fromstr_overread :
  buffer_bytes overread_source 3 = ["A"; NL; "B"]%byte /\
  (exists image,
     patch_image_init_fromstr overread_source 3 = Some (0, image) /\
     line_bytes <$> omap id image = [["A"; NL]; ["B"; "X"]]%byte /\
     image_put GIT_BUF_INIT image = Some ["A"; NL; "B"; "X"]%byte) /\
  git_apply__patch sample_EAPPLYFAIL sample_FILEMODE_BLOB
    sample_FLAG_BINARY sample_inflate sample_delta
    GIT_BUF_INIT overread_source 3 overread_patch None
  = Some {| return_code := 0;
            contents_out := ["A"; NL; "B"; "X"]%byte;
            filename_out := Some "new.txt";
            mode_out := sample_FILEMODE_BLOB;
            error_message := None |}.
Proof.
  split_and!; try reflexivity.
  eexists. split_and!; reflexivity.
Qed.

(** The same three bytes with nothing readable behind them, and with
    the terminator of a [git_buf] behind them: the search for the end of
    the second line reads behind what is readable. *)
Example patch_image_init_fromstr_reads_behind :
  patch_image_init_fromstr ["A"; NL; "B"]%byte 3 = None /\
  patch_image_init_fromstr (git_buf_ptr ["A"; NL; "B"]%byte) 3 = None.
Proof. split; reflexivity. Qed.

(** The hunk of [patch_B_B2] applies to ["A\nB\nC\n"]. *)
Example apply_patch_B_B2 :
  contents_out <$>
    git_apply__patch sample_EAPPLYFAIL sample_FILEMODE_BLOB
      sample_FLAG_BINARY sample_inflate sample_delta
      GIT_BUF_INIT (bytes_A ++ bytes_B ++ bytes_C) 6
      patch_B_B2 None
  = Some (bytes_A ++ bytes_B2 ++ bytes_C).
Proof. reflexivity. Qed.

(** A deletion without hunks leaves the contents of the file and fails. *)
Example apply_patch_removal_leaves_contents :
  git_apply__patch sample_EAPPLYFAIL sample_FILEMODE_BLOB
    sample_FLAG_BINARY sample_inflate sample_delta
    GIT_BUF_INIT bytes_A 2
    (text_patch GIT_DELTA_DELETED [] []) None
  = Some {| return_code := sample_EAPPLYFAIL; contents_out := bytes_A;
            filename_out := None; mode_out := 0;
            error_message := Some ERR_REMOVAL_LEAVES_CONTENTS |}.
Proof. reflexivity. Qed.

(** The deletion of the file ["A\n"] by a hunk that removes its line
    leaves nothing and succeeds; the same hunk on the file ["A\nB\n"]
    leaves ["B\n"], and the deletion fails. *)
Example apply_patch_deletion :
  git_apply__patch sample_EAPPLYFAIL sample_FILEMODE_BLOB
    sample_FLAG_BINARY sample_inflate sample_delta
    GIT_BUF_INIT bytes_A 2 deletion_patch None
  = Some deletion_result /\
  git_apply__patch sample_EAPPLYFAIL sample_FILEMODE_BLOB
    sample_FLAG_BINARY sample_inflate sample_delta
    GIT_BUF_INIT (bytes_A ++ bytes_B) 4 deletion_patch None
  = Some partial_deletion_result.
Proof. split; reflexivity. Qed.

(** A literal binary patch whose two payloads agree with the source. *)
Example apply_binary_clean :
  apply_binary sample_EAPPLYFAIL sample_inflate sample_delta GIT_BUF_INIT
    [x00; x01] 2 clean_binary_patch None
  = (0, [x02; x03; x04], None).
Proof. reflexivity. Qed.

(** * Witnesses *)

Lemma match_hunk_iff_witness :
  (match_hunk image_AXC [Some (sample_line GIT_DIFF_LINE_DELETION bytes_X)] 1
   = Some true
   <-> 1 + vlen [Some (sample_line GIT_DIFF_LINE_DELETION bytes_X)]
       <= vlen image_AXC /\
       forall i,
         0 <= i < vlen [Some (sample_line GIT_DIFF_LINE_DELETION bytes_X)] ->
         lines_equal
           (git_vector_get image_AXC (1 + i))
           (git_vector_get
              [Some (sample_line GIT_DIFF_LINE_DELETION bytes_X)] i)) /\
  (1 <= vlen image_AXC ->
   1 + vlen [Some (sample_line GIT_DIFF_LINE_DELETION bytes_X)]
   > vlen image_AXC ->
   match_hunk image_AXC [Some (sample_line GIT_DIFF_LINE_DELETION bytes_X)] 1
   = Some false).
Proof.
  apply match_hunk_iff.
  - unfold SIZE_BITS. lia.
  - vm_compute. reflexivity.
Defined.

Lemma apply_hunk_anchor_only_witness :
  apply_hunk sample_EAPPLYFAIL image_AXC patch_B_B2 hunk_B_B2 None
  = Some (sample_EAPPLYFAIL, image_AXC, Some (ERR_HUNK_DID_NOT_APPLY 1)).
Proof.
  assert (Hneg : sample_EAPPLYFAIL < 0) by (unfold sample_EAPPLYFAIL; lia).
  assert (Hns : 0 <= new_start hunk_B_B2 < 2 ^ 31) by (simpl; lia).
  destruct (apply_hunk_anchor_only sample_EAPPLYFAIL Hneg image_AXC
              patch_B_B2 hunk_B_B2 None Hns) as [[_ Hfail] _].
  apply Hfail. eexists _, _. split; reflexivity.
Defined.

Lemma apply_binary_roundtrip_witness :
  apply_binary sample_EAPPLYFAIL sample_inflate sample_delta GIT_BUF_INIT
    [x00; x01] 2 unclean_binary_patch None
  = (sample_EAPPLYFAIL, GIT_BUF_INIT, Some ERR_BINARY_NOT_CLEAN).
Proof.
  assert (Hneg : sample_EAPPLYFAIL < 0) by (unfold sample_EAPPLYFAIL; lia).
  assert (Hdata : contains_data (binary unclean_binary_patch) = true)
    by reflexivity.
  assert (Hpayload :
    datalen (binary_old_file (binary unclean_binary_patch)) ≠ 0
    \/ datalen (binary_new_file (binary unclean_binary_patch)) ≠ 0)
    by (left; vm_compute; discriminate).
  assert (Hlen : 0 <= 2 <= vlen [x00; x01]) by (vm_compute; split; discriminate).
  destruct (apply_binary_roundtrip sample_EAPPLYFAIL sample_inflate
              sample_delta Hneg GIT_BUF_INIT [x00; x01] 2
              unclean_binary_patch None Hdata Hpayload Hlen) as [_ Hfail].
  apply Hfail; vm_compute; discriminate.
Defined.

Lemma apply_binary_delta_inflatedlen_witness :
  apply_binary_delta sample_EAPPLYFAIL sample_inflate sample_delta
    GIT_BUF_INIT [] 0 (literal_payload [x01; x02; x03] 5) None
  = (sample_EAPPLYFAIL, GIT_BUF_INIT, Some ERR_INFLATED_LENGTH).
Proof.
  assert (Hneg : sample_EAPPLYFAIL < 0) by (unfold sample_EAPPLYFAIL; lia).
  assert (Hlen : datalen (literal_payload [x01; x02; x03] 5) > 0)
    by reflexivity.
  destruct (apply_binary_delta_inflatedlen sample_EAPPLYFAIL sample_inflate
              sample_delta Hneg GIT_BUF_INIT [] 0
              (literal_payload [x01; x02; x03] 5) Hlen) as [[_ Hiff] Hres].
  apply Hres, Hiff. split; [reflexivity | vm_compute; discriminate].
Defined.

Lemma git_apply__patch_deleted_witness :
  filename_out partial_deletion_result = None /\
  mode_out partial_deletion_result = 0 /\
  exists e out err',
    apply_hunks sample_EAPPLYFAIL GIT_BUF_INIT (bytes_A ++ bytes_B) 4
      deletion_patch None = Some (e, out, err') /\
    contents_out partial_deletion_result = out /\
    (e = 0 -> out ≠ GIT_BUF_INIT ->
     return_code partial_deletion_result = sample_EAPPLYFAIL /\
     error_message partial_deletion_result
     = Some ERR_REMOVAL_LEAVES_CONTENTS).
Proof.
  assert (Hneg : sample_EAPPLYFAIL < 0) by (unfold sample_EAPPLYFAIL; lia).
  assert (Hinflate : forall d, (sample_inflate d).1 <= 0)
    by (intros d; simpl; lia).
  assert (Hdelta : forall base d, (sample_delta base d).1 <= 0)
    by (intros base d; simpl; lia).
  assert (Hstatus : status (delta deletion_patch) = GIT_DELTA_DELETED)
    by reflexivity.
  destruct (git_apply__patch_deleted sample_EAPPLYFAIL sample_FILEMODE_BLOB
              sample_FLAG_BINARY sample_inflate sample_delta Hneg
              (bytes_A ++ bytes_B) 4 deletion_patch None
              Hinflate Hdelta Hstatus) as [_ Hresult].
  destruct (Hresult partial_deletion_result eq_refl)
    as (Hname & Hmode & _ & _ & e & out & err' & Happlied & Hout & _ & Hfail & _).
  split; [exact Hname|]. split; [exact Hmode|].
  exists e, out, err'. split_and!; [exact Happlied | exact Hout | exact Hfail].
Defined.

Lemma git_apply__patch_no_hunks_witness :
  git_apply__patch sample_EAPPLYFAIL sample_FILEMODE_BLOB
    sample_FLAG_BINARY sample_inflate sample_delta
    GIT_BUF_INIT bytes_A 2 rename_patch None
  = Some {| return_code := 0;
            contents_out := buffer_bytes bytes_A 2;
            filename_out := Some (path (new_file (delta rename_patch)));
            mode_out := if decide (mode (new_file (delta rename_patch)) = 0)
                        then sample_FILEMODE_BLOB
                        else mode (new_file (delta rename_patch));
            error_message := None |}.
Proof.
  apply git_apply__patch_no_hunks.
  - simpl. discriminate.
  - reflexivity.
  - reflexivity.
Defined.

Lemma git_apply__patch_outputs_witness :
  (return_code mismatch_result ≠ 0 ->
   filename_out mismatch_result = None /\ mode_out mismatch_result = 0) /\
  (filename_out mismatch_result ≠ None \/ mode_out mismatch_result ≠ 0 ->
   return_code mismatch_result = 0) /\
  (return_code mismatch_result = 0 ->
   status (delta patch_B_B2) ≠ GIT_DELTA_DELETED ->
   filename_out mismatch_result = Some (path (new_file (delta patch_B_B2))) /\
   mode_out mismatch_result
   = if decide (mode (new_file (delta patch_B_B2)) = 0)
     then sample_FILEMODE_BLOB
     else mode (new_file (delta patch_B_B2))).
Proof.
  apply (git_apply__patch_outputs sample_EAPPLYFAIL sample_FILEMODE_BLOB
           sample_FLAG_BINARY sample_inflate sample_delta GIT_BUF_INIT
           (bytes_A ++ bytes_X ++ bytes_C) 6 patch_B_B2 None mismatch_result).
  reflexivity.
Defined.

Lemma git_apply__patch_additions_witness :
  git_apply__patch sample_EAPPLYFAIL sample_FILEMODE_BLOB
    sample_FLAG_BINARY sample_inflate sample_delta
    GIT_BUF_INIT [] 0 addition_patch None
  = Some {| return_code := 0;
            contents_out := concat_lines (all_hunk_lines addition_patch);
            filename_out := Some (path (new_file (delta addition_patch)));
            mode_out := if decide (mode (new_file (delta addition_patch)) = 0)
                        then sample_FILEMODE_BLOB
                        else mode (new_file (delta addition_patch));
            error_message := None |}.
Proof.
  apply git_apply__patch_additions.
  - reflexivity.
  - reflexivity.
  - repeat constructor; vm_compute; discriminate.
  - simpl. split_and!; (lia || done).
  - vm_compute. discriminate.
  - vm_compute. reflexivity.
Defined.

(** * Counterexample *)

(** C9, as the specification states it, fails for two hunks of additions
    that both name line 1: the line of the second hunk is put in front of the line
    of the first, and the output ["B\nA\n"] is not the concatenation
    ["A\nB\n"] of the addition lines in order. *)
Lemma git_apply__patch_additions_same_anchor :
  status (delta addition_patch_same_anchor) = GIT_DELTA_ADDED /\
  Forall (only_additions addition_patch_same_anchor)
         (hunks addition_patch_same_anchor) /\
  concat_lines (all_hunk_lines addition_patch_same_anchor)
  = bytes_A ++ bytes_B /\
  git_apply__patch sample_EAPPLYFAIL sample_FILEMODE_BLOB
    sample_FLAG_BINARY sample_inflate sample_delta
    GIT_BUF_INIT [] 0 addition_patch_same_anchor None
  = Some {| return_code := 0;
            contents_out := bytes_B ++ bytes_A;
            filename_out := Some "new.txt";
            mode_out := sample_FILEMODE_BLOB;
            error_message := None |} /\
  ~ (contents_out <$>
       git_apply__patch sample_EAPPLYFAIL sample_FILEMODE_BLOB
         sample_FLAG_BINARY sample_inflate sample_delta
         GIT_BUF_INIT [] 0 addition_patch_same_anchor None
     = Some (concat_lines (all_hunk_lines addition_patch_same_anchor))).
Proof.
  split_and!; try reflexivity.
  - repeat constructor; vm_compute; discriminate.
  - vm_compute. discriminate.
Qed.

(** * Witnesses of the further properties *)
Lemma patch_image_init_fromstr_roundtrip_witness :
  exists image,
    patch_image_init_fromstr (bytes_A ++ bytes_B) 4 = Some (0, image) /\
    image_put GIT_BUF_INIT image
    = Some (GIT_BUF_INIT ++ buffer_bytes (bytes_A ++ bytes_B) 4).
Proof.
  assert (Hlen : 0 <= 4 <= vlen (bytes_A ++ bytes_B))
    by (vm_compute; split; discriminate).
  destruct (patch_image_init_fromstr_roundtrip (bytes_A ++ bytes_B) 4
              GIT_BUF_INIT Hlen) as (Hround & Hbuilt & _).
  destruct Hbuilt as [[e image] Himage]; [right; left; reflexivity|].
  destruct (Hround (not_elem_of_nil NL) e image Himage) as [-> Hput].
  by exists image.
Defined.

Lemma patch_image_init_fromstr_laid_out_witness :
  lines_laid_out (bytes_A ++ bytes_X ++ bytes_C) 0 image_of_AXC /\
  vlen image_of_AXC <= Z.max 0 6 /\
  (0 < 6 -> image_of_AXC ≠ [] /\ 6 <= lines_end 0 image_of_AXC).
Proof.
  assert (Himage :
    patch_image_init_fromstr (bytes_A ++ bytes_X ++ bytes_C) 6
    = Some (0, image_of_AXC)) by reflexivity.
  destruct (patch_image_init_fromstr_laid_out
              (bytes_A ++ bytes_X ++ bytes_C) 6) as [_ Hlaid].
  destruct (Hlaid 0 image_of_AXC Himage) as (_ & H1 & H2 & _ & H3).
  by split_and!.
Defined.

Lemma update_hunk_replaces_range_witness :
  exists image',
    update_hunk image_AXC 1
      [Some (sample_line GIT_DIFF_LINE_DELETION bytes_X)]
      [Some (sample_line GIT_DIFF_LINE_ADDITION bytes_B);
       Some (sample_line GIT_DIFF_LINE_ADDITION bytes_B2)]
    = Some (0, image') /\
    image' = take (Z.to_nat 1) image_AXC
               ++ [Some (sample_line GIT_DIFF_LINE_ADDITION bytes_B);
                   Some (sample_line GIT_DIFF_LINE_ADDITION bytes_B2)]
               ++ drop (Z.to_nat
                          (1 + vlen [Some (sample_line GIT_DIFF_LINE_DELETION
                                             bytes_X)]))
                       image_AXC /\
    vlen image'
    = vlen image_AXC
      - vlen [Some (sample_line GIT_DIFF_LINE_DELETION bytes_X)]
      + vlen [Some (sample_line GIT_DIFF_LINE_ADDITION bytes_B);
              Some (sample_line GIT_DIFF_LINE_ADDITION bytes_B2)].
Proof.
  apply update_hunk_replaces_range.
  - lia.
  - vm_compute. discriminate.
  - vm_compute. discriminate.
Defined.

Lemma apply_hunk_images_partition_witness :
  apply_hunk_images patch_B_B2 hunk_B_B2
    (Z.to_nat (line_count hunk_B_B2)) 0 [] []
  = inl (Some <$> List.filter (fun l => is_preimage_origin (origin l))
                    (hunk_lines patch_B_B2 hunk_B_B2),
         Some <$> List.filter (fun l => is_postimage_origin (origin l))
                    (hunk_lines patch_B_B2 hunk_B_B2)).
Proof.
  assert (Hstart : 0 <= line_start hunk_B_B2 <= vlen (patch_lines patch_B_B2))
    by (vm_compute; split; discriminate).
  assert (Hcount : 0 <= line_count hunk_B_B2) by (simpl; lia).
  assert (Hmem : vlen (patch_lines patch_B_B2) < 2 ^ SIZE_BITS)
    by (vm_compute; reflexivity).
  destruct (apply_hunk_images_partition patch_B_B2 hunk_B_B2
              Hstart Hcount Hmem) as [Hfits _].
  apply Hfits. vm_compute. discriminate.
Defined.

Lemma apply_hunk_missing_line_witness :
  apply_hunk sample_EAPPLYFAIL image_ABC patch_B_B2 overrun_hunk None
  = Some (sample_EAPPLYFAIL, image_ABC,
          Some (ERR_PREIMAGE_MISSING_LINE (vlen (patch_lines patch_B_B2)))).
Proof.
  apply apply_hunk_missing_line.
  - vm_compute. split; discriminate.
  - vm_compute. reflexivity.
  - vm_compute. reflexivity.
Defined.

Lemma apply_hunk_replaces_preimage_witness :
  exists image',
    apply_hunk sample_EAPPLYFAIL image_ABC patch_B_B2 hunk_B_B2 None
    = Some (0, image', None) /\
    image' = take (Z.to_nat (hunk_anchor image_ABC hunk_B_B2)) image_ABC
               ++ postimage_B_B2
               ++ drop (Z.to_nat (hunk_anchor image_ABC hunk_B_B2
                                  + vlen preimage_B_B2))
                       image_ABC /\
    vlen image' = vlen image_ABC - vlen preimage_B_B2 + vlen postimage_B_B2.
Proof.
  apply apply_hunk_replaces_preimage.
  - simpl. lia.
  - vm_compute. reflexivity.
  - vm_compute. reflexivity.
  - vm_compute. reflexivity.
  - reflexivity.
  - reflexivity.
Defined.

Lemma apply_hunk_outcome_witness :
  (sample_EAPPLYFAIL = 0 /\ Some (ERR_HUNK_DID_NOT_APPLY 1) = None) \/
  (sample_EAPPLYFAIL = sample_EAPPLYFAIL /\ image_AXC = image_AXC /\
   ((exists n, Some (ERR_HUNK_DID_NOT_APPLY 1)
               = Some (ERR_PREIMAGE_MISSING_LINE n)) \/
    Some (ERR_HUNK_DID_NOT_APPLY 1)
    = Some (ERR_HUNK_DID_NOT_APPLY (new_start hunk_B_B2)))).
Proof.
  apply (apply_hunk_outcome sample_EAPPLYFAIL image_AXC patch_B_B2
           hunk_B_B2 None).
  reflexivity.
Defined.

Lemma apply_hunks_all_or_nothing_witness :
  (sample_EAPPLYFAIL = sample_EAPPLYFAIL /\ bytes_C = bytes_C) \/
  (sample_EAPPLYFAIL = 0 /\ bytes_C `prefix_of` bytes_C /\
   Some (ERR_HUNK_DID_NOT_APPLY 1) = None).
Proof.
  assert (Hneg : sample_EAPPLYFAIL < 0) by (unfold sample_EAPPLYFAIL; lia).
  apply (apply_hunks_all_or_nothing sample_EAPPLYFAIL Hneg bytes_C
           (bytes_A ++ bytes_X ++ bytes_C) 6 patch_B_B2 None).
  reflexivity.
Defined.

Lemma apply_hunk_context_only_witness :
  (forall out,
     image_put out image_of_AXC_context = image_put out image_of_AXC) /\
  vlen image_of_AXC_context = vlen image_of_AXC.
Proof.
  apply (apply_hunk_context_only sample_EAPPLYFAIL image_of_AXC
           overread_patch context_hunk None 0 image_of_AXC_context None).
  - vm_compute. split_and!; discriminate.
  - repeat constructor.
  - simpl. lia.
  - vm_compute. reflexivity.
  - vm_compute. reflexivity.
  - reflexivity.
Defined.

Lemma apply_hunk_inserts_additions_witness :
  apply_hunk sample_EAPPLYFAIL image_AXC addition_patch addition_hunk None
  = Some (0,
          take (Z.to_nat (hunk_anchor image_AXC addition_hunk)) image_AXC
            ++ (Some <$> hunk_lines addition_patch addition_hunk)
            ++ drop (Z.to_nat (hunk_anchor image_AXC addition_hunk)) image_AXC,
          None).
Proof.
  apply apply_hunk_inserts_additions.
  - repeat constructor; vm_compute; discriminate.
  - simpl. lia.
  - vm_compute. discriminate.
  - vm_compute. reflexivity.
Defined.

Lemma apply_binary_literal_witness :
  apply_binary sample_EAPPLYFAIL sample_inflate sample_delta bytes_X
    [x00; x01] 2 clean_binary_patch None
  = (0, [x02; x03; x04], None).
Proof.
  assert (Hneg : sample_EAPPLYFAIL < 0) by (unfold sample_EAPPLYFAIL; lia).
  assert (Hinflate : forall d, (sample_inflate d).1 <= 0)
    by (intros d; simpl; lia).
  assert (Hlen : 0 <= 2 <= vlen [x00; x01])
    by (vm_compute; split; discriminate).
  apply (apply_binary_literal sample_EAPPLYFAIL sample_inflate sample_delta
           Hneg bytes_X [x00; x01] 2 clean_binary_patch [x02; x03; x04] None
           Hinflate eq_refl eq_refl eq_refl).
  - vm_compute. discriminate.
  - vm_compute. discriminate.
  - exact Hlen.
  - split_and!; reflexivity.
Defined.

Lemma apply_binary_no_output_on_failure_witness :
  (apply_binary sample_EAPPLYFAIL sample_inflate sample_delta bytes_X
     [x00; x01] 2 unclean_binary_patch None).1.1 <= 0 /\
  ((apply_binary sample_EAPPLYFAIL sample_inflate sample_delta bytes_X
      [x00; x01] 2 unclean_binary_patch None).1.1 < 0 ->
   (apply_binary sample_EAPPLYFAIL sample_inflate sample_delta bytes_X
      [x00; x01] 2 unclean_binary_patch None).1.2 = GIT_BUF_INIT).
Proof.
  assert (Hneg : sample_EAPPLYFAIL < 0) by (unfold sample_EAPPLYFAIL; lia).
  apply (apply_binary_no_output_on_failure sample_EAPPLYFAIL sample_inflate
           sample_delta Hneg bytes_X [x00; x01] 2 unclean_binary_patch None).
  - intros d. simpl. lia.
  - intros base d. simpl. lia.
Defined.

Lemma git_apply__patch_binary_ignores_hunks_witness :
  git_apply__patch sample_EAPPLYFAIL sample_FILEMODE_BLOB
    sample_FLAG_BINARY sample_inflate sample_delta GIT_BUF_INIT
    [x00; x01] 2
    (with_hunks clean_binary_patch [hunk_B_B2] (patch_lines patch_B_B2)) None
  = git_apply__patch sample_EAPPLYFAIL sample_FILEMODE_BLOB
      sample_FLAG_BINARY sample_inflate sample_delta GIT_BUF_INIT
      [x00; x01] 2 clean_binary_patch None.
Proof.
  apply git_apply__patch_binary_ignores_hunks.
  vm_compute. discriminate.
Defined.

Lemma apply_hunks_context_only_witness :
  bytes_A ++ bytes_X ++ bytes_C
  = GIT_BUF_INIT ++ buffer_bytes (bytes_A ++ bytes_X ++ bytes_C) 6.
Proof.
  assert (Hneg : sample_EAPPLYFAIL < 0) by (unfold sample_EAPPLYFAIL; lia).
  apply (apply_hunks_context_only sample_EAPPLYFAIL Hneg GIT_BUF_INIT
           (bytes_A ++ bytes_X ++ bytes_C) 6 overread_patch None
           (bytes_A ++ bytes_X ++ bytes_C) None).
  - repeat constructor; vm_compute; discriminate.
  - split; [lia | vm_compute; reflexivity].
  - vm_compute. reflexivity.
  - simpl. apply not_elem_of_nil.
  - reflexivity.
Defined.

Lemma apply_one_outcome_witness :
  exists r,
    git_apply__patch sample_EAPPLYFAIL sample_FILEMODE_BLOB
      sample_FLAG_BINARY sample_inflate sample_delta GIT_BUF_INIT
      (git_buf_ptr bytes_A) (vlen bytes_A)
      (sample_patch_from_diff rename_diff 0).2 None = Some r /\
    return_code r = 0 /\
    <["new.txt" := (33188, bytes_A)]> sample_tree
    = <["new.txt" :=
          (sample_FILEMODE_BLOB, (sample_blob_create (contents_out r)).2)]>
        sample_tree.
Proof.
  assert (Hneg : sample_EAPPLYFAIL < 0) by (unfold sample_EAPPLYFAIL; lia).
  assert (Hi : 0 <= 0) by lia.
  assert (Hd : rename_diff !! Z.to_nat 0
               = Some (sample_delta_record GIT_DELTA_RENAMED 0))
    by reflexivity.
  assert (Hpatch : delta (sample_patch_from_diff rename_diff 0).2
                   = sample_delta_record GIT_DELTA_RENAMED 0)
    by reflexivity.
  assert (Hone :
    apply_one sample_EAPPLYFAIL sample_FILEMODE_BLOB sample_FLAG_BINARY
      sample_inflate sample_delta sample_ENOTFOUND sample_patch_from_diff
      sample_blob_create sample_reader sample_tree rename_diff 0 None
    = Some (0, <["new.txt" := (33188, bytes_A)]> sample_tree, None))
    by reflexivity.
  destruct (apply_one_outcome sample_EAPPLYFAIL sample_FILEMODE_BLOB
              sample_FLAG_BINARY sample_inflate sample_delta sample_ENOTFOUND
              sample_patch_from_diff sample_blob_create Hneg
              sample_reader sample_tree rename_diff 0 None
              (sample_delta_record GIT_DELTA_RENAMED 0) 0
              (<["new.txt" := (33188, bytes_A)]> sample_tree) None
              Hi Hd Hpatch Hone) as (_ & _ & Hok).
  destruct Hok as (_ & r & Hr & Hcode & _ & Hpost);
    [lia | simpl; discriminate |].
  exists r. split_and!; [exact Hr | exact Hcode | exact Hpost].
Defined.

Lemma apply_one_preimage_read_witness :
  apply_one sample_EAPPLYFAIL sample_FILEMODE_BLOB sample_FLAG_BINARY
    sample_inflate sample_delta sample_ENOTFOUND sample_patch_from_diff
    sample_blob_create missing_reader sample_tree rename_diff 0 None
  = Some (if decide ((missing_reader
                        (path (old_file (sample_delta_record
                                           GIT_DELTA_RENAMED 0)))).1
                     = sample_ENOTFOUND)
          then sample_EAPPLYFAIL
          else (missing_reader
                  (path (old_file (sample_delta_record
                                     GIT_DELTA_RENAMED 0)))).1,
          sample_tree, None).
Proof.
  assert (Hi : 0 <= 0) by lia.
  assert (Hd : rename_diff !! Z.to_nat 0
               = Some (sample_delta_record GIT_DELTA_RENAMED 0))
    by reflexivity.
  destruct (apply_one_preimage_read sample_EAPPLYFAIL sample_FILEMODE_BLOB
              sample_FLAG_BINARY sample_inflate sample_delta sample_ENOTFOUND
              sample_patch_from_diff sample_blob_create
              missing_reader sample_reader sample_tree rename_diff 0 None
              (sample_delta_record GIT_DELTA_RENAMED 0) Hi Hd)
    as [_ Hfail].
  apply Hfail.
  - simpl. discriminate.
  - simpl. discriminate.
  - simpl. lia.
  - simpl. unfold sample_ENOTFOUND. lia.
Defined.

Lemma git_apply_tree_frame_witness :
  (0 < 0 -> Some renamed_tree = None) /\
  (0 <= 0 ->
   exists postimage,
     Some renamed_tree = Some postimage /\
     forall p,
       (forall d, d ∈ rename_diff -> p ≠ path (old_file d)) ->
       (forall d, d ∈ rename_diff -> status d ≠ GIT_DELTA_DELETED ->
                  p ≠ path (new_file d)) ->
       postimage !! p = sample_tree !! p).
Proof.
  assert (Hneg : sample_EAPPLYFAIL < 0) by (unfold sample_EAPPLYFAIL; lia).
  apply (git_apply_tree_frame sample_EAPPLYFAIL sample_FILEMODE_BLOB
           sample_FLAG_BINARY sample_inflate sample_delta sample_ENOTFOUND
           sample_patch_from_diff sample_blob_create Hneg
           sample_reader sample_tree rename_diff None 0 (Some renamed_tree)
           None).
  - intros k d Hd. unfold sample_patch_from_diff. simpl.
    by rewrite Nat2Z.id, Hd.
  - reflexivity.
Defined.

Lemma git_apply_tree_old_and_new_paths_witness :
  (forall d, d ∈ rename_diff -> status d ≠ GIT_DELTA_DELETED ->
     is_Some (renamed_tree !! path (new_file d))) /\
  (forall d, d ∈ rename_diff ->
     (forall d', d' ∈ rename_diff -> status d' ≠ GIT_DELTA_DELETED ->
                 path (old_file d) ≠ path (new_file d')) ->
     renamed_tree !! path (old_file d) = None).
Proof.
  assert (Hneg : sample_EAPPLYFAIL < 0) by (unfold sample_EAPPLYFAIL; lia).
  apply (git_apply_tree_old_and_new_paths sample_EAPPLYFAIL
           sample_FILEMODE_BLOB sample_FLAG_BINARY sample_inflate sample_delta
           sample_ENOTFOUND sample_patch_from_diff sample_blob_create Hneg
           sample_reader sample_tree rename_diff None 0 renamed_tree None).
  - intros k d Hd. unfold sample_patch_from_diff. simpl.
    by rewrite Nat2Z.id, Hd.
  - reflexivity.
Defined.

Lemma git_apply_all_or_nothing_witness :
  0 <= sample_check_version (Some index_apply_options) /\
  exists postimage,
    (forall d, d ∈ rename_diff -> status d ≠ GIT_DELTA_DELETED ->
       is_Some (postimage !! path (new_file d))) /\
    (forall p,
       (forall d, d ∈ rename_diff -> status d ≠ GIT_DELTA_DELETED ->
                  p ≠ path (new_file d)) ->
       postimage !! p = None) /\
    let opts := match Some index_apply_options with
                | Some given => given
                | None => sample_apply_options
                end in
    (if decide (location opts = GIT_APPLY_LOCATION_INDEX)
     then git_apply__to_index sample_index_write sample_repository
            rename_diff postimage opts
     else git_apply__to_workdir sample_checkout_options sample_CHECKOUT_SAFE
            sample_CHECKOUT_DISABLE_PATHSPEC_MATCH
            sample_CHECKOUT_DONT_UPDATE_INDEX sample_checkout_index
            sample_repository rename_diff postimage opts)
    = Some (0, renamed_repository).
Proof.
  assert (Hneg : sample_EAPPLYFAIL < 0) by (unfold sample_EAPPLYFAIL; lia).
  apply (git_apply_all_or_nothing sample_EAPPLYFAIL sample_FILEMODE_BLOB
           sample_FLAG_BINARY sample_inflate sample_delta sample_ENOTFOUND
           sample_patch_from_diff sample_blob_create sample_checkout_options
           sample_CHECKOUT_SAFE sample_CHECKOUT_DISABLE_PATHSPEC_MATCH
           sample_CHECKOUT_DONT_UPDATE_INDEX sample_apply_options
           sample_checkout_index sample_index_write sample_reader_for_workdir
           sample_reader_for_index sample_check_version Hneg
           sample_repository rename_diff (Some index_apply_options) None
           0 renamed_repository None).
  - intros k d Hd. unfold sample_patch_from_diff. simpl.
    by rewrite Nat2Z.id, Hd.
  - reflexivity.
  - vm_compute. discriminate.
Defined.

Lemma git_apply_location_index_witness :
  repo_workdir renamed_repository = repo_workdir sample_repository /\
  (forall p,
     (forall d, d ∈ rename_diff ->
        p ≠ path (old_file d) /\ p ≠ path (new_file d)) ->
     repo_index renamed_repository !! p = repo_index sample_repository !! p) /\
  (0 <= 0 ->
   (forall d, d ∈ rename_diff -> status d ≠ GIT_DELTA_DELETED ->
      is_Some (repo_index renamed_repository !! path (new_file d))) /\
   (forall d, d ∈ rename_diff ->
      status d = GIT_DELTA_DELETED \/ status d = GIT_DELTA_RENAMED ->
      (forall d', d' ∈ rename_diff -> status d' ≠ GIT_DELTA_DELETED ->
                  path (old_file d) ≠ path (new_file d')) ->
      repo_index renamed_repository !! path (old_file d) = None)).
Proof.
  assert (Hneg : sample_EAPPLYFAIL < 0) by (unfold sample_EAPPLYFAIL; lia).
  apply (git_apply_location_index sample_EAPPLYFAIL sample_FILEMODE_BLOB
           sample_FLAG_BINARY sample_inflate sample_delta sample_ENOTFOUND
           sample_patch_from_diff sample_blob_create sample_checkout_options
           sample_CHECKOUT_SAFE sample_CHECKOUT_DISABLE_PATHSPEC_MATCH
           sample_CHECKOUT_DONT_UPDATE_INDEX sample_apply_options
           sample_checkout_index sample_index_write sample_reader_for_workdir
           sample_reader_for_index sample_check_version Hneg
           sample_repository rename_diff index_apply_options None
           0 renamed_repository None).
  - intros k d Hd. unfold sample_patch_from_diff. simpl.
    by rewrite Nat2Z.id, Hd.
  - reflexivity.
  - reflexivity.
Defined.

Lemma git_apply__patch_binary_without_payload_witness :
  git_apply__patch sample_EAPPLYFAIL sample_FILEMODE_BLOB
    sample_FLAG_BINARY sample_inflate sample_delta GIT_BUF_INIT
    bytes_A 2 empty_binary_patch None
  = Some {| return_code := 0; contents_out := GIT_BUF_INIT;
            filename_out := Some (path (new_file (delta empty_binary_patch)));
            mode_out := if decide (mode (new_file (delta empty_binary_patch))
                                   = 0)
                        then sample_FILEMODE_BLOB
                        else mode (new_file (delta empty_binary_patch));
            error_message := None |}.
Proof.
  assert (Hneg : sample_EAPPLYFAIL < 0) by (unfold sample_EAPPLYFAIL; lia).
  assert (Hflag :
    Z.land (flags (delta empty_binary_patch)) sample_FLAG_BINARY ≠ 0)
    by (vm_compute; discriminate).
  destruct (git_apply__patch_binary_without_payload sample_EAPPLYFAIL
              sample_FILEMODE_BLOB sample_FLAG_BINARY sample_inflate
              sample_delta Hneg GIT_BUF_INIT bytes_A 2 empty_binary_patch
              None Hflag) as [_ Hempty].
  apply Hempty.
  - reflexivity.
  - reflexivity.
  - reflexivity.
  - simpl. discriminate.
Defined.

(** * The batch at sample inputs *)

(** [git_apply] on the working directory, for the rename of ["old.txt"]:
    the file is read from the working directory and checked out at the
    two paths of the delta; the index stays as it is. *)
Example git_apply_workdir_rename :
  git_apply sample_EAPPLYFAIL sample_FILEMODE_BLOB
    sample_FLAG_BINARY sample_inflate sample_delta sample_ENOTFOUND
    sample_patch_from_diff sample_blob_create sample_checkout_options
    sample_CHECKOUT_SAFE sample_CHECKOUT_DISABLE_PATHSPEC_MATCH
    sample_CHECKOUT_DONT_UPDATE_INDEX sample_apply_options
    sample_checkout_index sample_index_write sample_reader_for_workdir
    sample_reader_for_index sample_check_version
    sample_repository rename_diff None None
  = Some (0,
          {| repo_index := sample_tree;
             repo_workdir :=
               <["new.txt" := bytes_A]> (<["keep.txt" := bytes_C]> ∅) |},
          None).
Proof. reflexivity. Qed.
